(** * Fenwick trees: a shallow embedding of fenwick.h, fenwick_rurq.h,
      fenwick_2d.h and fenwick_rmq.h

    The four structures are modelled as records over [list Z] storage.
    [int] and [int64_t] arithmetic is written with its two's-complement
    wrap-around; array accesses are bounds-checked, an access outside the
    storage being reported as [OutOfBounds]; loops run on a budget of
    iterations and report [OutOfFuel] when the budget is exhausted.  The
    theorems establish [Ok] results, so that neither event happens on the
    inputs they cover. *)

From Stdlib Require Import ZArith List Lia Bool Morphisms Setoid.
Import ListNotations.
Local Open Scope Z_scope.

(** ** Machine integers *)

(** C [int]: 32 bits, two's complement. *)
Module Int.
Definition modulus : Z := 4294967296.
Definition min_signed : Z := -2147483648.
Definition max_signed : Z := 2147483647.
Definition wrap (z : Z) : Z := (z - min_signed) mod modulus + min_signed.
Definition in_range (z : Z) : Prop := min_signed <= z <= max_signed.
Definition add (a b : Z) : Z := wrap (a + b).
Definition sub (a b : Z) : Z := wrap (a - b).
Definition mul (a b : Z) : Z := wrap (a * b).
Definition neg (a : Z) : Z := wrap (- a).
Definition shl (a k : Z) : Z := wrap (Z.shiftl a k).
Definition shr (a k : Z) : Z := Z.shiftr a k.
End Int.

(** [int64_t]: 64 bits, two's complement. *)
Module Int64.
Definition modulus : Z := 18446744073709551616.
Definition min_signed : Z := -9223372036854775808.
Definition max_signed : Z := 9223372036854775807.
Definition wrap (z : Z) : Z := (z - min_signed) mod modulus + min_signed.
Definition in_range (z : Z) : Prop := min_signed <= z <= max_signed.
Definition add (a b : Z) : Z := wrap (a + b).
Definition sub (a b : Z) : Z := wrap (a - b).
Definition mul (a b : Z) : Z := wrap (a * b).
Definition neg (a : Z) : Z := wrap (- a).
End Int64.

Definition INT_MAX : Z := Int.max_signed.

(** [i & -i] on [int]. *)
Definition lowbit (i : Z) : Z := Z.land i (Int.neg i).

(** ** Results of a run *)

Inductive res (A : Type) : Type :=
| Ok (a : A)
| OutOfBounds
| OutOfFuel.
Arguments Ok {A} a.
Arguments OutOfBounds {A}.
Arguments OutOfFuel {A}.

Definition bind {A B : Type} (m : res A) (f : A -> res B) : res B :=
  match m with
  | Ok a => f a
  | OutOfBounds => OutOfBounds
  | OutOfFuel => OutOfFuel
  end.

Declare Scope res_scope.
Delimit Scope res_scope with res.
Notation "x <- m ;; k" := (bind m (fun x => k))
  (at level 61, m at next level, right associativity) : res_scope.
Notation "' p <- m ;; k" := (bind m (fun p => k))
  (at level 61, p pattern, m at next level, right associativity) : res_scope.
Local Open Scope res_scope.

(** ** Arrays *)

Definition in_bounds (l : list Z) (i : Z) : bool :=
  (0 <=? i) && (i <? Z.of_nat (length l)).

(** Unchecked read, for the specification side. *)
Definition get (l : list Z) (i : Z) : Z := nth (Z.to_nat i) l 0.

Fixpoint set_nth (k : nat) (v : Z) (l : list Z) {struct l} : list Z :=
  match l with
  | [] => []
  | x :: t => match k with
              | O => v :: t
              | S k' => x :: set_nth k' v t
              end
  end.

Definition set (l : list Z) (i : Z) (v : Z) : list Z := set_nth (Z.to_nat i) v l.

(** [l[i]] as an rvalue and [l[i] = v]. *)
Definition rd (l : list Z) (i : Z) : res Z :=
  if in_bounds l i then Ok (get l i) else OutOfBounds.

Definition wr (l : list Z) (i : Z) (v : Z) : res (list Z) :=
  if in_bounds l i then Ok (set l i v) else OutOfBounds.

(** [std::fill_n(p, k, v)] on fresh storage. *)
Definition filled (k : Z) (v : Z) : list Z := repeat v (Z.to_nat k).

(** ** Loops *)

Fixpoint while {S : Type} (fuel : nat) (cond : S -> bool) (body : S -> res S) (s : S)
  : res S :=
  match fuel with
  | O => OutOfFuel
  | Datatypes.S f => if cond s then s' <- body s ;; while f cond body s' else Ok s
  end.

(** Iteration budget for a loop whose counter moves over a span of [k]. *)
Definition budget (k : Z) : nat := S (Z.to_nat k).

(** ** fenwick.h *)

Module Fenwick.

Record t : Type := mk { n : Z; nmask : Z; T : list Z }.

Definition with_T (s : t) (T' : list Z) : t :=
  {| n := n s; nmask := nmask s; T := T' |}.

Definition allocate (m : Z) : t :=
  let n := Int.sub (Int.shl 1 m) 1 in
  let nmask := Int.shl 1 (Int.sub m 1) in
  {| n := n; nmask := nmask; T := filled (Int.add n 1) 0 |}.

Definition clear (s : t) : t := with_T s (filled (Int.add (n s) 1) 0).

Definition prefix_sum (s : t) (idx : Z) : res Z :=
  '(_, sum) <- while (budget idx)
      (fun '(idx, sum) => 1 <=? idx)
      (fun '(idx, sum) =>
         v <- rd (T s) idx ;;
         Ok (Int.sub idx (lowbit idx), Int64.add sum v))
      (idx, 0) ;;
  Ok sum.

Definition update (s : t) (idx : Z) (delta : Z) : res t :=
  '(_, T') <- while (budget (n s + 1 - idx))
      (fun '(idx, T) => idx <=? n s)
      (fun '(idx, T) =>
         v <- rd T idx ;;
         T' <- wr T idx (Int64.add v delta) ;;
         Ok (Int.add idx (lowbit idx), T'))
      (idx, T s) ;;
  Ok (with_T s T').

Definition construct (s : t) (a : list Z) : res t :=
  '(_, s') <- while (budget (n s))
      (fun '(i, s) => 1 <=? i)
      (fun '(i, s) =>
         T' <- wr (T s) i 0 ;;
         ai <- rd a i ;;
         s' <- update (with_T s T') i ai ;;
         Ok (Int.sub i 1, s'))
      (n s, s) ;;
  Ok s'.

(** The caller's array is modified: the result carries it back. *)
Definition fast_construct (s : t) (a : list Z) : res (t * list Z) :=
  a <- wr a 0 0 ;;
  '(_, a) <- while (budget (n s))
      (fun '(i, a) => i <=? n s)
      (fun '(i, a) =>
         x <- rd a i ;;
         y <- rd a (Int.sub i 1) ;;
         a' <- wr a i (Int64.add x y) ;;
         Ok (Int.add i 1, a'))
      (1, a) ;;
  '(_, T') <- while (budget (n s))
      (fun '(i, T) => i <=? n s)
      (fun '(i, T) =>
         let ii := Int.sub i (lowbit i) in
         ai <- rd a i ;;
         v <- (if ii =? 0 then Ok ai
               else aii <- rd a ii ;; Ok (Int64.sub ai aii)) ;;
         T' <- wr T i v ;;
         Ok (Int.add i 1, T'))
      (1, T s) ;;
  Ok (with_T s T', a).

Definition access (s : t) (idx : Z) : res Z :=
  if idx =? 1 then rd (T s) 1
  else
    p <- prefix_sum s idx ;;
    q <- prefix_sum s (Int.sub idx 1) ;;
    Ok (Int64.sub p q).

(** The two-pointer walk shared by [fast_access] and [fast_range_sum]. *)
Definition converge (s : t) (sum i j : Z) : res Z :=
  '(sum, _, _) <- while (budget (i + j))
      (fun '(sum, i, j) => negb (i =? j))
      (fun '(sum, i, j) =>
         if j <? i then
           v <- rd (T s) i ;;
           Ok (Int64.add sum v, Int.sub i (lowbit i), j)
         else
           v <- rd (T s) j ;;
           Ok (Int64.sub sum v, i, Int.sub j (lowbit j)))
      (sum, i, j) ;;
  Ok sum.

Definition fast_access (s : t) (idx : Z) : res Z :=
  sum <- rd (T s) idx ;;
  let i := Int.sub idx (lowbit idx) in
  let j := Int.sub idx 1 in
  converge s sum i j.

Fixpoint search_from (fuel : nat) (s : t) (val : Z) (i : Z) : res Z :=
  match fuel with
  | O => OutOfFuel
  | S f =>
      if i <=? n s then
        p <- prefix_sum s i ;;
        if val <=? p then Ok i else search_from f s val (Int.add i 1)
      else Ok (Int.add (n s) 1)
  end.

Definition search (s : t) (val : Z) : res Z :=
  search_from (budget (n s)) s val 1.

Definition fast_search (s : t) (val : Z) : res Z :=
  let val := Int64.sub val 1 in
  '(_, i, _) <- while (budget (nmask s))
      (fun '(val, i, mask) => negb (mask =? 0))
      (fun '(val, i, mask) =>
         let ii := Int.add i mask in
         let mask := Int.shr mask 1 in
         if n s <? ii then Ok (val, i, mask)
         else
           v <- rd (T s) ii ;;
           if v <=? val then Ok (Int64.sub val v, ii, mask)
           else Ok (val, i, mask))
      (val, 0, nmask s) ;;
  Ok (Int.add i 1).

Definition range_sum (s : t) (l r : Z) : res Z :=
  sum <- prefix_sum s r ;;
  if 1 <? l then
    q <- prefix_sum s (Int.sub l 1) ;;
    Ok (Int64.sub sum q)
  else Ok sum.

Definition fast_range_sum (s : t) (l r : Z) : res Z :=
  sum <- rd (T s) r ;;
  let i := Int.sub r (lowbit r) in
  let j := Int.sub l 1 in
  converge s sum i j.

Definition rupq_update (s : t) (l r : Z) (delta : Z) : res t :=
  s <- update s l delta ;;
  if r <? n s then update s (Int.add r 1) (Int64.neg delta)
  else Ok s.

Definition rupq_access (s : t) (idx : Z) : res Z := prefix_sum s idx.

End Fenwick.

(** ** fenwick_rurq.h *)

Module FenwickRURQ.

Record t : Type := mk { n : Z; T1 : Fenwick.t; T2 : Fenwick.t }.

Definition make (m : Z) : t :=
  let T1 := Fenwick.allocate m in
  let T2 := Fenwick.allocate m in
  {| n := Fenwick.n T1; T1 := T1; T2 := T2 |}.

Definition update (s : t) (l r : Z) (delta : Z) : res t :=
  t1 <- Fenwick.update (T1 s) l delta ;;
  t2 <- Fenwick.update (T2 s) l (Int64.mul delta (Int.sub l 1)) ;;
  if r <? n s then
    t1 <- Fenwick.update t1 (Int.add r 1) (Int64.neg delta) ;;
    t2 <- Fenwick.update t2 (Int.add r 1) (Int64.mul delta r) ;;
    Ok {| n := n s; T1 := t1; T2 := t2 |}
  else Ok {| n := n s; T1 := t1; T2 := t2 |}.

Definition prefix_sum (s : t) (idx : Z) : res Z :=
  p1 <- Fenwick.prefix_sum (T1 s) idx ;;
  p2 <- Fenwick.prefix_sum (T2 s) idx ;;
  Ok (Int64.sub (Int64.mul p1 idx) p2).

Definition range_sum (s : t) (l r : Z) : res Z :=
  sum <- prefix_sum s r ;;
  if 1 <? l then
    q <- prefix_sum s (Int.sub l 1) ;;
    Ok (Int64.sub sum q)
  else Ok sum.

End FenwickRURQ.

(** ** fenwick_2d.h *)

Module Fenwick2D.

Record t : Type := mk { n : Z; T : list Z }.

(** The flattened position [(n + 1) * yy + x]. *)
Definition pos (n x yy : Z) : Z := Int.add (Int.mul (Int.add n 1) yy) x.

Definition allocate (m : Z) : t :=
  let n := Int.sub (Int.shl 1 m) 1 in
  {| n := n; T := filled (Int.mul (Int.add n 1) (Int.add n 1)) 0 |}.

Definition clear (s : t) : t :=
  {| n := n s; T := filled (Int.mul (Int.add (n s) 1) (Int.add (n s) 1)) 0 |}.

Definition prefix_sum (s : t) (x y : Z) : res Z :=
  '(_, sum) <- while (budget x)
      (fun '(x, sum) => 1 <=? x)
      (fun '(x, sum) =>
         let yy := y in
         '(_, sum) <- while (budget yy)
             (fun '(yy, sum) => 1 <=? yy)
             (fun '(yy, sum) =>
                v <- rd (T s) (pos (n s) x yy) ;;
                Ok (Int.sub yy (lowbit yy), Int64.add sum v))
             (yy, sum) ;;
         Ok (Int.sub x (lowbit x), sum))
      (x, 0) ;;
  Ok sum.

Definition update (s : t) (x y : Z) (delta : Z) : res t :=
  '(_, T') <- while (budget (n s + 1 - x))
      (fun '(x, T) => x <=? n s)
      (fun '(x, T) =>
         let yy := y in
         '(_, T') <- while (budget (n s + 1 - yy))
             (fun '(yy, T) => yy <=? n s)
             (fun '(yy, T) =>
                v <- rd T (pos (n s) x yy) ;;
                T' <- wr T (pos (n s) x yy) (Int64.add v delta) ;;
                Ok (Int.add yy (lowbit yy), T'))
             (yy, T) ;;
         Ok (Int.add x (lowbit x), T'))
      (x, T s) ;;
  Ok {| n := n s; T := T' |}.

Definition range_sum (s : t) (x1 y1 x2 y2 : Z) : res Z :=
  sum <- prefix_sum s x2 y2 ;;
  sum <- (if 1 <? x1 then
            p <- prefix_sum s (Int.sub x1 1) y2 ;; Ok (Int64.sub sum p)
          else Ok sum) ;;
  sum <- (if 1 <? y1 then
            p <- prefix_sum s x2 (Int.sub y1 1) ;; Ok (Int64.sub sum p)
          else Ok sum) ;;
  if (1 <? x1) && (1 <? y1) then
    p <- prefix_sum s (Int.sub x1 1) (Int.sub y1 1) ;; Ok (Int64.add sum p)
  else Ok sum.

End Fenwick2D.

(** ** fenwick_rmq.h *)

Module FenwickRMQ.

Record t : Type := mk { n : Z; a : list Z; lbit : list Z; rbit : list Z }.

Definition make (n : Z) : t :=
  {| n := n;
     a := filled (Int.add n 1) INT_MAX;
     lbit := filled (Int.add n 1) INT_MAX;
     rbit := filled (Int.add n 1) INT_MAX |}.

Definition query (s : t) (from to : Z) : res Z :=
  if from <? 1 then Ok INT_MAX
  else if n s <? to then Ok INT_MAX
  else if to <? from then Ok INT_MAX
  else
    let res := INT_MAX in
    (* Climb rbit. *)
    let i := from in
    let ii := Int.add i (lowbit i) in
    '(res, i, _) <- while (budget (n s + 1 - i))
        (fun '(res, i, ii) => (i <=? n s) && (Int.sub ii 1 <=? to))
        (fun '(res, i, ii) =>
           v <- rd (rbit s) i ;;
           let i := ii in
           Ok (Z.min res v, i, Int.add i (lowbit i)))
        (res, i, ii) ;;
    res <- (if i <=? to then v <- rd (a s) i ;; Ok (Z.min res v) else Ok res) ;;
    (* Climb lbit. *)
    let i := to in
    let ii := Int.sub i (lowbit i) in
    '(res, i, _) <- while (budget i)
        (fun '(res, i, ii) => (1 <=? i) && (from <=? Int.add ii 1))
        (fun '(res, i, ii) =>
           v <- rd (lbit s) i ;;
           let i := ii in
           Ok (Z.min res v, i, Int.sub i (lowbit i)))
        (res, i, ii) ;;
    res <- (if from <=? i then v <- rd (a s) i ;; Ok (Z.min res v) else Ok res) ;;
    Ok res.

(** The locals [lr, ll, lmin, rl, rr, rmin] of [update]. *)
Record sides : Type :=
  mk_sides { lr : Z; ll : Z; lmin : Z; rl : Z; rr : Z; rmin : Z }.

Definition SIDES_INIT (idx : Z) : sides :=
  let lr := Int.sub idx 1 in
  let ll := Int.sub lr (lowbit lr) in
  let lmin := INT_MAX in
  let rl := Int.add idx 1 in
  let rr := Int.add rl (lowbit rl) in
  let rmin := INT_MAX in
  {| lr := lr; ll := ll; lmin := lmin; rl := rl; rr := rr; rmin := rmin |}.

Definition SIDES_UPDATE (n : Z) (a lbit rbit : list Z) (l r : Z) (sd : sides)
  : res sides :=
  '(lr, ll, lmin) <- while (budget (lr sd))
      (fun '(lr, ll, lmin) => (1 <=? lr) && (l <=? Int.add ll 1))
      (fun '(lr, ll, lmin) =>
         v <- rd lbit lr ;;
         let lr := ll in
         Ok (lr, Int.sub lr (lowbit lr), Z.min lmin v))
      (lr sd, ll sd, lmin sd) ;;
  lmin <- (if l <=? lr then v <- rd a lr ;; Ok (Z.min lmin v) else Ok lmin) ;;
  '(rl, rr, rmin) <- while (budget (n + 1 - rl sd))
      (fun '(rl, rr, rmin) => (rl <=? n) && (Int.sub rr 1 <=? r))
      (fun '(rl, rr, rmin) =>
         v <- rd rbit rl ;;
         let rl := rr in
         Ok (rl, Int.add rl (lowbit rl), Z.min rmin v))
      (rl sd, rr sd, rmin sd) ;;
  rmin <- (if rl <=? Z.min n r then v <- rd a rl ;; Ok (Z.min rmin v) else Ok rmin) ;;
  Ok {| lr := lr; ll := ll; lmin := lmin; rl := rl; rr := rr; rmin := rmin |}.

Definition update (s : t) (idx val : Z) : res t :=
  old <- rd (a s) idx ;;
  if old =? val then Ok s
  else
    (* Update lbit. *)
    let r := idx in
    let l := Int.add (Int.sub r (lowbit r)) 1 in
    '(lbit', _, _, _) <- while (budget (n s + 1 - r))
        (fun '(lbit, r, l, sd) => r <=? n s)
        (fun '(lbit, r, l, sd) =>
           cur <- rd lbit r ;;
           '(lbit, sd) <-
             (if val <=? cur then
                lbit <- wr lbit r val ;; Ok (lbit, sd)
              else if cur =? old then
                sd <- SIDES_UPDATE (n s) (a s) lbit (rbit s) l r sd ;;
                lbit <- wr lbit r (Z.min val (Z.min (lmin sd) (rmin sd))) ;;
                Ok (lbit, sd)
              else Ok (lbit, sd)) ;;
           let r := Int.add r (lowbit r) in
           let l := Int.add (Int.sub r (lowbit r)) 1 in
           Ok (lbit, r, l, sd))
        (lbit s, r, l, SIDES_INIT idx) ;;
    (* Update rbit. *)
    let l := idx in
    let r := Int.sub (Int.add l (lowbit l)) 1 in
    '(rbit', _, _, _) <- while (budget l)
        (fun '(rbit, l, r, sd) => 1 <=? l)
        (fun '(rbit, l, r, sd) =>
           cur <- rd rbit l ;;
           '(rbit, sd) <-
             (if val <=? cur then
                rbit <- wr rbit l val ;; Ok (rbit, sd)
              else if cur =? old then
                sd <- SIDES_UPDATE (n s) (a s) lbit' rbit l r sd ;;
                rbit <- wr rbit l (Z.min val (Z.min (lmin sd) (rmin sd))) ;;
                Ok (rbit, sd)
              else Ok (rbit, sd)) ;;
           let l := Int.sub l (lowbit l) in
           let r := Int.sub (Int.add l (lowbit l)) 1 in
           Ok (rbit, l, r, sd))
        (rbit s, l, r, SIDES_INIT idx) ;;
    (* Update the array. *)
    a' <- wr (a s) idx val ;;
    Ok {| n := n s; a := a'; lbit := lbit'; rbit := rbit' |}.

(** A call of the public interface, and what it returns. *)
Inductive call : Type :=
| Update (idx val : Z)
| Query (from to : Z).

Definition step (s : t) (c : call) : res (t * option Z) :=
  match c with
  | Update idx val => s' <- update s idx val ;; Ok (s', None)
  | Query from to => v <- query s from to ;; Ok (s, Some v)
  end.

End FenwickRMQ.

(** ** Vocabulary of the specifications *)

(** The lowest set bit on unbounded integers. *)
Definition lb (i : Z) : Z := Z.land i (- i).

(** The indices [lo, lo + 1, ..., hi]. *)
Definition range (lo hi : Z) : list Z :=
  map (fun k => lo + Z.of_nat k) (seq 0 (Z.to_nat (hi + 1 - lo))).

(** Direct scans of [f] over [lo .. hi]: the exact sum, the sum accumulated
    in an [int64_t], and the minimum accumulated from [INT_MAX]. *)
Definition isum (f : Z -> Z) (lo hi : Z) : Z :=
  fold_left (fun acc j => acc + f j) (range lo hi) 0.

Definition sum64 (f : Z -> Z) (lo hi : Z) : Z :=
  fold_left (fun acc j => Int64.add acc (f j)) (range lo hi) 0.

Definition minr (f : Z -> Z) (lo hi : Z) : Z :=
  fold_left (fun acc j => Z.min acc (f j)) (range lo hi) INT_MAX.

(** Congruence modulo 2^64. *)
Definition eqm (x y : Z) : Prop := x mod Int64.modulus = y mod Int64.modulus.

(** The structure sizes for which [int] index arithmetic cannot overflow:
    the climbs compute [i + (i & -i)] for [i <= n]. *)
Definition max_size : Z := 1073741823.

(** ** Fenwick trees and the arrays they store *)

(** [idx] lies in the block [(k - lb k, k]] summarised by node [k]. *)
Definition in_block (k idx : Z) : bool := (k - lb k <? idx) && (idx <=? k).

(** The tree [s] stores the array [f]: node [i] holds the [int64_t] sum of
    [f] over [(i - lb i, i]]. *)
Definition stores (s : Fenwick.t) (f : Z -> Z) : Prop :=
  Z.of_nat (length (Fenwick.T s)) = Fenwick.n s + 1 /\
  forall i, 1 <= i <= Fenwick.n s ->
            get (Fenwick.T s) i = Int64.wrap (isum f (i - lb i + 1) i).

(** A tree of order [m] as [allocate] sizes it. *)
Definition order (s : Fenwick.t) (m : Z) : Prop :=
  1 <= m <= 30 /\ Fenwick.n s = 2 ^ m - 1 /\ Fenwick.nmask s = 2 ^ (m - 1).

(** Every element of [a] is an [int64_t]. *)
Definition int64s (a : list Z) : Prop := Forall Int64.in_range a.

(** [k] is the first position whose prefix value [P k] reaches [val], or
    [n + 1] when none does. *)
Definition first_reaching (P : Z -> Z) (n val k : Z) : Prop :=
  1 <= k <= n + 1 /\ (forall j, 1 <= j < k -> P j < val) /\ (k <= n -> val <= P k).

(** The calls that modify a tree, and the logical array each one implies. *)
Inductive mutation : Type :=
| Update (idx delta : Z)
| Construct (a : list Z)
| FastConstruct (a : list Z)
| Clear.

Definition mutate (s : Fenwick.t) (c : mutation) : res Fenwick.t :=
  match c with
  | Update idx delta => Fenwick.update s idx delta
  | Construct a => Fenwick.construct s a
  | FastConstruct a => bind (Fenwick.fast_construct s a) (fun r => Ok (fst r))
  | Clear => Ok (Fenwick.clear s)
  end.

Fixpoint mutate_all (s : Fenwick.t) (cs : list mutation) : res Fenwick.t :=
  match cs with
  | [] => Ok s
  | c :: cs => bind (mutate s c) (fun s' => mutate_all s' cs)
  end.

Definition implied (n : Z) (a : list Z) (c : mutation) : list Z :=
  match c with
  | Update idx delta => set a idx (Int64.add (get a idx) delta)
  | Construct b => b
  | FastConstruct b => b
  | Clear => filled (n + 1) 0
  end.

Definition implied_array (n : Z) (cs : list mutation) : list Z :=
  fold_left (implied n) cs (filled (n + 1) 0).

Definition valid_mutation (n : Z) (c : mutation) : Prop :=
  match c with
  | Update idx delta => 1 <= idx <= n
  | Construct a => Z.of_nat (length a) = n + 1
  | FastConstruct a => Z.of_nat (length a) = n + 1
  | Clear => True
  end.

Definition point_updates (ups : list (Z * Z)) : list mutation :=
  map (fun u => Update (fst u) (snd u)) ups.

(** Range updates [(l, r, delta)] driven through [rupq_update]. *)
Fixpoint rupq_updates (s : Fenwick.t) (ups : list (Z * Z * Z)) : res Fenwick.t :=
  match ups with
  | [] => Ok s
  | (l, r, delta) :: ups =>
      bind (Fenwick.rupq_update s l r delta) (fun s' => rupq_updates s' ups)
  end.

(** The deltas of the updates whose range holds [idx]. *)
Definition covering (ups : list (Z * Z * Z)) (idx : Z) : list Z :=
  map snd (filter (fun u => (fst (fst u) <=? idx) && (idx <=? snd (fst u))) ups).

Definition total64 (ds : list Z) : Z := fold_left Int64.add ds 0.

Definition valid_range (n : Z) (u : Z * Z * Z) : Prop :=
  1 <= fst (fst u) <= snd (fst u) /\ snd (fst u) <= n.

Definition zsum (ds : list Z) : Z := fold_right Z.add 0 ds.

(** The brute-force simulation of range updates: [delta] is added to every
    slot of [l .. r] of an array. *)
Definition range_add (a : list Z) (l r delta : Z) : list Z :=
  fold_left (fun a x => set a x (Int64.add (get a x) delta)) (range l r) a.

Definition range_adds (a : list Z) (ups : list (Z * Z * Z)) : list Z :=
  fold_left (fun a u => range_add a (fst (fst u)) (snd (fst u)) (snd u)) ups a.

Fixpoint rurq_updates (s : FenwickRURQ.t) (ups : list (Z * Z * Z)) : res FenwickRURQ.t :=
  match ups with
  | [] => Ok s
  | (l, r, delta) :: ups =>
      bind (FenwickRURQ.update s l r delta) (fun s' => rurq_updates s' ups)
  end.

(** ** The grid *)

(** The grid [s] stores [g]: cell [(x, y)] holds the [int64_t] sum of [g]
    over the rectangle of the two blocks. *)
Definition stores2 (s : Fenwick2D.t) (g : Z -> Z -> Z) : Prop :=
  Z.of_nat (length (Fenwick2D.T s)) = (Fenwick2D.n s + 1) * (Fenwick2D.n s + 1) /\
  forall x y, 1 <= x <= Fenwick2D.n s -> 1 <= y <= Fenwick2D.n s ->
              get (Fenwick2D.T s) ((Fenwick2D.n s + 1) * y + x)
              = Int64.wrap (isum (fun i => isum (g i) (y - lb y + 1) y) (x - lb x + 1) x).

(** The sizes for which the flattened position [(n + 1) * yy + x] fits an
    [int]. *)
Definition max_size2 : Z := 32767.

Fixpoint grid_updates (s : Fenwick2D.t) (ups : list (Z * Z * Z)) : res Fenwick2D.t :=
  match ups with
  | [] => Ok s
  | (x, y, delta) :: ups =>
      bind (Fenwick2D.update s x y delta) (fun s' => grid_updates s' ups)
  end.

(** The brute-force grid: a point update adds [delta] to one cell. *)
Definition grid_add (g : Z -> Z -> Z) (u : Z * Z * Z) : Z -> Z -> Z :=
  fun i j => if (i =? fst (fst u)) && (j =? snd (fst u))
             then Int64.add (g i j) (snd u) else g i j.

Definition grid_after (ups : list (Z * Z * Z)) : Z -> Z -> Z :=
  fold_left grid_add ups (fun _ _ => 0).

Definition valid_cell (n : Z) (u : Z * Z * Z) : Prop :=
  1 <= fst (fst u) <= n /\ 1 <= snd (fst u) <= n.

(** The double sum over [x1 .. x2] x [y1 .. y2], accumulated in [int64_t]. *)
Definition rect64 (g : Z -> Z -> Z) (x1 y1 x2 y2 : Z) : Z :=
  sum64 (fun i => sum64 (g i) y1 y2) x1 x2.

(** ** The range-minimum structure *)

(** Both trees of [s] agree with its array: [lbit[i]] is the minimum over
    [(i - lb i, i]], [rbit[i]] the minimum over [[i, i + lb i)] cut at [n]. *)
Definition rmq_inv (s : FenwickRMQ.t) : Prop :=
  Z.of_nat (length (FenwickRMQ.a s)) = FenwickRMQ.n s + 1 /\
  Z.of_nat (length (FenwickRMQ.lbit s)) = FenwickRMQ.n s + 1 /\
  Z.of_nat (length (FenwickRMQ.rbit s)) = FenwickRMQ.n s + 1 /\
  forall i, 1 <= i <= FenwickRMQ.n s ->
            get (FenwickRMQ.lbit s) i = minr (get (FenwickRMQ.a s)) (i - lb i + 1) i /\
            get (FenwickRMQ.rbit s) i
            = minr (get (FenwickRMQ.a s)) i (Z.min (FenwickRMQ.n s) (i + lb i - 1)).

(** What the locals of [update] hold between two node repairs around
    [idx]: the left cursor has covered [L .. idx - 1], the right cursor
    [idx + 1 .. R]. *)
Definition sides_left (f : Z -> Z) (idx l : Z) (sd : FenwickRMQ.sides) : Prop :=
  0 <= FenwickRMQ.lr sd <= idx - 1 /\ l - 1 <= FenwickRMQ.lr sd /\
  FenwickRMQ.ll sd = Int.sub (FenwickRMQ.lr sd) (lowbit (FenwickRMQ.lr sd)) /\
  exists L, (L = FenwickRMQ.lr sd + 1 \/ (L = FenwickRMQ.lr sd /\ l <= FenwickRMQ.lr sd)) /\
            FenwickRMQ.lmin sd = minr f L (idx - 1).

Definition sides_right (f : Z -> Z) (idx n r : Z) (sd : FenwickRMQ.sides) : Prop :=
  idx + 1 <= FenwickRMQ.rl sd <= r + 1 /\
  FenwickRMQ.rr sd = Int.add (FenwickRMQ.rl sd) (lowbit (FenwickRMQ.rl sd)) /\
  exists R, (R = Z.min n (FenwickRMQ.rl sd - 1)
             \/ (R = FenwickRMQ.rl sd /\ FenwickRMQ.rl sd <= Z.min n r)) /\
            FenwickRMQ.rmin sd = minr f (idx + 1) R.

(** The minimum of [a[from .. to]] by a linear scan from [a[from]]. *)
Definition scan_min (a : list Z) (from to : Z) : Z :=
  fold_left (fun acc j => Z.min acc (get a j)) (range (from + 1) to) (get a from).

(** The values the queries of a call sequence return. *)
Fixpoint outputs (s : FenwickRMQ.t) (cs : list FenwickRMQ.call) : res (list Z) :=
  match cs with
  | [] => Ok []
  | c :: cs =>
      bind (FenwickRMQ.step s c) (fun r =>
      bind (outputs (fst r) cs) (fun os =>
      Ok (match snd r with Some v => v :: os | None => os end)))
  end.

(** The same calls on a shadow array: an update stores the value, a query
    scans the range. *)
Fixpoint shadow_outputs (a : list Z) (cs : list FenwickRMQ.call) : list Z :=
  match cs with
  | [] => []
  | FenwickRMQ.Update idx val :: cs => shadow_outputs (set a idx val) cs
  | FenwickRMQ.Query from to :: cs => scan_min a from to :: shadow_outputs a cs
  end.

Definition valid_call (n : Z) (c : FenwickRMQ.call) : Prop :=
  match c with
  | FenwickRMQ.Update idx val => 1 <= idx <= n /\ Int.in_range val
  | FenwickRMQ.Query from to => 1 <= from <= to /\ to <= n
  end.

(** ** Further vocabulary *)

(** The state a call sequence leaves, and the shadow array beside it. *)
Fixpoint run_calls (s : FenwickRMQ.t) (cs : list FenwickRMQ.call) : res FenwickRMQ.t :=
  match cs with
  | [] => Ok s
  | c :: cs => bind (FenwickRMQ.step s c) (fun r => run_calls (fst r) cs)
  end.

Fixpoint shadow_array (a : list Z) (cs : list FenwickRMQ.call) : list Z :=
  match cs with
  | [] => a
  | FenwickRMQ.Update idx val :: cs => shadow_array (set a idx val) cs
  | FenwickRMQ.Query _ _ :: cs => shadow_array a cs
  end.

(** What one range update [(l, r, delta)] contributes to the value that
    [FenwickRURQ.prefix_sum idx] computes. *)
Definition rurq_term (u : Z * Z * Z) (idx : Z) : Z :=
  let l := fst (fst u) in
  let r := snd (fst u) in
  let delta := snd u in
  if idx <? l then 0
  else if idx <=? r then delta * (idx - l + 1)
  else - (delta * (l - 1 + r)).

Definition rurq_value (ups : list (Z * Z * Z)) (idx : Z) : Z :=
  zsum (map (fun u => rurq_term u idx) ups).

(** The arrays handed to [construct] and [fast_construct] hold [int64_t]
    values. *)
Definition typed_mutation (c : mutation) : Prop :=
  match c with
  | Construct a => int64s a
  | FastConstruct a => int64s a
  | _ => True
  end.

#[global] Arguments Int.wrap : simpl never.
#[global] Arguments Int.add : simpl never.
#[global] Arguments Int.sub : simpl never.
#[global] Arguments Int.mul : simpl never.
#[global] Arguments Int.neg : simpl never.
#[global] Arguments Int.shl : simpl never.
#[global] Arguments Int.shr : simpl never.
#[global] Arguments Int64.wrap : simpl never.
#[global] Arguments Int64.add : simpl never.
#[global] Arguments Int64.sub : simpl never.
#[global] Arguments Int64.mul : simpl never.
#[global] Arguments Int64.neg : simpl never.
#[global] Arguments lowbit : simpl never.
#[global] Arguments lb : simpl never.
#[global] Arguments isum : simpl never.
#[global] Arguments sum64 : simpl never.
#[global] Arguments minr : simpl never.
#[global] Arguments budget : simpl never.
#[global] Arguments get : simpl never.
#[global] Arguments set : simpl never.
#[global] Arguments Z.to_nat : simpl never.
#[global] Arguments Z.of_nat : simpl never.

(** * Machine integers *)

Lemma Int_wrap_small z : Int.in_range z -> Int.wrap z = z.
Proof.
  unfold Int.in_range, Int.wrap, Int.min_signed, Int.max_signed, Int.modulus.
  intros H. rewrite Z.mod_small by lia. lia.
Qed.

Lemma Int_add_small a b : Int.in_range (a + b) -> Int.add a b = a + b.
Proof. apply Int_wrap_small. Qed.

Lemma Int_sub_small a b : Int.in_range (a - b) -> Int.sub a b = a - b.
Proof. apply Int_wrap_small. Qed.

Lemma Int_mul_small a b : Int.in_range (a * b) -> Int.mul a b = a * b.
Proof. apply Int_wrap_small. Qed.

Lemma Int_neg_small a : Int.in_range (- a) -> Int.neg a = - a.
Proof. apply Int_wrap_small. Qed.

Lemma Int_in_range_iff z : Int.in_range z <-> -2147483648 <= z <= 2147483647.
Proof. reflexivity. Qed.

Lemma Int64_wrap_range z : Int64.in_range (Int64.wrap z).
Proof.
  unfold Int64.in_range, Int64.wrap, Int64.min_signed, Int64.max_signed, Int64.modulus.
  pose proof (Z.mod_pos_bound (z - -9223372036854775808) 18446744073709551616).
  lia.
Qed.

Lemma Int64_wrap_small z : Int64.in_range z -> Int64.wrap z = z.
Proof.
  unfold Int64.in_range, Int64.wrap, Int64.min_signed, Int64.max_signed, Int64.modulus.
  intros H. rewrite Z.mod_small by lia. lia.
Qed.

Lemma Int64_in_range_iff z :
  Int64.in_range z <-> -9223372036854775808 <= z <= 9223372036854775807.
Proof. reflexivity. Qed.

Lemma eqm_wrap z : eqm (Int64.wrap z) z.
Proof.
  unfold eqm, Int64.wrap, Int64.min_signed, Int64.modulus.
  rewrite <- (Z.add_mod_idemp_l ((z - -9223372036854775808) mod 18446744073709551616)) by lia.
  rewrite Z.mod_mod by lia.
  rewrite Z.add_mod_idemp_l by lia.
  f_equal. lia.
Qed.

Lemma wrap_eqm x y : eqm x y -> Int64.wrap x = Int64.wrap y.
Proof.
  unfold eqm, Int64.wrap, Int64.min_signed, Int64.modulus. intros H.
  f_equal.
  rewrite <- (Zminus_mod_idemp_l x), <- (Zminus_mod_idemp_l y), H.
  reflexivity.
Qed.

#[export] Instance eqm_equiv : Equivalence eqm.
Proof.
  unfold eqm. split.
  - intros x. reflexivity.
  - intros x y H. symmetry. exact H.
  - intros x y z H1 H2. congruence.
Qed.

Lemma eq_eqm x y : x = y -> eqm x y.
Proof. intros ->. reflexivity. Qed.

#[export] Instance eqm_add : Proper (eqm ==> eqm ==> eqm) Z.add.
Proof.
  unfold eqm. intros x x' Hx y y' Hy.
  rewrite (Z.add_mod x), (Z.add_mod x') by (unfold Int64.modulus; lia).
  rewrite Hx, Hy. reflexivity.
Qed.

#[export] Instance eqm_sub : Proper (eqm ==> eqm ==> eqm) Z.sub.
Proof.
  unfold eqm. intros x x' Hx y y' Hy.
  rewrite (Zminus_mod x), (Zminus_mod x'), Hx, Hy. reflexivity.
Qed.

#[export] Instance eqm_mul : Proper (eqm ==> eqm ==> eqm) Z.mul.
Proof.
  unfold eqm. intros x x' Hx y y' Hy.
  rewrite (Z.mul_mod x), (Z.mul_mod x') by (unfold Int64.modulus; lia).
  rewrite Hx, Hy. reflexivity.
Qed.

#[export] Instance eqm_opp : Proper (eqm ==> eqm) Z.opp.
Proof.
  intros x x' Hx. change (- x) with (0 - x). change (- x') with (0 - x').
  rewrite Hx. reflexivity.
Qed.

#[export] Instance wrap_proper : Proper (eqm ==> eq) Int64.wrap.
Proof. intros x y H. apply wrap_eqm, H. Qed.

Lemma eqm_in_range x y : eqm x y -> Int64.in_range x -> Int64.in_range y -> x = y.
Proof.
  intros H Hx Hy. apply wrap_eqm in H.
  rewrite !Int64_wrap_small in H; assumption.
Qed.

(** Strip the inner wraps of an [int64_t] expression. *)
Ltac wrap64 :=
  unfold Int64.add, Int64.sub, Int64.mul, Int64.neg;
  apply wrap_eqm; rewrite ?eqm_wrap.

Lemma add64_wrap_l x y : Int64.add (Int64.wrap x) y = Int64.wrap (x + y).
Proof. wrap64. reflexivity. Qed.

Lemma add64_wrap_r x y : Int64.add x (Int64.wrap y) = Int64.wrap (x + y).
Proof. wrap64. reflexivity. Qed.

Lemma sub64_wrap x y : Int64.sub (Int64.wrap x) (Int64.wrap y) = Int64.wrap (x - y).
Proof. wrap64. reflexivity. Qed.

Lemma add64_in_range x y : Int64.in_range (Int64.add x y).
Proof. apply Int64_wrap_range. Qed.

(** * Results and loops *)

Lemma bind_Ok {A B} (m : res A) (f : A -> res B) (a : A) :
  m = Ok a -> bind m f = f a.
Proof. intros ->. reflexivity. Qed.

(** Total correctness of a loop: an invariant [I] kept by the body and a
    variant [mu] that the body decreases; a budget above the variant is
    never exhausted. *)
Lemma while_rule {S : Type} (I : S -> Prop) (mu : S -> nat)
      (cond : S -> bool) (body : S -> res S) :
  (forall s, I s -> cond s = true ->
             exists s', body s = Ok s' /\ I s' /\ (mu s' < mu s)%nat) ->
  forall fuel s, I s -> (mu s < fuel)%nat ->
                 exists s', while fuel cond body s = Ok s' /\ I s' /\ cond s' = false.
Proof.
  intros Hbody. induction fuel as [|fuel IH]; intros s Hs Hmu.
  - lia.
  - simpl. destruct (cond s) eqn:Hc.
    + destruct (Hbody s Hs Hc) as (s1 & Hb & Hs1 & Hdec).
      rewrite Hb. simpl. apply IH; [assumption | lia].
    + exists s. auto.
Qed.

(** * Arrays *)

Lemma in_bounds_true l i : 0 <= i < Z.of_nat (length l) -> in_bounds l i = true.
Proof. unfold in_bounds. intros. apply andb_true_intro. split; [apply Z.leb_le | apply Z.ltb_lt]; lia. Qed.

Lemma rd_ok l i : 0 <= i < Z.of_nat (length l) -> rd l i = Ok (get l i).
Proof. intros H. unfold rd. rewrite in_bounds_true by assumption. reflexivity. Qed.

Lemma wr_ok l i v : 0 <= i < Z.of_nat (length l) -> wr l i v = Ok (set l i v).
Proof. intros H. unfold wr. rewrite in_bounds_true by assumption. reflexivity. Qed.

Lemma length_set_nth k v l : length (set_nth k v l) = length l.
Proof.
  revert k. induction l as [|x l IH]; intros k; simpl; [reflexivity|].
  destruct k; simpl; [reflexivity | now rewrite IH].
Qed.

Lemma length_set l i v : length (set l i v) = length l.
Proof. apply length_set_nth. Qed.

Lemma nth_set_nth_same k v l d : (k < length l)%nat -> nth k (set_nth k v l) d = v.
Proof.
  revert k. induction l as [|x l IH]; intros k H; simpl in *; [lia|].
  destruct k; simpl; [reflexivity | apply IH; lia].
Qed.

Lemma nth_set_nth_other k k' v l d : k <> k' -> nth k' (set_nth k v l) d = nth k' l d.
Proof.
  revert k k'. induction l as [|x l IH]; intros k k' H; simpl; [reflexivity|].
  destruct k, k'; simpl; try reflexivity; try lia.
  apply IH. lia.
Qed.

Lemma get_set_same l i v : 0 <= i < Z.of_nat (length l) -> get (set l i v) i = v.
Proof. intros H. unfold get, set. apply nth_set_nth_same. lia. Qed.

Lemma get_set_other l i j v : 0 <= i -> 0 <= j -> i <> j -> get (set l i v) j = get l j.
Proof. intros Hi Hj H. unfold get, set. apply nth_set_nth_other. lia. Qed.

Lemma get_set l i j v :
  0 <= i < Z.of_nat (length l) -> 0 <= j ->
  get (set l i v) j = if j =? i then v else get l j.
Proof.
  intros Hi Hj. destruct (Z.eqb_spec j i) as [->|Hne].
  - apply get_set_same, Hi.
  - apply get_set_other; lia.
Qed.

Lemma length_filled k v : 0 <= k -> Z.of_nat (length (filled k v)) = k.
Proof. intros H. unfold filled. rewrite repeat_length. lia. Qed.

Lemma get_filled k v i : 0 <= i < k -> get (filled k v) i = v.
Proof.
  intros H. unfold get, filled. apply nth_repeat_lt. lia.
Qed.

(** * Scans over an index range *)

Lemma range_empty lo hi : hi < lo -> range lo hi = [].
Proof. intros H. unfold range. replace (Z.to_nat (hi + 1 - lo)) with O by lia. reflexivity. Qed.

Lemma range_snoc lo hi : lo <= hi -> range lo hi = range lo (hi - 1) ++ [hi].
Proof.
  intros H. unfold range.
  replace (Z.to_nat (hi + 1 - lo)) with (S (Z.to_nat (hi - 1 + 1 - lo))) by lia.
  rewrite seq_S, map_app. simpl. do 2 f_equal. lia.
Qed.

Lemma range_cons lo hi : lo <= hi -> range lo hi = lo :: range (lo + 1) hi.
Proof.
  intros H. unfold range.
  replace (Z.to_nat (hi + 1 - lo)) with (S (Z.to_nat (hi + 1 - (lo + 1)))) by lia.
  simpl. f_equal; [lia|].
  rewrite <- seq_shift, map_map. apply map_ext. intros k. lia.
Qed.

Lemma range_app lo mid hi :
  lo - 1 <= mid <= hi -> range lo hi = range lo mid ++ range (mid + 1) hi.
Proof.
  intros [H1 H2].
  assert (G : forall k lo, mid = lo - 1 + Z.of_nat k ->
                           range lo hi = range lo mid ++ range (mid + 1) hi).
  { clear lo H1. induction k as [|k IH]; intros lo Hk.
    - rewrite (range_empty lo mid) by lia. simpl. f_equal. lia.
    - rewrite (range_cons lo hi) by lia. rewrite (range_cons lo mid) by lia.
      simpl. f_equal. apply IH. lia. }
  apply (G (Z.to_nat (mid - lo + 1))). lia.
Qed.

Lemma in_range_iff j lo hi : In j (range lo hi) <-> lo <= j <= hi.
Proof.
  unfold range. rewrite in_map_iff. split.
  - intros (k & Hk & Hin). apply in_seq in Hin. lia.
  - intros H. exists (Z.to_nat (j - lo)). split; [lia|]. apply in_seq. lia.
Qed.

Section Folds.
Variable A : Type.
Variable op : A -> Z -> A.

Lemma fold_range_empty (z : A) lo hi : hi < lo -> fold_left op (range lo hi) z = z.
Proof. intros H. rewrite range_empty by assumption. reflexivity. Qed.

Lemma fold_range_snoc (z : A) lo hi :
  lo <= hi -> fold_left op (range lo hi) z = op (fold_left op (range lo (hi - 1)) z) hi.
Proof. intros H. rewrite range_snoc by assumption. rewrite fold_left_app. reflexivity. Qed.
End Folds.

(** ** Exact sums *)

Lemma isum_empty f lo hi : hi < lo -> isum f lo hi = 0.
Proof. apply fold_range_empty. Qed.

Lemma isum_snoc f lo hi : lo <= hi -> isum f lo hi = isum f lo (hi - 1) + f hi.
Proof. apply fold_range_snoc. Qed.

(** Induction on the upper end of a range. *)
Lemma range_ind (P : Z -> Prop) (lo : Z) :
  P (lo - 1) -> (forall hi, lo <= hi -> P (hi - 1) -> P hi) ->
  forall hi, lo - 1 <= hi -> P hi.
Proof.
  intros H0 HS hi Hhi.
  replace hi with (lo - 1 + Z.of_nat (Z.to_nat (hi - (lo - 1)))) by lia.
  induction (Z.to_nat (hi - (lo - 1))) as [|k IH].
  - replace (lo - 1 + Z.of_nat 0) with (lo - 1) by lia. exact H0.
  - apply HS; [lia|].
    replace (lo - 1 + Z.of_nat (S k) - 1) with (lo - 1 + Z.of_nat k) by lia. exact IH.
Qed.

Lemma isum_split f lo mid hi :
  lo - 1 <= mid <= hi -> isum f lo hi = isum f lo mid + isum f (mid + 1) hi.
Proof.
  intros [H1 H2]. pattern hi. apply range_ind with (lo := mid + 1); [| |lia].
  - replace (mid + 1 - 1) with mid by lia.
    rewrite (isum_empty f (mid + 1)) by lia. lia.
  - intros h Hh IH.
    rewrite (isum_snoc f lo h), (isum_snoc f (mid + 1) h) by lia.
    destruct (Z.eq_dec h (mid + 1)) as [->|Hne].
    + replace (mid + 1 - 1) with mid by lia. rewrite (isum_empty f (mid + 1) mid) by lia. lia.
    + rewrite IH by lia. lia.
Qed.

Lemma isum_single f i : isum f i i = f i.
Proof. rewrite isum_snoc by lia. rewrite isum_empty by lia. lia. Qed.

Lemma isum_eqm f g lo hi :
  (forall j, lo <= j <= hi -> eqm (f j) (g j)) -> eqm (isum f lo hi) (isum g lo hi).
Proof.
  destruct (Z_lt_ge_dec hi lo) as [Hlt|Hge].
  { intros _. rewrite !isum_empty by lia. reflexivity. }
  assert (Hhi : lo - 1 <= hi) by lia. clear Hge.
  pattern hi. apply range_ind with (lo := lo); [| |lia].
  - intros _. rewrite !isum_empty by lia. reflexivity.
  - intros h Hh IH Hfg. rewrite (isum_snoc f lo h), (isum_snoc g lo h) by lia.
    rewrite IH by (intros; apply Hfg; lia).
    rewrite (Hfg h) by lia. reflexivity.
Qed.

Lemma isum_ext f g lo hi :
  (forall j, lo <= j <= hi -> f j = g j) -> isum f lo hi = isum g lo hi.
Proof.
  destruct (Z_lt_ge_dec hi lo) as [Hlt|Hge].
  { intros _. rewrite !isum_empty by lia. reflexivity. }
  assert (Hhi : lo - 1 <= hi) by lia. clear Hge.
  pattern hi. apply range_ind with (lo := lo); [| |lia].
  - intros _. rewrite !isum_empty by lia. reflexivity.
  - intros h Hh IH Hfg. rewrite (isum_snoc f lo h), (isum_snoc g lo h) by lia.
    rewrite IH by (intros; apply Hfg; lia).
    rewrite (Hfg h) by lia. reflexivity.
Qed.

Lemma isum_const0 lo hi : isum (fun _ => 0) lo hi = 0.
Proof.
  destruct (Z_lt_ge_dec hi lo) as [Hlt|Hge].
  { apply isum_empty. lia. }
  assert (Hhi : lo - 1 <= hi) by lia. clear Hge.
  pattern hi. apply range_ind with (lo := lo); [| |lia].
  - apply isum_empty. lia.
  - intros h Hh IH. rewrite isum_snoc by lia. rewrite IH by lia. lia.
Qed.

(** A point update of [f] moves the sum by [d] when the point is in range. *)
Lemma isum_upd f idx d lo hi :
  isum (fun j => if j =? idx then f j + d else f j) lo hi
  = isum f lo hi + (if (lo <=? idx) && (idx <=? hi) then d else 0).
Proof.
  destruct (Z_lt_ge_dec hi lo) as [Hlt|Hge].
  { rewrite !isum_empty by lia.
    destruct (Z.leb_spec lo idx), (Z.leb_spec idx hi); simpl; lia. }
  assert (Hhi : lo - 1 <= hi) by lia. clear Hge.
  pattern hi. apply range_ind with (lo := lo); [| |lia].
  - rewrite !isum_empty by lia.
    destruct (Z.leb_spec lo idx), (Z.leb_spec idx (lo - 1)); simpl; lia.
  - intros h Hh IH. rewrite (isum_snoc _ lo h), (isum_snoc f lo h) by lia. rewrite IH by lia.
    destruct (Z.eqb_spec h idx), (Z.leb_spec lo idx), (Z.leb_spec idx h),
      (Z.leb_spec idx (h - 1)); simpl; lia.
Qed.

Lemma sum64_wrap f lo hi : sum64 f lo hi = Int64.wrap (isum f lo hi).
Proof.
  destruct (Z_lt_ge_dec hi lo) as [Hlt|Hge].
  { unfold sum64, isum. rewrite !fold_range_empty by lia. reflexivity. }
  assert (Hhi : lo - 1 <= hi) by lia. clear Hge.
  pattern hi. apply range_ind with (lo := lo); [| |lia].
  - unfold sum64, isum. rewrite !fold_range_empty by lia. reflexivity.
  - intros h Hh IH. unfold sum64, isum in *.
    rewrite (fold_range_snoc _ _ 0 lo h), (fold_range_snoc _ _ 0 lo h) by lia. rewrite IH by lia.
    apply add64_wrap_l.
Qed.

(** ** Minima *)

Lemma minr_empty f lo hi : hi < lo -> minr f lo hi = INT_MAX.
Proof. apply fold_range_empty. Qed.

Lemma minr_snoc f lo hi : lo <= hi -> minr f lo hi = Z.min (minr f lo (hi - 1)) (f hi).
Proof. apply fold_range_snoc. Qed.

Lemma minr_le_max f lo hi : minr f lo hi <= INT_MAX.
Proof.
  destruct (Z_lt_ge_dec hi lo) as [Hlt|Hge].
  { rewrite minr_empty by lia. lia. }
  assert (Hhi : lo - 1 <= hi) by lia. clear Hge.
  pattern hi. apply range_ind with (lo := lo); [| |lia].
  - rewrite minr_empty by lia. lia.
  - intros h Hh IH. rewrite minr_snoc by lia. lia.
Qed.

Lemma minr_split f lo mid hi :
  lo - 1 <= mid <= hi -> minr f lo hi = Z.min (minr f lo mid) (minr f (mid + 1) hi).
Proof.
  intros [H1 H2]. pattern hi. apply range_ind with (lo := mid + 1); [| |lia].
  - replace (mid + 1 - 1) with mid by lia.
    rewrite (minr_empty f (mid + 1)) by lia. pose proof (minr_le_max f lo mid). lia.
  - intros h Hh IH.
    rewrite (minr_snoc f lo h), (minr_snoc f (mid + 1) h) by lia.
    destruct (Z.eq_dec h (mid + 1)) as [->|Hne].
    + replace (mid + 1 - 1) with mid by lia.
      rewrite (minr_empty f (mid + 1) mid) by lia. pose proof (minr_le_max f lo mid). lia.
    + rewrite IH by lia. lia.
Qed.

Lemma minr_single f i : minr f i i = Z.min INT_MAX (f i).
Proof. rewrite minr_snoc by lia. rewrite minr_empty by lia. reflexivity. Qed.

Lemma minr_ext f g lo hi :
  (forall j, lo <= j <= hi -> f j = g j) -> minr f lo hi = minr g lo hi.
Proof.
  destruct (Z_lt_ge_dec hi lo) as [Hlt|Hge].
  { intros _. rewrite !minr_empty by lia. reflexivity. }
  assert (Hhi : lo - 1 <= hi) by lia. clear Hge.
  pattern hi. apply range_ind with (lo := lo); [| |lia].
  - intros _. rewrite !minr_empty by lia. reflexivity.
  - intros h Hh IH Hfg. rewrite (minr_snoc f lo h), (minr_snoc g lo h) by lia.
    rewrite IH by (intros; apply Hfg; lia).
    rewrite (Hfg h) by lia. reflexivity.
Qed.

(** A scan over a larger range is no larger. *)
Lemma minr_mono f lo hi lo' hi' :
  lo <= lo' -> hi' <= hi -> minr f lo hi <= minr f lo' hi'.
Proof.
  intros H1 H2.
  destruct (Z_lt_ge_dec hi' lo') as [Hlt|Hge].
  { rewrite (minr_empty f lo' hi') by lia. apply minr_le_max. }
  rewrite (minr_split f lo (lo' - 1) hi) by lia.
  replace (lo' - 1 + 1) with lo' by lia.
  rewrite (minr_split f lo' hi' hi) by lia. lia.
Qed.

(** * The lowest set bit *)

Lemma lb_0 : lb 0 = 0.
Proof. reflexivity. Qed.

Lemma lb_double x : lb (2 * x) = 2 * lb x.
Proof.
  assert (D : forall y, 2 * y = Z.shiftl y 1).
  { intros y. rewrite Z.shiftl_mul_pow2 by lia. change (2 ^ 1) with 2. lia. }
  unfold lb. replace (- (2 * x)) with (2 * - x) by lia.
  rewrite !D. symmetry. apply Z.shiftl_land.
Qed.

Lemma land_odd_odd a b : Z.land (2 * a + 1) (2 * b + 1) = 2 * Z.land a b + 1.
Proof.
  apply Z.bits_inj'. intros k Hk. rewrite Z.land_spec.
  destruct (Z.eq_dec k 0) as [->|Hne].
  - rewrite !Z.testbit_odd_0. reflexivity.
  - replace k with (Z.succ (k - 1)) by lia.
    rewrite !Z.testbit_odd_succ by lia. symmetry. apply Z.land_spec.
Qed.

Lemma lb_odd x : lb (2 * x + 1) = 1.
Proof.
  unfold lb. replace (- (2 * x + 1)) with (2 * Z.lnot x + 1) by (unfold Z.lnot; lia).
  rewrite land_odd_odd, Z.land_lnot_diag. reflexivity.
Qed.

Lemma parity_cases i : (exists y, i = 2 * y) \/ (exists y, i = 2 * y + 1).
Proof.
  pose proof (Z.div_mod i 2 ltac:(lia)) as H.
  pose proof (Z.mod_pos_bound i 2 ltac:(lia)) as B.
  destruct (Z.eq_dec (i mod 2) 0) as [E|E].
  - left. exists (i / 2). lia.
  - right. exists (i / 2). lia.
Qed.

(** Induction along the binary representation of a positive index. *)
Lemma binary_ind (P : Z -> Prop) :
  (forall x, 0 < x -> P x -> P (2 * x)) ->
  (forall x, 0 <= x -> (0 < x -> P x) -> P (2 * x + 1)) ->
  forall x, 0 < x -> P x.
Proof.
  intros He Ho x Hx. destruct x as [|p|p]; try lia. clear Hx.
  induction p as [p IH|p IH|].
  - change (Z.pos p~1) with (2 * Z.pos p + 1). apply Ho; [lia | intros _; exact IH].
  - change (Z.pos p~0) with (2 * Z.pos p). apply He; [lia | exact IH].
  - change 1 with (2 * 0 + 1). apply Ho; lia.
Qed.

Lemma lb_pos x : 0 < x -> 0 < lb x.
Proof.
  revert x. apply binary_ind.
  - intros x Hx IH. rewrite lb_double. lia.
  - intros x Hx IH. rewrite lb_odd. lia.
Qed.

Lemma lb_le x : 0 < x -> lb x <= x.
Proof.
  revert x. apply binary_ind.
  - intros x Hx IH. rewrite lb_double. lia.
  - intros x Hx IH. rewrite lb_odd. lia.
Qed.

(** Two indices [c < i]: the block starting at [c] ends before [i], or
    the block ending at [i] starts after [c]. *)
Lemma lb_apart c i : 0 < c < i -> c + lb c <= i \/ c <= i - lb i.
Proof.
  intros [Hc Hi]. revert c Hc i Hi. apply (binary_ind (fun c => forall i, c < i -> _)).
  - intros x Hx IH i Hi. rewrite lb_double.
    destruct (parity_cases i) as [[y ->]|[y ->]].
    + rewrite lb_double. destruct (IH y) as [H|H]; lia.
    + rewrite lb_odd. lia.
  - intros x Hx IH i Hi. rewrite lb_odd. lia.
Qed.

(** Climbing steps at least double the low bit. *)
Lemma lb_up c : 0 < c -> 2 * lb c <= lb (c + lb c).
Proof.
  revert c. apply binary_ind.
  - intros x Hx IH. rewrite lb_double.
    replace (2 * x + 2 * lb x) with (2 * (x + lb x)) by lia.
    rewrite lb_double. lia.
  - intros x Hx IH. rewrite lb_odd.
    replace (2 * x + 1 + 1) with (2 * (x + 1)) by lia.
    rewrite lb_double. pose proof (lb_pos (x + 1)). lia.
Qed.

Lemma lb_down x : 0 < x -> lb x < x -> 2 * lb x <= lb (x - lb x).
Proof.
  revert x. apply (binary_ind (fun x => lb x < x -> _)).
  - intros x Hx IH. rewrite lb_double. intros H.
    replace (2 * x - 2 * lb x) with (2 * (x - lb x)) by lia.
    rewrite lb_double. specialize (IH ltac:(lia)). lia.
  - intros x Hx IH. rewrite lb_odd. intros H.
    replace (2 * x + 1 - 1) with (2 * x) by lia.
    rewrite lb_double. pose proof (lb_pos x). lia.
Qed.

(** The blocks [(i - lb i, i]] are nested or disjoint. *)
Lemma lb_nested c i : 0 < c < i -> i - lb i < c -> i - lb i <= c - lb c.
Proof.
  intros [Hc Hi] H.
  pose proof (lb_le c Hc). pose proof (lb_le i ltac:(lia)). pose proof (lb_pos i ltac:(lia)).
  destruct (Z.eq_dec (i - lb i) 0) as [E|E]; [lia|].
  destruct (lb_apart (i - lb i) c ltac:(lia)) as [G|G]; [|lia].
  pose proof (lb_down i ltac:(lia) ltac:(lia)). lia.
Qed.

Lemma lb_pow2_odd k q : 0 <= k -> lb (2 ^ k * (2 * q + 1)) = 2 ^ k.
Proof.
  intros Hk. revert k Hk. apply natlike_ind.
  - rewrite Z.pow_0_r, Z.mul_1_l. apply lb_odd.
  - intros k Hk IH. rewrite Z.pow_succ_r by lia.
    rewrite <- Z.mul_assoc, lb_double, IH. reflexivity.
Qed.

(** ** [lowbit] on [int] indices *)

Lemma lowbit_lb i : -2147483648 < i <= 2147483647 -> lowbit i = lb i.
Proof.
  intros H. unfold lowbit, lb. rewrite Int_neg_small; [reflexivity|].
  apply Int_in_range_iff. lia.
Qed.

Lemma Int_add_id a b : -2147483648 <= a + b <= 2147483647 -> Int.add a b = a + b.
Proof. intros H. apply Int_add_small, Int_in_range_iff, H. Qed.

Lemma Int_sub_id a b : -2147483648 <= a - b <= 2147483647 -> Int.sub a b = a - b.
Proof. intros H. apply Int_sub_small, Int_in_range_iff, H. Qed.

Lemma Int_mul_id a b : -2147483648 <= a * b <= 2147483647 -> Int.mul a b = a * b.
Proof. intros H. apply Int_mul_small, Int_in_range_iff, H. Qed.

Lemma lb_bounds x : 0 < x -> 1 <= lb x <= x.
Proof. intros H. pose proof (lb_pos x H). pose proof (lb_le x H). lia. Qed.

(** One step down and one step up from an index of a structure. *)
Lemma step_down i : 0 <= i <= 2147483647 -> Int.sub i (lowbit i) = i - lb i.
Proof.
  intros H. rewrite lowbit_lb by lia.
  destruct (Z.eq_dec i 0) as [->|Hne]; [reflexivity|].
  pose proof (lb_bounds i ltac:(lia)). apply Int_sub_id. lia.
Qed.

Lemma step_up i : 0 <= i <= max_size -> Int.add i (lowbit i) = i + lb i.
Proof.
  unfold max_size. intros H. rewrite lowbit_lb by lia.
  destruct (Z.eq_dec i 0) as [->|Hne]; [reflexivity|].
  pose proof (lb_bounds i ltac:(lia)). apply Int_add_id. lia.
Qed.

(** * fenwick.h *)

(** Run the loop at the head of the goal by its invariant and variant. *)
Ltac run_while I mu :=
  match goal with
  | |- context [while ?fu ?c ?b ?s0] =>
      let st := fresh "st" in
      let Hw := fresh "Hw" in
      let Hi := fresh "Hinv" in
      let Hc := fresh "Hexit" in
      destruct (while_rule I mu c b) with (fuel := fu) (s := s0)
        as (st & Hw & Hi & Hc); [ | | | rewrite Hw; clear Hw ]
  end.

(** Split conjunctions only. *)
Ltac splits := repeat match goal with |- _ /\ _ => split end.

(** Discharge the next bounds-checked access. *)
Ltac access :=
  cbn beta iota delta [bind fst snd];
  repeat (first [rewrite rd_ok by lia | rewrite wr_ok by lia];
          cbn beta iota delta [bind fst snd]).

Lemma in_block_iff k idx : in_block k idx = true <-> k - lb k < idx <= k.
Proof.
  unfold in_block. rewrite andb_true_iff, Z.ltb_lt, Z.leb_le. reflexivity.
Qed.

Lemma in_block_self k : 0 < k -> in_block k k = true.
Proof. intros H. apply in_block_iff. pose proof (lb_pos k H). lia. Qed.

Section FenwickFacts.
Import Fenwick.

Lemma stores_eqm s f g :
  (forall j, 1 <= j <= n s -> eqm (f j) (g j)) -> stores s f -> stores s g.
Proof.
  intros Hfg [Hlen Hs]. split; [exact Hlen|].
  intros i Hi. rewrite (Hs i Hi). apply wrap_eqm, isum_eqm.
  intros j Hj. apply Hfg. pose proof (lb_bounds i ltac:(lia)). lia.
Qed.

(** [update] adds [delta] to the nodes whose block holds [idx], and to
    no other. *)
Lemma update_nodes s idx delta :
  Z.of_nat (length (T s)) = n s + 1 -> n s <= max_size -> 1 <= idx <= n s ->
  exists T', update s idx delta = Ok (with_T s T') /\
             Z.of_nat (length T') = n s + 1 /\
             forall k, 1 <= k <= n s ->
                       get T' k = if in_block k idx
                                  then Int64.add (get (T s) k) delta
                                  else get (T s) k.
Proof.
  intros Hlen Hn Hidx. unfold update.
  run_while (fun st : Z * list Z =>
               let '(c, Tc) := st in
               Z.of_nat (length Tc) = n s + 1 /\ 0 < c /\ in_block c idx = true /\
               forall k, 1 <= k <= n s ->
                         get Tc k = if in_block k idx && (k <? c)
                                    then Int64.add (get (T s) k) delta
                                    else get (T s) k)
            (fun st : Z * list Z => Z.to_nat (n s + 1 - fst st)).
  - intros [c Tc] (HlenT & Hc0 & Hblk & HT) Hcond. simpl in Hcond.
    apply Z.leb_le in Hcond. apply in_block_iff in Hblk.
    access. rewrite step_up by lia.
    pose proof (lb_bounds c Hc0) as Hlb. pose proof (lb_up c Hc0) as Hup.
    eexists. split; [reflexivity|]. simpl.
    splits.
    + rewrite length_set. exact HlenT.
    + lia.
    + apply in_block_iff. lia.
    + intros k Hk. rewrite get_set by lia.
      destruct (Z.eqb_spec k c) as [->|Hne].
      * rewrite (HT c) by lia.
        replace (in_block c idx) with true by (symmetry; apply in_block_iff; lia).
        rewrite Z.ltb_irrefl, andb_false_r.
        replace (c <? c + lb c) with true by (symmetry; apply Z.ltb_lt; lia).
        reflexivity.
      * rewrite (HT k Hk).
        destruct (in_block k idx) eqn:Hb; simpl; [|reflexivity].
        apply in_block_iff in Hb.
        destruct (Z.ltb_spec k c), (Z.ltb_spec k (c + lb c)); try reflexivity; try lia.
        destruct (lb_apart c k ltac:(lia)); lia.
    + lia.
  - simpl. splits; try assumption; try lia.
    + apply in_block_self. lia.
    + intros k Hk. destruct (in_block k idx) eqn:Hb; simpl; [|reflexivity].
      apply in_block_iff in Hb.
      destruct (Z.ltb_spec k idx); [lia | reflexivity].
  - unfold budget. simpl. lia.
  - destruct st as [c Tc]. destruct Hinv as (HlenT & Hc0 & Hblk & HT).
    simpl in Hexit. apply Z.leb_gt in Hexit. simpl.
    exists Tc. split; [reflexivity|]. split; [assumption|].
    intros k Hk. rewrite (HT k Hk).
    replace (k <? c) with true by (symmetry; apply Z.ltb_lt; lia).
    rewrite andb_true_r. reflexivity.
Qed.

Lemma update_spec s f idx delta :
  stores s f -> n s <= max_size -> 1 <= idx <= n s ->
  exists s', update s idx delta = Ok s' /\
             n s' = n s /\ nmask s' = nmask s /\
             stores s' (fun j => if j =? idx then f j + delta else f j).
Proof.
  intros [Hlen Hs] Hn Hidx.
  destruct (update_nodes s idx delta Hlen Hn Hidx) as (T' & Hu & HlenT & HT).
  exists (with_T s T'). splits; try assumption; try reflexivity.
  split; [exact HlenT|].
  intros i Hi. cbn [with_T T n] in *. rewrite (HT i Hi), (Hs i Hi), isum_upd.
  unfold in_block.
  replace (i - lb i + 1 <=? idx) with (i - lb i <? idx)
    by (destruct (Z.ltb_spec (i - lb i) idx), (Z.leb_spec (i - lb i + 1) idx); lia).
  destruct ((i - lb i <? idx) && (idx <=? i)).
  - apply add64_wrap_l.
  - f_equal. lia.
Qed.

Lemma prefix_sum_spec s f idx :
  stores s f -> n s <= max_size -> 0 <= idx <= n s ->
  prefix_sum s idx = Ok (Int64.wrap (isum f 1 idx)).
Proof.
  intros [Hlen Hs] Hn Hidx. unfold prefix_sum, max_size in *.
  run_while (fun st : Z * Z =>
               let '(c, sum) := st in
               0 <= c <= idx /\ sum = Int64.wrap (isum f (c + 1) idx))
            (fun st : Z * Z => Z.to_nat (fst st)).
  - intros [c sum] (Hc & Hsum) Hcond. simpl in Hcond. apply Z.leb_le in Hcond.
    access. rewrite step_down by lia.
    pose proof (lb_bounds c ltac:(lia)) as Hlb.
    eexists. split; [reflexivity|]. simpl. splits; try lia.
    rewrite Hsum, (Hs c) by lia. wrap64.
    rewrite (isum_split f (c - lb c + 1) c idx) by lia. apply eq_eqm. lia.
  - simpl. split; [lia|]. rewrite isum_empty by lia. reflexivity.
  - unfold budget. simpl. lia.
  - destruct st as [c sum]. destruct Hinv as (Hc & Hsum).
    simpl in Hexit. apply Z.leb_gt in Hexit. simpl.
    replace c with 0 in Hsum by lia. rewrite Hsum. reflexivity.
Qed.

Lemma pow2_bounds m : 0 <= m <= 30 -> 1 <= 2 ^ m <= 1073741824.
Proof.
  intros H. split.
  - change 1 with (2 ^ 0). apply Z.pow_le_mono_r; lia.
  - change 1073741824 with (2 ^ 30). apply Z.pow_le_mono_r; lia.
Qed.

Lemma shl_1 m : 0 <= m <= 30 -> Int.shl 1 m = 2 ^ m.
Proof.
  intros H. unfold Int.shl. rewrite Z.shiftl_1_l.
  pose proof (pow2_bounds m H). apply Int_wrap_small, Int_in_range_iff. lia.
Qed.

Lemma allocate_fields m :
  1 <= m <= 30 ->
  n (allocate m) = 2 ^ m - 1 /\ nmask (allocate m) = 2 ^ (m - 1) /\
  T (allocate m) = filled (2 ^ m) 0.
Proof.
  intros H. unfold allocate. cbn [n nmask T].
  pose proof (pow2_bounds m ltac:(lia)).
  rewrite (shl_1 m) by lia. rewrite (Int_sub_id m 1) by lia.
  rewrite (shl_1 (m - 1)) by lia.
  rewrite (Int_sub_id (2 ^ m) 1) by lia.
  rewrite Int_add_id by lia.
  splits; try reflexivity. f_equal. lia.
Qed.

Lemma order_size s m : order s m -> 1 <= n s <= max_size.
Proof.
  intros (Hm & Hn & _). pose proof (pow2_bounds m ltac:(lia)).
  assert (2 <= 2 ^ m).
  { change 2 with (2 ^ 1) at 1. apply Z.pow_le_mono_r; lia. }
  unfold max_size. lia.
Qed.

Lemma stores_zero s :
  0 <= n s <= max_size -> T s = filled (n s + 1) 0 -> stores s (fun _ => 0).
Proof.
  intros Hn HT. split.
  - rewrite HT. apply length_filled. lia.
  - intros i Hi. rewrite HT, get_filled by lia. rewrite isum_const0. reflexivity.
Qed.

Lemma allocate_spec m :
  1 <= m <= 30 -> order (allocate m) m /\ stores (allocate m) (fun _ => 0).
Proof.
  intros H. destruct (allocate_fields m H) as (Hn & Hmask & HT).
  assert (Ho : order (allocate m) m) by (split; [exact H | split; assumption]).
  split; [exact Ho|].
  pose proof (order_size _ _ Ho). apply stores_zero; [lia|].
  rewrite HT, Hn. f_equal. lia.
Qed.

Lemma clear_spec s :
  0 <= n s <= max_size ->
  n (clear s) = n s /\ nmask (clear s) = nmask s /\ stores (clear s) (fun _ => 0).
Proof.
  intros H. splits; try reflexivity. apply stores_zero; [exact H|].
  unfold clear, with_T, max_size in *. cbn [T n]. rewrite Int_add_id by lia. reflexivity.
Qed.

(** [construct] rebuilds the tree from [a], whatever it held before. *)
Lemma construct_spec s a :
  Z.of_nat (length (T s)) = n s + 1 -> Z.of_nat (length a) = n s + 1 ->
  0 <= n s <= max_size ->
  exists s', construct s a = Ok s' /\ n s' = n s /\ nmask s' = nmask s /\
             stores s' (get a).
Proof.
  intros Hlen Hlena Hn. unfold construct.
  run_while (fun st : Z * t =>
               let '(i, sc) := st in
               0 <= i <= n s /\ n sc = n s /\ nmask sc = nmask s /\
               Z.of_nat (length (T sc)) = n s + 1 /\
               forall k, i < k <= n s ->
                         get (T sc) k
                         = Int64.wrap (isum (fun j => if i <? j then get a j else 0)
                                            (k - lb k + 1) k))
            (fun st : Z * t => Z.to_nat (fst st)).
  - intros [i sc] (Hi & Hnc & Hmc & Hlc & HT) Hcond. simpl in Hcond.
    apply Z.leb_le in Hcond. access.
    assert (Hlen' : Z.of_nat (length (T (with_T sc (set (T sc) i 0)))) = n (with_T sc (set (T sc) i 0)) + 1).
    { cbn [with_T T n]. rewrite length_set. lia. }
    destruct (update_nodes (with_T sc (set (T sc) i 0)) i (get a i) Hlen')
      as (T' & Hu & HlenT & HT'); cbn [with_T T n] in *; try lia.
    rewrite Hu. cbn [bind]. unfold max_size in *. rewrite Int_sub_id by lia.
    eexists. split; [reflexivity|]. cbn [with_T T n nmask fst].
    splits; try lia.
    intros k Hk. rewrite Hnc in HT'. rewrite (HT' k) by lia.
    rewrite get_set by lia.
    pose proof (lb_bounds k ltac:(lia)) as Hlb.
    rewrite (isum_ext (fun j => if i - 1 <? j then get a j else 0)
               (fun j => if j =? i then (if i <? j then get a j else 0) + get a i
                         else if i <? j then get a j else 0)).
    2:{ intros j Hj. destruct (Z.ltb_spec (i - 1) j), (Z.ltb_spec i j), (Z.eqb_spec j i);
        try subst j; lia. }
    rewrite isum_upd.
    replace ((k - lb k + 1 <=? i) && (i <=? k)) with (in_block k i)
      by (unfold in_block; destruct (Z.ltb_spec (k - lb k) i), (Z.leb_spec (k - lb k + 1) i); simpl; lia).
    destruct (Z.eqb_spec k i) as [->|Hne].
    + rewrite in_block_self by lia.
      rewrite (isum_ext _ (fun _ => 0)), isum_const0.
      2:{ intros j Hj. destruct (Z.ltb_spec i j); [lia|reflexivity]. }
      reflexivity.
    + rewrite (HT k) by lia. destruct (in_block k i).
      * apply add64_wrap_l.
      * f_equal. lia.
  - cbn. splits; try lia; try reflexivity.
  - unfold budget. cbn. lia.
  - destruct st as [i sc]. destruct Hinv as (Hi & Hnc & Hmc & Hlc & HT).
    simpl in Hexit. apply Z.leb_gt in Hexit. cbn [bind].
    exists sc. splits; try assumption; try reflexivity.
    split; [lia|]. intros k Hk. rewrite (HT k) by lia.
    f_equal. pose proof (lb_bounds k ltac:(lia)). apply isum_ext.
    intros j Hj. destruct (Z.ltb_spec i j); [reflexivity|lia].
Qed.

Lemma wrap_0 : Int64.wrap 0 = 0.
Proof. reflexivity. Qed.

Lemma lb_1 : lb 1 = 1.
Proof. reflexivity. Qed.

(** [fast_construct] turns the caller's array into its running sums and
    builds the tree of the original array from them. *)
Lemma fast_construct_spec s a :
  Z.of_nat (length (T s)) = n s + 1 -> Z.of_nat (length a) = n s + 1 ->
  0 <= n s <= max_size ->
  exists s' a', fast_construct s a = Ok (s', a') /\
                n s' = n s /\ nmask s' = nmask s /\ stores s' (get a) /\
                Z.of_nat (length a') = n s + 1 /\ get a' 0 = 0 /\
                forall i, 1 <= i <= n s -> get a' i = Int64.wrap (isum (get a) 1 i).
Proof.
  intros Hlen Hlena Hn. unfold fast_construct, max_size in *.
  rewrite wr_ok by lia. cbn [bind].
  run_while (fun st : Z * list Z =>
               let '(i, ac) := st in
               1 <= i <= n s + 1 /\ Z.of_nat (length ac) = n s + 1 /\
               (forall k, 0 <= k < i -> get ac k = Int64.wrap (isum (get a) 1 k)) /\
               (forall k, i <= k <= n s -> get ac k = get a k))
            (fun st : Z * list Z => Z.to_nat (n s + 1 - fst st)).
  - intros [i ac] (Hi & Hla & Hlo & Hhi) Hcond. simpl in Hcond.
    apply Z.leb_le in Hcond. rewrite Int_sub_id by lia. access.
    rewrite Int_add_id by lia.
    eexists. split; [reflexivity|]. cbn [fst]. splits; try lia.
    + rewrite length_set. exact Hla.
    + intros k Hk. rewrite get_set by lia.
      destruct (Z.eqb_spec k i) as [->|Hne]; [|apply Hlo; lia].
      rewrite (Hhi i), (Hlo (i - 1)) by lia. rewrite add64_wrap_r.
      rewrite (isum_snoc (get a) 1 i) by lia. f_equal. lia.
    + intros k Hk. rewrite get_set by lia.
      destruct (Z.eqb_spec k i) as [->|Hne]; [lia|apply Hhi; lia].
  - cbn. splits; try lia.
    + rewrite length_set. exact Hlena.
    + intros k Hk. replace k with 0 by lia.
      rewrite get_set_same by lia. rewrite isum_empty by lia. reflexivity.
    + intros k Hk. apply get_set_other; lia.
  - unfold budget. cbn. lia.
  - destruct st as [i1 a1]. destruct Hinv as (Hi1 & Hla1 & Hlo1 & _).
    simpl in Hexit. apply Z.leb_gt in Hexit. cbn [bind].
    run_while (fun st : Z * list Z =>
                 let '(i, Tc) := st in
                 1 <= i <= n s + 1 /\ Z.of_nat (length Tc) = n s + 1 /\
                 forall k, 1 <= k < i ->
                           get Tc k = Int64.wrap (isum (get a) (k - lb k + 1) k))
              (fun st : Z * list Z => Z.to_nat (n s + 1 - fst st)).
    + intros [i Tc] (Hi & HlT & HT) Hcond. simpl in Hcond.
      apply Z.leb_le in Hcond. rewrite step_down by lia.
      pose proof (lb_bounds i ltac:(lia)) as Hlb.
      rewrite (rd_ok a1 i) by lia. cbn [bind].
      assert (Hv : (if i - lb i =? 0 then Ok (get a1 i)
                    else bind (rd a1 (i - lb i))
                           (fun aii => Ok (Int64.sub (get a1 i) aii)))
                   = Ok (Int64.wrap (isum (get a) (i - lb i + 1) i))).
      { destruct (Z.eqb_spec (i - lb i) 0) as [E|E].
        - rewrite E. rewrite Hlo1 by lia. reflexivity.
        - rewrite rd_ok by lia. cbn [bind]. rewrite !Hlo1 by lia.
          rewrite sub64_wrap. do 2 f_equal.
          rewrite (isum_split (get a) 1 (i - lb i) i) by lia. lia. }
      rewrite Hv. access. rewrite Int_add_id by lia.
      eexists. split; [reflexivity|]. cbn [fst]. splits; try lia.
      * rewrite length_set. exact HlT.
      * intros k Hk. rewrite get_set by lia.
        destruct (Z.eqb_spec k i) as [->|Hne]; [reflexivity|apply HT; lia].
    + cbn. splits; try lia.
    + unfold budget. cbn. lia.
    + destruct st as [i2 T2]. destruct Hinv as (Hi2 & HlT2 & HT2).
      simpl in Hexit0. apply Z.leb_gt in Hexit0. cbn [bind].
      exists (with_T s T2), a1. splits; try reflexivity; try assumption.
      * split; [exact HlT2|]. intros k Hk. cbn [with_T T n] in *. apply HT2. lia.
      * apply Hlo1. lia.
      * intros i Hi. apply Hlo1. lia.
Qed.

Lemma access_spec s f idx :
  stores s f -> n s <= max_size -> 1 <= idx <= n s ->
  access s idx = Ok (Int64.wrap (f idx)).
Proof.
  intros Hs Hn Hidx. unfold access, max_size in *.
  destruct (Z.eqb_spec idx 1) as [->|Hne].
  - destruct Hs as [Hlen Hs]. rewrite rd_ok by lia. rewrite (Hs 1) by lia.
    rewrite lb_1. replace (1 - 1 + 1) with 1 by lia. rewrite isum_single. reflexivity.
  - rewrite (prefix_sum_spec s f idx) by (unfold max_size; auto; lia). cbn [bind].
    rewrite Int_sub_id by lia.
    rewrite (prefix_sum_spec s f (idx - 1)) by (unfold max_size; auto; lia). cbn [bind].
    rewrite sub64_wrap. do 2 f_equal. rewrite (isum_snoc f 1 idx) by lia. lia.
Qed.

(** The two-pointer walk leaves [sum + a[1..i] - a[1..j]]. *)
Lemma converge_spec s f sum i j :
  stores s f -> n s <= max_size -> 0 <= i <= n s -> 0 <= j <= n s ->
  Int64.in_range sum ->
  converge s sum i j = Ok (Int64.wrap (sum + isum f 1 i - isum f 1 j)).
Proof.
  intros [Hlen Hs] Hn Hi Hj Hsum. unfold converge, max_size in *.
  run_while (fun st : Z * Z * Z =>
               let '(sc, ic, jc) := st in
               0 <= ic <= n s /\ 0 <= jc <= n s /\ Int64.in_range sc /\
               eqm (sc + isum f 1 ic - isum f 1 jc) (sum + isum f 1 i - isum f 1 j))
            (fun st : Z * Z * Z => let '(_, ic, jc) := st in Z.to_nat (ic + jc)).
  - intros [[sc ic] jc] (Hic & Hjc & Hsc & Heq) Hcond. simpl in Hcond.
    apply negb_true_iff, Z.eqb_neq in Hcond.
    cbn beta iota. destruct (Z.ltb_spec jc ic) as [Hlt|Hge].
    + access. rewrite step_down by lia.
      pose proof (lb_bounds ic ltac:(lia)) as Hlb.
      eexists. split; [reflexivity|]. cbn beta iota. splits; try lia.
      * apply add64_in_range.
      * rewrite <- Heq. unfold Int64.add. rewrite eqm_wrap. rewrite (Hs ic) by lia.
        rewrite eqm_wrap. apply eq_eqm.
        rewrite (isum_split f 1 (ic - lb ic) ic) by lia. lia.
    + access. rewrite step_down by lia.
      pose proof (lb_bounds jc ltac:(lia)) as Hlb.
      eexists. split; [reflexivity|]. cbn beta iota. splits; try lia.
      * apply Int64_wrap_range.
      * rewrite <- Heq. unfold Int64.sub. rewrite eqm_wrap. rewrite (Hs jc) by lia.
        rewrite eqm_wrap. apply eq_eqm.
        rewrite (isum_split f 1 (jc - lb jc) jc) by lia. lia.
  - cbn beta iota. splits; try lia; try assumption. reflexivity.
  - unfold budget. cbn beta iota. lia.
  - destruct st as [[sc ic] jc]. destruct Hinv as (Hic & Hjc & Hsc & Heq).
    simpl in Hexit. apply negb_false_iff, Z.eqb_eq in Hexit. subst jc. cbn [bind].
    f_equal. rewrite <- (Int64_wrap_small sc Hsc). apply wrap_eqm.
    rewrite <- Heq. apply eq_eqm. lia.
Qed.

Lemma stores_in_range s f i :
  stores s f -> 1 <= i <= n s -> Int64.in_range (get (T s) i).
Proof. intros [_ Hs] Hi. rewrite (Hs i Hi). apply Int64_wrap_range. Qed.

Lemma fast_access_spec s f idx :
  stores s f -> n s <= max_size -> 1 <= idx <= n s ->
  fast_access s idx = Ok (Int64.wrap (f idx)).
Proof.
  intros Hs Hn Hidx. unfold fast_access.
  pose proof (stores_in_range s f idx Hs Hidx) as Hr.
  pose proof (lb_bounds idx ltac:(lia)) as Hlb.
  destruct Hs as [Hlen Hs'] eqn:E. clear E. unfold max_size in *.
  rewrite rd_ok by lia. cbn [bind].
  rewrite step_down, Int_sub_id by lia.
  rewrite (converge_spec s f) by (unfold max_size; auto; try split; auto; lia).
  f_equal. rewrite (Hs' idx) by lia. wrap64. apply eq_eqm.
  rewrite (isum_split f 1 (idx - lb idx) (idx - 1)) by lia.
  rewrite (isum_snoc f (idx - lb idx + 1) idx) by lia. lia.
Qed.

Lemma range_sum_spec s f l r :
  stores s f -> n s <= max_size -> 1 <= l <= r -> r <= n s ->
  range_sum s l r = Ok (Int64.wrap (isum f l r)).
Proof.
  intros Hs Hn Hl Hr. unfold range_sum, max_size in *.
  rewrite (prefix_sum_spec s f r) by (unfold max_size; auto; lia). cbn [bind].
  destruct (Z.ltb_spec 1 l) as [H1|H1].
  - rewrite Int_sub_id by lia.
    rewrite (prefix_sum_spec s f (l - 1)) by (unfold max_size; auto; lia). cbn [bind].
    rewrite sub64_wrap. do 2 f_equal.
    rewrite (isum_split f 1 (l - 1) r) by lia.
    replace (l - 1 + 1) with l by lia. lia.
  - replace l with 1 by lia. reflexivity.
Qed.

Lemma fast_range_sum_spec s f l r :
  stores s f -> n s <= max_size -> 1 <= l <= r -> r <= n s ->
  fast_range_sum s l r = Ok (Int64.wrap (isum f l r)).
Proof.
  intros Hs Hn Hl Hr. unfold fast_range_sum.
  pose proof (stores_in_range s f r Hs ltac:(lia)) as Hrr.
  pose proof (lb_bounds r ltac:(lia)) as Hlb.
  destruct Hs as [Hlen Hs'] eqn:E. clear E. unfold max_size in *.
  rewrite rd_ok by lia. cbn [bind].
  rewrite step_down, Int_sub_id by lia.
  rewrite (converge_spec s f) by (unfold max_size; auto; try split; auto; lia).
  f_equal. rewrite (Hs' r) by lia. wrap64. apply eq_eqm.
  pose proof (isum_split f 1 (l - 1) r ltac:(lia)) as E1.
  pose proof (isum_split f 1 (r - lb r) r ltac:(lia)) as E2.
  replace (l - 1 + 1) with l in E1 by lia. lia.
Qed.

(** ** Search *)

Lemma first_reaching_unique P n val k1 k2 :
  first_reaching P n val k1 -> first_reaching P n val k2 -> k1 = k2.
Proof.
  intros (H1 & L1 & U1) (H2 & L2 & U2).
  destruct (Z.lt_trichotomy k1 k2) as [H|[H|H]]; [|exact H|].
  - specialize (L2 k1 ltac:(lia)). specialize (U1 ltac:(lia)). lia.
  - specialize (L1 k2 ltac:(lia)). specialize (U2 ltac:(lia)). lia.
Qed.

Lemma search_from_spec s f val fuel i :
  stores s f -> 0 <= n s <= max_size -> 1 <= i <= n s + 1 ->
  (Z.to_nat (n s + 1 - i) < fuel)%nat ->
  (forall j, 1 <= j < i -> Int64.wrap (isum f 1 j) < val) ->
  exists k, search_from fuel s val i = Ok k /\
            first_reaching (fun j => Int64.wrap (isum f 1 j)) (n s) val k.
Proof.
  intros Hs Hn. revert i. unfold max_size in *.
  induction fuel as [|fuel IH]; intros i Hi Hfuel Hlow; [lia|].
  cbn [search_from]. destruct (Z.leb_spec i (n s)) as [Hle|Hgt].
  - rewrite (prefix_sum_spec s f i) by (unfold max_size; auto; lia). cbn [bind].
    destruct (Z.leb_spec val (Int64.wrap (isum f 1 i))) as [Hv|Hv].
    + exists i. split; [reflexivity|]. unfold first_reaching. splits; try lia; auto.
    + rewrite Int_add_id by lia. apply IH; try lia.
      intros j Hj. destruct (Z.eq_dec j i) as [->|Hne]; [exact Hv | apply Hlow; lia].
  - rewrite Int_add_id by lia. exists (n s + 1). split; [reflexivity|].
    unfold first_reaching. splits; try lia. intros j Hj. apply Hlow. lia.
Qed.

Lemma search_spec s f val :
  stores s f -> 0 <= n s <= max_size ->
  exists k, search s val = Ok k /\
            first_reaching (fun j => Int64.wrap (isum f 1 j)) (n s) val k.
Proof.
  intros Hs Hn. unfold search. apply search_from_spec; auto; try lia.
  unfold budget. lia.
Qed.

Lemma isum_nonneg f lo hi :
  (forall j, lo <= j <= hi -> 0 <= f j) -> 0 <= isum f lo hi.
Proof.
  destruct (Z_lt_ge_dec hi lo) as [Hlt|Hge].
  { intros _. rewrite isum_empty by lia. lia. }
  assert (Hhi : lo - 1 <= hi) by lia. clear Hge.
  pattern hi. apply range_ind with (lo := lo); [| |lia].
  - intros _. rewrite isum_empty by lia. lia.
  - intros h Hh IH Hf. rewrite isum_snoc by lia.
    specialize (IH ltac:(intros; apply Hf; lia)). specialize (Hf h ltac:(lia)). lia.
Qed.

Lemma isum_mono f n a b :
  (forall j, 1 <= j <= n -> 0 <= f j) -> 0 <= a <= b -> b <= n ->
  isum f 1 a <= isum f 1 b.
Proof.
  intros Hf Hab Hb. rewrite (isum_split f 1 a b) by lia.
  pose proof (isum_nonneg f (a + 1) b ltac:(intros; apply Hf; lia)). lia.
Qed.

Lemma shr_pow2 e : 0 <= e -> Int.shr (2 ^ e) 1 = 2 ^ (e - 1).
Proof.
  intros He. unfold Int.shr. rewrite Z.shiftr_div_pow2 by lia. change (2 ^ 1) with 2.
  destruct (Z.eq_dec e 0) as [->|Hne]; [reflexivity|].
  replace e with (Z.succ (e - 1)) at 1 by lia.
  rewrite Z.pow_succ_r by lia. rewrite Z.mul_comm, Z.div_mul by lia. reflexivity.
Qed.

Lemma pow2_pos e : 0 <= e -> 0 < 2 ^ e.
Proof. intros. apply Z.pow_pos_nonneg; lia. Qed.

Lemma pow2_succ e : 0 <= e -> 2 ^ (e + 1) = 2 * 2 ^ e.
Proof. intros. rewrite Z.pow_add_r by lia. lia. Qed.

(** On non-negative elements whose total fits an [int64_t], the
    binary-lifting descent finds the first prefix sum reaching [val]. *)
Lemma fast_search_spec s m f val :
  order s m -> stores s f ->
  (forall j, 1 <= j <= n s -> 0 <= f j) -> isum f 1 (n s) <= Int64.max_signed ->
  Int64.min_signed < val <= Int64.max_signed ->
  exists k, fast_search s val = Ok k /\ first_reaching (isum f 1) (n s) val k.
Proof.
  intros Ho Hs Hf Htot Hval. pose proof (order_size s m Ho) as Hsz.
  destruct Ho as (Hm & Hn & Hmask). destruct Hs as [Hlen Hs].
  unfold Int64.max_signed, Int64.min_signed, max_size in *.
  assert (HP : forall a b, 0 <= a <= b -> b <= n s ->
                           0 <= isum f 1 a <= isum f 1 b /\ isum f 1 b <= 9223372036854775807).
  { intros a b Hab Hb.
    pose proof (isum_mono f (n s) a b Hf Hab Hb).
    pose proof (isum_mono f (n s) b (n s) Hf ltac:(lia) ltac:(lia)).
    pose proof (isum_mono f (n s) 0 a Hf ltac:(lia) ltac:(lia)) as Hz.
    rewrite (isum_empty f 1 0) in Hz by lia. lia. }
  unfold fast_search.
  assert (Hv1 : Int64.sub val 1 = val - 1).
  { apply Int64_wrap_small, Int64_in_range_iff. lia. }
  rewrite Hv1.
  run_while (fun st : Z * Z * Z =>
               let '(vc, i, mask) := st in
               exists e q, -1 <= e <= m - 1 /\ mask = 2 ^ e /\ 0 <= q /\
                           i = q * 2 ^ (e + 1) /\ i + 2 ^ (e + 1) <= n s + 1 /\
                           vc = val - 1 - isum f 1 i /\
                           (forall j, 1 <= j <= i -> isum f 1 j < val) /\
                           (i + 2 ^ (e + 1) <= n s -> val <= isum f 1 (i + 2 ^ (e + 1))))
            (fun st : Z * Z * Z => Z.to_nat (snd st)).
  - intros [[vc i] mask] (e & q & He & Hmk & Hq & Hi & Hib & Hvc & Hlow & Hup) Hcond.
    simpl in Hcond. apply negb_true_iff, Z.eqb_neq in Hcond.
    assert (He0 : 0 <= e).
    { destruct (Z_lt_ge_dec e 0); [|lia]. rewrite Z.pow_neg_r in Hmk by lia. lia. }
    pose proof (pow2_pos e He0) as Hpe. pose proof (pow2_succ e He0) as Hpe1.
    cbn beta iota. subst mask. rewrite shr_pow2 by lia.
    assert (Hi0 : 0 <= i) by (subst i; nia).
    rewrite Int_add_id by lia.
    destruct (Z.ltb_spec (n s) (i + 2 ^ e)) as [Hb|Hb]; [lia|].
    access.
    assert (Hlbii : lb (i + 2 ^ e) = 2 ^ e).
    { replace (i + 2 ^ e) with (2 ^ e * (2 * q + 1)) by (subst i; rewrite Hpe1; ring).
      apply lb_pow2_odd. lia. }
    assert (Hv : get (T s) (i + 2 ^ e) = isum f 1 (i + 2 ^ e) - isum f 1 i).
    { rewrite (Hs (i + 2 ^ e)) by lia. rewrite Hlbii.
      replace (i + 2 ^ e - 2 ^ e + 1) with (i + 1) by lia.
      pose proof (isum_split f 1 i (i + 2 ^ e) ltac:(lia)) as E.
      pose proof (HP i (i + 2 ^ e) ltac:(lia) ltac:(lia)).
      rewrite Int64_wrap_small by (apply Int64_in_range_iff; lia). lia. }
    rewrite Hv.
    pose proof (HP i (i + 2 ^ e) ltac:(lia) ltac:(lia)) as HPi.
    assert (Hhalf : 0 <= 2 ^ (e - 1) < 2 ^ e).
    { destruct (Z.eq_dec e 0) as [->|Hne]; [cbn; lia|].
      pose proof (pow2_pos (e - 1) ltac:(lia)). pose proof (pow2_succ (e - 1) ltac:(lia)) as E.
      replace (e - 1 + 1) with e in E by lia. lia. }
    destruct (Z.leb_spec (isum f 1 (i + 2 ^ e) - isum f 1 i) vc) as [Hle|Hgt].
    + eexists. split; [reflexivity|]. cbn [snd]. split; [|lia].
      exists (e - 1), (2 * q + 1).
      replace (e - 1 + 1) with e by lia.
      split; [lia|]. split; [reflexivity|]. split; [lia|].
      split; [rewrite Hi, Hpe1; ring|]. split; [lia|].
      split.
      { unfold Int64.sub. rewrite Int64_wrap_small by (apply Int64_in_range_iff; lia). lia. }
      split.
      { intros j Hj. pose proof (HP j (i + 2 ^ e) ltac:(lia) ltac:(lia)). lia. }
      intros Hb'. replace (i + 2 ^ e + 2 ^ e) with (i + 2 ^ (e + 1)) by lia.
      apply Hup. lia.
    + eexists. split; [reflexivity|]. cbn [snd]. split; [|lia].
      exists (e - 1), (2 * q).
      replace (e - 1 + 1) with e by lia.
      split; [lia|]. split; [reflexivity|]. split; [lia|].
      split; [rewrite Hi, Hpe1; ring|]. split; [lia|].
      split; [exact Hvc|]. split; [exact Hlow|].
      intros _. lia.
  - cbn beta iota. exists (m - 1), 0.
    replace (m - 1 + 1) with m by lia.
    splits; try lia.
    + rewrite isum_empty by lia. lia.
  - unfold budget. cbn [snd]. lia.
  - destruct st as [[vc i] mask].
    destruct Hinv as (e & q & He & Hmk & Hq & Hi & Hib & Hvc & Hlow & Hup).
    simpl in Hexit. apply negb_false_iff, Z.eqb_eq in Hexit. cbn [bind].
    assert (He1 : e = -1).
    { destruct (Z_lt_ge_dec e 0); [lia|]. pose proof (pow2_pos e ltac:(lia)). lia. }
    subst e. change (2 ^ (-1 + 1)) with 1 in *.
    rewrite Int_add_id by lia.
    exists (i + 1). split; [reflexivity|]. unfold first_reaching.
    splits; try lia.
    + intros j Hj. apply Hlow. lia.
Qed.
End FenwickFacts.

(** * Sequences of calls on a Fenwick tree *)

Lemma int64s_get a i : int64s a -> Int64.in_range (get a i).
Proof.
  intros H. unfold get. destruct (nth_in_or_default (Z.to_nat i) a 0) as [Hin|E]; [|rewrite E].
  - unfold int64s in H. rewrite Forall_forall in H. apply H, Hin.
  - apply Int64_in_range_iff. lia.
Qed.

Lemma int64s_set_nth k v a : int64s a -> Int64.in_range v -> int64s (set_nth k v a).
Proof.
  unfold int64s. intros H Hv. revert k. induction H as [|x l Hx Hl IH]; intros k; simpl.
  - constructor.
  - destruct k; constructor; auto.
Qed.

Lemma int64s_filled k : int64s (filled k 0).
Proof.
  unfold int64s, filled. apply Forall_forall. intros x Hx.
  apply repeat_spec in Hx. subst x. apply Int64_in_range_iff. lia.
Qed.

Section Mutations.
Import Fenwick.
Variable N : Z.
Hypothesis HN : 0 <= N <= max_size.

Lemma mutate_stores s a c :
  n s = N -> stores s (get a) -> Z.of_nat (length a) = N + 1 -> valid_mutation N c ->
  exists s', mutate s c = Ok s' /\ n s' = N /\ nmask s' = nmask s /\
             stores s' (get (implied N a c)) /\
             Z.of_nat (length (implied N a c)) = N + 1.
Proof.
  intros Hn Hs Hla Hv. destruct c as [idx delta|b|b|]; cbn [mutate implied valid_mutation] in *.
  - destruct (update_spec s (get a) idx delta Hs) as (s' & Hu & Hn' & Hm' & Hs'); try lia.
    exists s'. split; [exact Hu|]. split; [lia|]. split; [exact Hm'|]. split.
    + revert Hs'. apply stores_eqm. intros j Hj. rewrite get_set by lia.
      destruct (Z.eqb_spec j idx) as [->|Hne]; [|reflexivity].
      unfold Int64.add. rewrite eqm_wrap. reflexivity.
    + rewrite length_set. exact Hla.
  - destruct Hs as [Hlen Hs].
    destruct (construct_spec s b) as (s' & Hu & Hn' & Hm' & Hs'); try lia.
    exists s'. split; [exact Hu|]. split; [lia|]. split; [exact Hm'|]. split; [exact Hs'|lia].
  - destruct Hs as [Hlen Hs].
    destruct (fast_construct_spec s b) as (s' & b' & Hu & Hn' & Hm' & Hs' & _); try lia.
    rewrite Hu. cbn [bind fst].
    exists s'. split; [reflexivity|]. split; [lia|]. split; [exact Hm'|].
    split; [exact Hs'|lia].
  - destruct (clear_spec s) as (Hn' & Hm' & Hs'); try lia.
    exists (clear s). split; [reflexivity|]. split; [lia|]. split; [exact Hm'|]. split.
    + revert Hs'. apply stores_eqm. intros j Hj. rewrite Hn' in Hj.
      rewrite get_filled by lia. reflexivity.
    + apply length_filled. lia.
Qed.

Lemma mutate_all_stores cs : forall s a,
  n s = N -> stores s (get a) -> Z.of_nat (length a) = N + 1 ->
  Forall (valid_mutation N) cs ->
  exists s', mutate_all s cs = Ok s' /\ n s' = N /\ nmask s' = nmask s /\
             stores s' (get (fold_left (implied N) cs a)).
Proof.
  induction cs as [|c cs IH]; intros s a Hn Hs Hla Hv.
  - exists s. cbn [mutate_all fold_left]. split; [reflexivity|]. split; [exact Hn|].
    split; [reflexivity|exact Hs].
  - inversion Hv as [|c' cs' Hc Hcs]; subst c' cs'.
    destruct (mutate_stores s a c Hn Hs Hla Hc) as (s1 & Hm & Hn1 & Hk1 & Hs1 & Hl1).
    destruct (IH s1 (implied N a c) Hn1 Hs1 Hl1 Hcs) as (s' & Hr & Hn' & Hk' & Hs').
    exists s'. cbn [mutate_all fold_left]. rewrite Hm. cbn [bind].
    split; [exact Hr|]. split; [exact Hn'|]. split; [congruence|exact Hs'].
Qed.

Lemma point_updates_valid ups :
  Forall (fun u => 1 <= fst u <= N) ups -> Forall (valid_mutation N) (point_updates ups).
Proof.
  intros H. unfold point_updates. apply Forall_map.
  eapply Forall_impl; [|exact H]. intros u Hu. exact Hu.
Qed.

Lemma point_updates_int64s ups : forall a,
  int64s a -> int64s (fold_left (implied N) (point_updates ups) a).
Proof.
  induction ups as [|u ups IH]; intros a Ha; cbn [point_updates map fold_left implied];
    [exact Ha|].
  apply IH. apply int64s_set_nth; [exact Ha | apply add64_in_range].
Qed.
End Mutations.

Lemma allocated_run m cs :
  1 <= m <= 30 -> Forall (valid_mutation (2 ^ m - 1)) cs ->
  exists s, mutate_all (Fenwick.allocate m) cs = Ok s /\
            order s m /\ stores s (get (implied_array (Fenwick.n s) cs)).
Proof.
  intros Hm Hv. destruct (allocate_spec m Hm) as (Ho & Hs).
  pose proof (order_size _ _ Ho) as Hsz. destruct Ho as (_ & Hn & Hk).
  destruct (mutate_all_stores (2 ^ m - 1) ltac:(lia) cs (Fenwick.allocate m)
              (filled (2 ^ m - 1 + 1) 0)) as (s & Hr & Hn' & Hk' & Hs'); [exact Hn| | |exact Hv|].
  - revert Hs. apply stores_eqm. intros j Hj. rewrite get_filled by lia. reflexivity.
  - apply length_filled. lia.
  - exists s. split; [exact Hr|]. split.
    + split; [exact Hm|]. split; [exact Hn'|]. congruence.
    + unfold implied_array. rewrite Hn'. exact Hs'.
Qed.

Lemma sum_block_lowbit f i :
  1 <= i <= max_size -> sum64 f (i - lowbit i + 1) i = Int64.wrap (isum f (i - lb i + 1) i).
Proof.
  unfold max_size. intros H. rewrite lowbit_lb by lia. apply sum64_wrap.
Qed.

(** * Range update, point query *)

Lemma total64_wrap ds : total64 ds = Int64.wrap (zsum ds).
Proof.
  unfold total64. rewrite <- wrap_0 at 1.
  assert (G : forall z, fold_left Int64.add ds (Int64.wrap z) = Int64.wrap (z + zsum ds)).
  { unfold zsum. induction ds as [|d ds IH]; intros z; cbn [fold_left fold_right].
    - f_equal. lia.
    - rewrite add64_wrap_l, IH. f_equal. lia. }
  rewrite G. reflexivity.
Qed.

Section Rupq.
Import Fenwick.

Lemma rupq_update_spec s D l r delta :
  stores s D -> n s <= max_size -> 1 <= l <= r -> r <= n s ->
  exists s' D', rupq_update s l r delta = Ok s' /\ n s' = n s /\ nmask s' = nmask s /\
                stores s' D' /\
                forall idx, 1 <= idx <= n s ->
                            isum D' 1 idx
                            = isum D 1 idx
                              + (if (l <=? idx) && (idx <=? r) then delta else 0).
Proof.
  intros Hs Hn Hl Hr. unfold rupq_update.
  destruct (update_spec s D l delta Hs Hn ltac:(lia)) as (s1 & Hu & Hn1 & Hm1 & Hs1).
  rewrite Hu. cbn [bind]. rewrite Hn1.
  destruct (Z.ltb_spec r (n s)) as [Hlt|Hge].
  - unfold max_size in *. rewrite Int_add_id by lia.
    destruct (update_spec s1 _ (r + 1) (Int64.neg delta) Hs1)
      as (s2 & Hu2 & Hn2 & Hm2 & Hs2); unfold max_size; try lia.
    exists s2, (fun j => if j =? r + 1
                         then (if j =? l then D j + delta else D j) + - delta
                         else if j =? l then D j + delta else D j).
    split; [exact Hu2|]. split; [lia|]. split; [congruence|]. split.
    + revert Hs2. apply stores_eqm. intros j Hj.
      destruct (j =? r + 1); [|reflexivity].
      unfold Int64.neg. rewrite eqm_wrap. reflexivity.
    + intros idx Hidx.
      rewrite (isum_upd (fun j => if j =? l then D j + delta else D j)), isum_upd.
      destruct (Z.leb_spec 1 l), (Z.leb_spec l idx), (Z.leb_spec 1 (r + 1)),
        (Z.leb_spec (r + 1) idx), (Z.leb_spec idx r); cbn [andb]; lia.
  - exists s1, (fun j => if j =? l then D j + delta else D j).
    split; [reflexivity|]. split; [exact Hn1|]. split; [exact Hm1|].
    split; [exact Hs1|].
    intros idx Hidx. rewrite isum_upd.
    destruct (Z.leb_spec 1 l), (Z.leb_spec l idx), (Z.leb_spec idx r); cbn [andb]; lia.
Qed.

Lemma covering_cons l r delta ups idx :
  zsum (covering ((l, r, delta) :: ups) idx)
  = (if (l <=? idx) && (idx <=? r) then delta else 0) + zsum (covering ups idx).
Proof.
  unfold covering. cbn [filter fst snd].
  unfold zsum. destruct ((l <=? idx) && (idx <=? r)); cbn [map fold_right snd]; lia.
Qed.

Lemma rupq_updates_spec N ups : forall s D acc,
  0 <= N <= max_size -> n s = N -> stores s D ->
  (forall idx, 1 <= idx <= N -> eqm (isum D 1 idx) (acc idx)) ->
  Forall (valid_range N) ups ->
  exists s', rupq_updates s ups = Ok s' /\ n s' = N /\ nmask s' = nmask s /\
             forall idx, 1 <= idx <= N ->
                         rupq_access s' idx
                         = Ok (Int64.wrap (acc idx + zsum (covering ups idx))).
Proof.
  induction ups as [|[[l r] delta] ups IH]; intros s D acc HN Hn Hs Hacc Hv.
  - exists s. split; [reflexivity|]. split; [exact Hn|]. split; [reflexivity|].
    intros idx Hidx. unfold rupq_access.
    rewrite (prefix_sum_spec s D idx) by (auto; lia).
    f_equal. apply wrap_eqm. rewrite (Hacc idx Hidx). apply eq_eqm. unfold covering, zsum. cbn [filter map fold_right]. lia.
  - inversion Hv as [|u us Hu Hus]; subst u us.
    destruct Hu as [Hl Hr]. cbn [fst snd] in Hl, Hr.
    destruct (rupq_update_spec s D l r delta Hs ltac:(lia) Hl ltac:(lia))
      as (s1 & D1 & Hu1 & Hn1 & Hm1 & Hs1 & HD1).
    destruct (IH s1 D1 (fun idx => acc idx + (if (l <=? idx) && (idx <=? r) then delta else 0))
                HN ltac:(lia) Hs1) as (s' & Hr' & Hn' & Hm' & Hq); [|exact Hus|].
    + intros idx Hidx. rewrite HD1 by lia. rewrite (Hacc idx Hidx). reflexivity.
    + exists s'. cbn [rupq_updates]. rewrite Hu1. cbn [bind].
      split; [exact Hr'|]. split; [exact Hn'|]. split; [congruence|].
      intros idx Hidx. rewrite (Hq idx Hidx). f_equal. rewrite covering_cons. f_equal. lia.
Qed.
End Rupq.

(** * The base tree: statements *)

(** C3. After any sequence of [update], [construct], [fast_construct] and
    [clear] calls with valid arguments on a tree of order [m], every node
    [T[i]] holds the [int64_t] sum of the implied logical array over
    [(i - lowbit i, i]]. *)
Theorem block_invariant m cs :
  1 <= m <= 30 -> Forall (valid_mutation (2 ^ m - 1)) cs ->
  exists s, mutate_all (Fenwick.allocate m) cs = Ok s /\
            Fenwick.n s = 2 ^ m - 1 /\
            forall i, 1 <= i <= Fenwick.n s ->
                      get (Fenwick.T s) i
                      = sum64 (get (implied_array (Fenwick.n s) cs)) (i - lowbit i + 1) i.
Proof.
  intros Hm Hv. destruct (allocated_run m cs Hm Hv) as (s & Hr & Ho & Hs).
  pose proof (order_size s m Ho) as Hsz. destruct Ho as (_ & Hn & _).
  exists s. split; [exact Hr|]. split; [exact Hn|].
  intros i Hi. rewrite sum_block_lowbit by lia. destruct Hs as [_ Hs]. apply Hs, Hi.
Qed.

Lemma block_invariant_witness :
  exists s, mutate_all (Fenwick.allocate 2)
              [Update 1 5; Construct [0; 4; 7; 9]; Update 3 (-2);
               FastConstruct [0; 1; 2; 3]; Clear; Update 2 6] = Ok s /\
            Fenwick.n s = 2 ^ 2 - 1 /\
            forall i, 1 <= i <= Fenwick.n s ->
                      get (Fenwick.T s) i
                      = sum64 (get (implied_array (Fenwick.n s)
                                      [Update 1 5; Construct [0; 4; 7; 9]; Update 3 (-2);
                                       FastConstruct [0; 1; 2; 3]; Clear; Update 2 6]))
                              (i - lowbit i + 1) i.
Proof.
  apply (block_invariant 2); [lia|].
  repeat constructor; cbn; lia.
Defined.

Lemma updated_tree m ups :
  1 <= m <= 30 -> Forall (fun u => 1 <= fst u <= 2 ^ m - 1) ups ->
  exists s, mutate_all (Fenwick.allocate m) (point_updates ups) = Ok s /\
            order s m /\
            stores s (get (implied_array (Fenwick.n s) (point_updates ups))) /\
            int64s (implied_array (Fenwick.n s) (point_updates ups)).
Proof.
  intros Hm Hv.
  destruct (allocated_run m (point_updates ups) Hm) as (s & Hr & Ho & Hs).
  { apply point_updates_valid, Hv. }
  exists s. split; [exact Hr|]. split; [exact Ho|]. split; [exact Hs|].
  apply point_updates_int64s, int64s_filled.
Qed.

(** C5. On every tree reached by point updates, [access] and [fast_access]
    agree at every valid index: both return the logical element. *)
Theorem access_fast_access m ups :
  1 <= m <= 30 -> Forall (fun u => 1 <= fst u <= 2 ^ m - 1) ups ->
  exists s, mutate_all (Fenwick.allocate m) (point_updates ups) = Ok s /\
            Fenwick.n s = 2 ^ m - 1 /\
            forall idx, 1 <= idx <= Fenwick.n s ->
                        Fenwick.access s idx = Fenwick.fast_access s idx /\
                        Fenwick.fast_access s idx
                        = Ok (get (implied_array (Fenwick.n s) (point_updates ups)) idx).
Proof.
  intros Hm Hv. destruct (updated_tree m ups Hm Hv) as (s & Hr & Ho & Hs & Hi).
  pose proof (order_size s m Ho) as Hsz.
  exists s. split; [exact Hr|]. split; [apply Ho|]. intros idx Hidx.
  rewrite (access_spec s _ idx Hs) by lia.
  rewrite (fast_access_spec s _ idx Hs) by lia.
  split; [reflexivity|]. f_equal. apply Int64_wrap_small, int64s_get, Hi.
Qed.

Lemma access_fast_access_witness :
  exists s, mutate_all (Fenwick.allocate 3) (point_updates [(3, 5); (7, -2); (3, 4); (1, 9)])
            = Ok s /\
            Fenwick.n s = 2 ^ 3 - 1 /\
            forall idx, 1 <= idx <= Fenwick.n s ->
                        Fenwick.access s idx = Fenwick.fast_access s idx /\
                        Fenwick.fast_access s idx
                        = Ok (get (implied_array (Fenwick.n s)
                                     (point_updates [(3, 5); (7, -2); (3, 4); (1, 9)])) idx).
Proof.
  apply (access_fast_access 3); [lia|].
  repeat constructor; cbn; lia.
Defined.

(** C6. On every tree reached by point updates, [range_sum] and
    [fast_range_sum] agree on every range [1 <= l <= r <= n]: both return
    the [int64_t] sum of the logical array over [l .. r]. *)
Theorem range_sum_fast_range_sum m ups :
  1 <= m <= 30 -> Forall (fun u => 1 <= fst u <= 2 ^ m - 1) ups ->
  exists s, mutate_all (Fenwick.allocate m) (point_updates ups) = Ok s /\
            Fenwick.n s = 2 ^ m - 1 /\
            forall l r, 1 <= l <= r -> r <= Fenwick.n s ->
                        Fenwick.range_sum s l r = Fenwick.fast_range_sum s l r /\
                        Fenwick.fast_range_sum s l r
                        = Ok (sum64 (get (implied_array (Fenwick.n s) (point_updates ups))) l r).
Proof.
  intros Hm Hv. destruct (updated_tree m ups Hm Hv) as (s & Hr & Ho & Hs & Hi).
  pose proof (order_size s m Ho) as Hsz.
  exists s. split; [exact Hr|]. split; [apply Ho|]. intros l r Hl Hrn.
  rewrite (range_sum_spec s _ l r Hs) by lia.
  rewrite (fast_range_sum_spec s _ l r Hs) by lia.
  split; [reflexivity|]. rewrite sum64_wrap. reflexivity.
Qed.

Lemma range_sum_fast_range_sum_witness :
  exists s, mutate_all (Fenwick.allocate 3) (point_updates [(3, 5); (7, -2); (3, 4); (1, 9)])
            = Ok s /\
            Fenwick.n s = 2 ^ 3 - 1 /\
            forall l r, 1 <= l <= r -> r <= Fenwick.n s ->
                        Fenwick.range_sum s l r = Fenwick.fast_range_sum s l r /\
                        Fenwick.fast_range_sum s l r
                        = Ok (sum64 (get (implied_array (Fenwick.n s)
                                            (point_updates [(3, 5); (7, -2); (3, 4); (1, 9)])))
                                    l r).
Proof.
  apply (range_sum_fast_range_sum 3); [lia|].
  repeat constructor; cbn; lia.
Defined.

(** C7. [fast_construct] on an array of [n + 1] [int64_t] values, then
    [access] at every index of [1 .. n], gives back the original values; the
    array handed in comes back as its running sums, with slot 0 zeroed. *)
Theorem fast_construct_access s m arr :
  order s m -> Z.of_nat (length (Fenwick.T s)) = Fenwick.n s + 1 ->
  Z.of_nat (length arr) = Fenwick.n s + 1 -> int64s arr ->
  exists s' arr', Fenwick.fast_construct s arr = Ok (s', arr') /\
                  (forall i, 1 <= i <= Fenwick.n s -> Fenwick.access s' i = Ok (get arr i)) /\
                  get arr' 0 = 0 /\
                  forall i, 1 <= i <= Fenwick.n s -> get arr' i = sum64 (get arr) 1 i.
Proof.
  intros Ho Hlen Hla Hi. pose proof (order_size s m Ho) as Hsz.
  destruct (fast_construct_spec s arr Hlen Hla ltac:(lia))
    as (s' & arr' & Hf & Hn' & Hm' & Hs' & Hla' & H0 & Hcum).
  exists s', arr'. split; [exact Hf|]. split; [|split; [exact H0|]].
  - intros i Hidx. rewrite (access_spec s' (get arr) i Hs') by lia.
    f_equal. apply Int64_wrap_small, int64s_get, Hi.
  - intros i Hidx. rewrite sum64_wrap. apply Hcum, Hidx.
Qed.

Lemma fast_construct_access_witness :
  exists s' arr', Fenwick.fast_construct (Fenwick.allocate 2) [7; 5; -3; 8] = Ok (s', arr') /\
                  (forall i, 1 <= i <= Fenwick.n (Fenwick.allocate 2) ->
                             Fenwick.access s' i = Ok (get [7; 5; -3; 8] i)) /\
                  get arr' 0 = 0 /\
                  forall i, 1 <= i <= Fenwick.n (Fenwick.allocate 2) ->
                            get arr' i = sum64 (get [7; 5; -3; 8]) 1 i.
Proof.
  apply (fast_construct_access (Fenwick.allocate 2) 2).
  - apply allocate_spec. lia.
  - reflexivity.
  - reflexivity.
  - repeat constructor; apply Int64_in_range_iff; lia.
Defined.

(** C10. On a freshly allocated tree driven only through [rupq_update],
    [rupq_access idx] returns the [int64_t] sum of the deltas of exactly the
    updates whose range holds [idx]. *)
Theorem rupq_access_covering m ups :
  1 <= m <= 30 -> Forall (valid_range (2 ^ m - 1)) ups ->
  exists s, rupq_updates (Fenwick.allocate m) ups = Ok s /\
            forall idx, 1 <= idx <= 2 ^ m - 1 ->
                        Fenwick.rupq_access s idx = Ok (total64 (covering ups idx)).
Proof.
  intros Hm Hv. destruct (allocate_spec m Hm) as (Ho & Hs).
  pose proof (order_size _ _ Ho) as Hsz. destruct Ho as (_ & Hn & _).
  destruct (rupq_updates_spec (2 ^ m - 1) ups (Fenwick.allocate m) (fun _ => 0) (fun _ => 0))
    as (s & Hr & Hn' & _ & Hq); auto; try lia.
  - intros idx Hidx. rewrite isum_const0. reflexivity.
  - exists s. split; [exact Hr|]. intros idx Hidx.
    rewrite (Hq idx Hidx), total64_wrap. reflexivity.
Qed.

Lemma rupq_access_covering_witness :
  exists s, rupq_updates (Fenwick.allocate 3) [(2, 5, 10); (4, 7, 1); (1, 1, -3)] = Ok s /\
            forall idx, 1 <= idx <= 2 ^ 3 - 1 ->
                        Fenwick.rupq_access s idx
                        = Ok (total64 (covering [(2, 5, 10); (4, 7, 1); (1, 1, -3)] idx)).
Proof.
  apply (rupq_access_covering 3); [lia|].
  repeat constructor; cbn; lia.
Defined.

(** C4. [fast_search] against [search] at [val = INT64_MIN] on the empty
    tree of order 1: [val--] wraps to [INT64_MAX], every node fits the
    budget, and the descent runs to [n + 1 = 2], while the linear scan
    stops at 1. *)
Theorem fast_search_at_int64_min :
  Fenwick.search (Fenwick.allocate 1) Int64.min_signed = Ok 1 /\
  Fenwick.fast_search (Fenwick.allocate 1) Int64.min_signed = Ok 2.
Proof. split; vm_compute; reflexivity. Qed.

(** Away from [INT64_MIN] the two searches agree: on non-negative elements
    whose total fits an [int64_t], both return the first position whose
    prefix sum reaches [val]. *)
Theorem fast_search_search s m f val :
  order s m -> stores s f ->
  (forall j, 1 <= j <= Fenwick.n s -> 0 <= f j) ->
  isum f 1 (Fenwick.n s) <= Int64.max_signed ->
  Int64.min_signed < val <= Int64.max_signed ->
  exists k, Fenwick.fast_search s val = Ok k /\ Fenwick.search s val = Ok k /\
            first_reaching (isum f 1) (Fenwick.n s) val k.
Proof.
  intros Ho Hs Hf Htot Hval. pose proof (order_size s m Ho) as Hsz.
  destruct (fast_search_spec s m f val Ho Hs Hf Htot Hval) as (k & Hk & Hfr).
  destruct (search_spec s f val Hs ltac:(lia)) as (k' & Hk' & Hfr').
  exists k. split; [exact Hk|]. split; [|exact Hfr].
  rewrite Hk'. f_equal.
  apply (first_reaching_unique (isum f 1) (Fenwick.n s) val); [|exact Hfr].
  destruct Hfr' as (Hb & Hlo & Hup). unfold Int64.max_signed in *.
  assert (HP : forall j, 0 <= j <= Fenwick.n s -> Int64.wrap (isum f 1 j) = isum f 1 j).
  { intros j Hj. apply Int64_wrap_small, Int64_in_range_iff.
    pose proof (isum_mono f (Fenwick.n s) j (Fenwick.n s) Hf ltac:(lia) ltac:(lia)).
    pose proof (isum_mono f (Fenwick.n s) 0 j Hf ltac:(lia) ltac:(lia)) as Hz.
    rewrite (isum_empty f 1 0) in Hz by lia. lia. }
  split; [exact Hb|]. split.
  - intros j Hj. rewrite <- HP by lia. apply Hlo, Hj.
  - intros Hkn. rewrite <- HP by lia. apply Hup, Hkn.
Qed.

(** * The two-tree structure: statements *)

(** C1. One range update [update(1, 1, 5)] on the empty structure of order
    2, then [range_sum(1, 2)]: the structure answers [-5], the array
    simulation [5].  The second tree receives [delta * r] at [r + 1] where
    the difference encoding needs [-(delta * r)]. *)
Theorem rurq_range_sum_past_update :
  exists s, rurq_updates (FenwickRURQ.make 2) [(1, 1, 5)] = Ok s /\
            FenwickRURQ.range_sum s 1 2 = Ok (-5) /\
            sum64 (get (range_adds (filled 4 0) [(1, 1, 5)])) 1 2 = 5.
Proof.
  eexists. split; [vm_compute; reflexivity|]. split; vm_compute; reflexivity.
Qed.

(** * The range-minimum structure: statements *)

(** C9. A [query] whose range is empty or leaves [1 .. n] returns
    [INT_MAX], whatever the state, and leaves the state as it was. *)
Theorem query_outside s from to :
  to < from \/ from < 1 \/ FenwickRMQ.n s < to ->
  FenwickRMQ.step s (FenwickRMQ.Query from to) = Ok (s, Some INT_MAX).
Proof.
  intros H. cbn [FenwickRMQ.step]. unfold FenwickRMQ.query.
  destruct (Z.ltb_spec from 1); [reflexivity|].
  destruct (Z.ltb_spec (FenwickRMQ.n s) to); [reflexivity|].
  destruct (Z.ltb_spec to from); [reflexivity|]. lia.
Qed.

Lemma query_outside_witness :
  (4 < 5 \/ 5 < 1 \/ FenwickRMQ.n (FenwickRMQ.make 7) < 4) /\
  FenwickRMQ.step (FenwickRMQ.make 7) (FenwickRMQ.Query 5 4)
  = Ok (FenwickRMQ.make 7, Some INT_MAX).
Proof.
  split; [left; lia|]. apply (query_outside (FenwickRMQ.make 7) 5 4). left. lia.
Defined.

(** * fenwick_2d.h *)

Lemma isum_add f g lo hi :
  isum (fun i => f i + g i) lo hi = isum f lo hi + isum g lo hi.
Proof.
  destruct (Z_lt_ge_dec hi lo) as [Hlt|Hge].
  { rewrite !isum_empty by lia. reflexivity. }
  assert (Hhi : lo - 1 <= hi) by lia. clear Hge.
  pattern hi. apply range_ind with (lo := lo); [| |lia].
  - rewrite !isum_empty by lia. reflexivity.
  - intros h Hh IH.
    rewrite (isum_snoc _ lo h), (isum_snoc f lo h), (isum_snoc g lo h) by lia.
    rewrite IH. lia.
Qed.

Lemma isum_sub f g lo hi :
  isum (fun i => f i - g i) lo hi = isum f lo hi - isum g lo hi.
Proof.
  destruct (Z_lt_ge_dec hi lo) as [Hlt|Hge].
  { rewrite !isum_empty by lia. reflexivity. }
  assert (Hhi : lo - 1 <= hi) by lia. clear Hge.
  pattern hi. apply range_ind with (lo := lo); [| |lia].
  - rewrite !isum_empty by lia. reflexivity.
  - intros h Hh IH.
    rewrite (isum_snoc _ lo h), (isum_snoc f lo h), (isum_snoc g lo h) by lia.
    rewrite IH. lia.
Qed.

Section GridFacts.
Import Fenwick2D.

Variable N : Z.
Hypothesis HN : 0 <= N <= max_size2.

Lemma mul_bound y : 0 <= y <= N -> 0 <= (N + 1) * y <= (N + 1) * N.
Proof.
intros Hy. split.
- apply Z.mul_nonneg_nonneg; lia.
- apply Z.mul_le_mono_nonneg_l; lia.
Qed.

Lemma square_bound : (N + 1) * N <= 32768 * 32767.
Proof.
unfold max_size2 in HN. apply Z.mul_le_mono_nonneg; lia.
Qed.

Lemma pos_flat x y : 0 <= x <= N -> 0 <= y <= N -> pos N x y = (N + 1) * y + x.
Proof.
pose proof HN as HN'. unfold max_size2 in HN'. intros Hx Hy. unfold pos.
rewrite (Int_add_id N 1) by lia.
pose proof (mul_bound y Hy). pose proof square_bound.
rewrite (Int_mul_id (N + 1) y) by lia. apply Int_add_id. lia.
Qed.

Lemma pos_bound x y :
0 <= x <= N -> 0 <= y <= N -> 0 <= (N + 1) * y + x < (N + 1) * (N + 1).
Proof.
intros Hx Hy. pose proof (mul_bound y Hy).
replace ((N + 1) * (N + 1)) with ((N + 1) * N + (N + 1)) by ring. lia.
Qed.

Lemma pos_apart x y x' y' :
0 <= x <= N -> 0 <= x' <= N -> y < y' -> (N + 1) * y + x < (N + 1) * y' + x'.
Proof.
intros Hx Hx' Hy.
assert ((N + 1) * (y + 1) <= (N + 1) * y') by (apply Z.mul_le_mono_nonneg_l; lia).
replace ((N + 1) * (y + 1)) with ((N + 1) * y + (N + 1)) in * by ring. lia.
Qed.

Lemma pos_eqb x y x' y' :
0 <= x <= N -> 0 <= x' <= N -> 0 <= y -> 0 <= y' ->
((N + 1) * y' + x' =? (N + 1) * y + x) = (x' =? x) && (y' =? y).
Proof.
intros Hx Hx' Hy Hy'.
destruct (Z.lt_trichotomy y y') as [H|[H|H]].
- pose proof (pos_apart x y x' y' Hx Hx' H).
  replace (y' =? y) with false by (symmetry; apply Z.eqb_neq; lia).
  rewrite andb_false_r. apply Z.eqb_neq. lia.
- subst y'. rewrite Z.eqb_refl, andb_true_r.
  destruct (Z.eqb_spec x' x) as [Ex|Ex]; [apply Z.eqb_eq | apply Z.eqb_neq]; lia.
- pose proof (pos_apart x' y' x y Hx' Hx H).
  replace (y' =? y) with false by (symmetry; apply Z.eqb_neq; lia).
  rewrite andb_false_r. apply Z.eqb_neq. lia.
Qed.

(** The inner loop of [update]: one column. *)
Lemma update_column T0 xc y delta :
Z.of_nat (length T0) = (N + 1) * (N + 1) -> 1 <= xc <= N -> 1 <= y <= N ->
exists st, while (budget (N + 1 - y))
             (fun '(yy, T) => yy <=? N)
             (fun '(yy, T) =>
                v <- rd T (pos N xc yy) ;;
                T' <- wr T (pos N xc yy) (Int64.add v delta) ;;
                Ok (Int.add yy (lowbit yy), T'))
             (y, T0) = Ok st /\
           Z.of_nat (length (snd st)) = (N + 1) * (N + 1) /\
           forall x' y', 1 <= x' <= N -> 1 <= y' <= N ->
                         get (snd st) ((N + 1) * y' + x')
                         = if (x' =? xc) && in_block y' y
                           then Int64.add (get T0 ((N + 1) * y' + x')) delta
                           else get T0 ((N + 1) * y' + x').
Proof.
intros Hlen Hxc Hy. pose proof HN as HN'. unfold max_size2 in HN'.
destruct (while_rule
            (fun st : Z * list Z =>
               let '(c, Tc) := st in
               Z.of_nat (length Tc) = (N + 1) * (N + 1) /\ 0 < c /\ in_block c y = true /\
               forall x' y', 1 <= x' <= N -> 1 <= y' <= N ->
                             get Tc ((N + 1) * y' + x')
                             = if (x' =? xc) && in_block y' y && (y' <? c)
                               then Int64.add (get T0 ((N + 1) * y' + x')) delta
                               else get T0 ((N + 1) * y' + x'))
            (fun st : Z * list Z => Z.to_nat (N + 1 - fst st))
            (fun '(yy, T) => yy <=? N)
            (fun '(yy, T) =>
                v <- rd T (pos N xc yy) ;;
                T' <- wr T (pos N xc yy) (Int64.add v delta) ;;
                Ok (Int.add yy (lowbit yy), T')))
  with (fuel := budget (N + 1 - y)) (s := (y, T0)) as (st & Hw & Hinv & Hexit).
- intros [c Tc] (HlenT & Hc0 & Hblk & HT) Hcond. simpl in Hcond.
  apply Z.leb_le in Hcond. apply in_block_iff in Hblk.
  cbn beta iota. rewrite pos_flat by lia.
  pose proof (pos_bound xc c ltac:(lia) ltac:(lia)) as Hpb.
  access. rewrite step_up by (unfold max_size; lia).
  pose proof (lb_bounds c Hc0) as Hlb. pose proof (lb_up c Hc0) as Hup.
  eexists. split; [reflexivity|]. cbn [fst]. split; [|lia].
  split; [rewrite length_set; exact HlenT|]. split; [lia|].
  split; [apply in_block_iff; lia|].
  intros x' y' Hx' Hy'. rewrite get_set by lia.
  rewrite pos_eqb by lia. rewrite (HT xc c) by lia.
  destruct (Z.eqb_spec x' xc) as [->|Hnx]; cbn [andb].
  + destruct (Z.eqb_spec y' c) as [->|Hny].
    * replace (in_block c y) with true by (symmetry; apply in_block_iff; lia).
      rewrite Z.eqb_refl, Z.ltb_irrefl. cbn [andb].
      replace (c <? c + lb c) with true by (symmetry; apply Z.ltb_lt; lia).
      reflexivity.
    * rewrite (HT xc y') by lia. rewrite Z.eqb_refl. cbn [andb].
      destruct (in_block y' y) eqn:Hb; cbn [andb]; [|reflexivity].
      apply in_block_iff in Hb.
      destruct (Z.ltb_spec y' c), (Z.ltb_spec y' (c + lb c)); try reflexivity; try lia.
      destruct (lb_apart c y' ltac:(lia)); lia.
  + rewrite (HT x' y') by lia.
    replace (x' =? xc) with false by (symmetry; apply Z.eqb_neq; lia). reflexivity.
- cbn beta iota. split; [exact Hlen|]. split; [lia|].
  split; [apply in_block_self; lia|].
  intros x' y' Hx' Hy'. destruct ((x' =? xc) && in_block y' y) eqn:Hb; cbn [andb]; [|reflexivity].
  apply andb_true_iff in Hb. destruct Hb as [_ Hb]. apply in_block_iff in Hb.
  destruct (Z.ltb_spec y' y); [lia | reflexivity].
- unfold budget. cbn [fst]. lia.
- exists st. split; [exact Hw|]. destruct st as [c Tc].
  destruct Hinv as (HlenT & Hc0 & Hblk & HT).
  simpl in Hexit. apply Z.leb_gt in Hexit. cbn [snd].
  split; [exact HlenT|]. intros x' y' Hx' Hy'. rewrite (HT x' y' Hx' Hy').
  replace (y' <? c) with true by (symmetry; apply Z.ltb_lt; lia).
  rewrite andb_true_r. reflexivity.
Qed.

(** [update] adds [delta] to the cells whose two blocks hold [(x, y)]. *)
Lemma update_cells s x y delta :
n s = N -> Z.of_nat (length (T s)) = (N + 1) * (N + 1) -> 1 <= x <= N -> 1 <= y <= N ->
exists T', update s x y delta = Ok {| n := N; T := T' |} /\
           Z.of_nat (length T') = (N + 1) * (N + 1) /\
           forall x' y', 1 <= x' <= N -> 1 <= y' <= N ->
                         get T' ((N + 1) * y' + x')
                         = if in_block x' x && in_block y' y
                           then Int64.add (get (T s) ((N + 1) * y' + x')) delta
                           else get (T s) ((N + 1) * y' + x').
Proof.
intros Hn Hlen Hx Hy. pose proof HN as HN'. unfold max_size2 in HN'.
unfold update. rewrite Hn.
run_while (fun st : Z * list Z =>
             let '(c, Tc) := st in
             Z.of_nat (length Tc) = (N + 1) * (N + 1) /\ 0 < c /\ in_block c x = true /\
             forall x' y', 1 <= x' <= N -> 1 <= y' <= N ->
                           get Tc ((N + 1) * y' + x')
                           = if in_block x' x && (x' <? c) && in_block y' y
                             then Int64.add (get (T s) ((N + 1) * y' + x')) delta
                             else get (T s) ((N + 1) * y' + x'))
          (fun st : Z * list Z => Z.to_nat (N + 1 - fst st)).
- intros [c Tc] (HlenT & Hc0 & Hblk & HT) Hcond. simpl in Hcond.
  apply Z.leb_le in Hcond. apply in_block_iff in Hblk.
  cbn beta iota.
  destruct (update_column Tc c y delta HlenT ltac:(lia) Hy) as ([yy T1] & Hw & HlenT1 & HT1).
  rewrite Hw. cbn [bind snd] in *. rewrite step_up by (unfold max_size; lia).
  pose proof (lb_bounds c Hc0) as Hlb. pose proof (lb_up c Hc0) as Hup.
  eexists. split; [reflexivity|]. cbn [fst]. split; [|lia].
  split; [exact HlenT1|]. split; [lia|].
  split; [apply in_block_iff; lia|].
  intros x' y' Hx' Hy'. rewrite (HT1 x' y' Hx' Hy'), (HT x' y' Hx' Hy').
  destruct (Z.eqb_spec x' c) as [->|Hnx]; cbn [andb].
  + replace (in_block c x) with true by (symmetry; apply in_block_iff; lia).
    rewrite Z.ltb_irrefl. cbn [andb].
    replace (c <? c + lb c) with true by (symmetry; apply Z.ltb_lt; lia).
    cbn [andb]. reflexivity.
  + destruct (in_block x' x) eqn:Hb; cbn [andb]; [|reflexivity].
    apply in_block_iff in Hb.
    destruct (Z.ltb_spec x' c), (Z.ltb_spec x' (c + lb c)); try reflexivity; try lia.
    destruct (lb_apart c x' ltac:(lia)); lia.
- cbn beta iota. split; [exact Hlen|]. split; [lia|].
  split; [apply in_block_self; lia|].
  intros x' y' Hx' Hy'. destruct (in_block x' x) eqn:Hb; cbn [andb]; [|reflexivity].
  apply in_block_iff in Hb.
  destruct (Z.ltb_spec x' x); [lia | reflexivity].
- unfold budget. cbn [fst]. lia.
- destruct st as [c Tc]. destruct Hinv as (HlenT & Hc0 & Hblk & HT).
  simpl in Hexit. apply Z.leb_gt in Hexit. cbn [bind].
  exists Tc. split; [reflexivity|]. split; [exact HlenT|].
  intros x' y' Hx' Hy'. rewrite (HT x' y' Hx' Hy').
  replace (x' <? c) with true by (symmetry; apply Z.ltb_lt; lia).
  rewrite andb_true_r. reflexivity.
Qed.

Lemma update2_spec s g x y delta :
n s = N -> stores2 s g -> 1 <= x <= N -> 1 <= y <= N ->
exists s', update s x y delta = Ok s' /\ n s' = N /\
           stores2 s' (fun i j => if (i =? x) && (j =? y) then g i j + delta else g i j).
Proof.
intros Hn [Hlen Hs] Hx Hy. rewrite Hn in Hlen, Hs.
destruct (update_cells s x y delta Hn Hlen Hx Hy) as (T' & Hu & HlenT & HT).
eexists. split; [exact Hu|]. split; [reflexivity|]. split; [exact HlenT|].
cbn [n T]. intros x' y' Hx' Hy'. rewrite (HT x' y' Hx' Hy'), (Hs x' y' Hx' Hy').
pose proof (lb_bounds x' ltac:(lia)) as Hlx. pose proof (lb_bounds y' ltac:(lia)) as Hly.
rewrite (isum_ext (fun i => isum (fun j => if (i =? x) && (j =? y) then g i j + delta else g i j)
                              (y' - lb y' + 1) y')
           (fun i => if i =? x
                     then isum (g i) (y' - lb y' + 1) y'
                          + (if in_block y' y then delta else 0)
                     else isum (g i) (y' - lb y' + 1) y')).
2:{ intros i Hi. destruct (Z.eqb_spec i x) as [->|Hne]; cbn [andb].
    - rewrite (isum_upd (g x) y delta). unfold in_block.
      replace (y' - lb y' + 1 <=? y) with (y' - lb y' <? y)
        by (destruct (Z.ltb_spec (y' - lb y') y), (Z.leb_spec (y' - lb y' + 1) y); lia).
      reflexivity.
    - apply isum_ext. intros j Hj. reflexivity. }
rewrite (isum_upd (fun i => isum (g i) (y' - lb y' + 1) y') x
           (if in_block y' y then delta else 0)).
set (by' := in_block y' y). unfold in_block.
replace (x' - lb x' + 1 <=? x) with (x' - lb x' <? x)
  by (destruct (Z.ltb_spec (x' - lb x') x), (Z.leb_spec (x' - lb x' + 1) x); lia).
destruct ((x' - lb x' <? x) && (x <=? x')); cbn [andb].
- destruct by'.
  + apply add64_wrap_l.
  + f_equal. lia.
- f_equal. lia.
Qed.

(** The inner loop of [prefix_sum]: one column block. *)
Lemma prefix_column s g xc y S0 :
n s = N -> stores2 s g -> 1 <= xc <= N -> 0 <= y <= N ->
exists st, while (budget y)
             (fun '(yy, sum) => 1 <=? yy)
             (fun '(yy, sum) =>
                v <- rd (T s) (pos (n s) xc yy) ;;
                Ok (Int.sub yy (lowbit yy), Int64.add sum v))
             (y, Int64.wrap S0) = Ok st /\
           snd st = Int64.wrap (S0 + isum (fun i => isum (g i) 1 y) (xc - lb xc + 1) xc).
Proof.
intros Hn [Hlen Hs] Hxc Hy. rewrite Hn in *.
pose proof HN as HN'. unfold max_size2 in HN'.
destruct (while_rule
            (fun st : Z * Z =>
               let '(c, sum) := st in
               0 <= c <= y /\
               sum = Int64.wrap (S0 + isum (fun i => isum (g i) (c + 1) y) (xc - lb xc + 1) xc))
            (fun st : Z * Z => Z.to_nat (fst st))
            (fun '(yy, sum) => 1 <=? yy)
            (fun '(yy, sum) =>
                v <- rd (T s) (pos N xc yy) ;;
                Ok (Int.sub yy (lowbit yy), Int64.add sum v)))
  with (fuel := budget y) (s := (y, Int64.wrap S0)) as (st & Hw & Hinv & Hexit).
- intros [c sum] (Hc & Hsum) Hcond. simpl in Hcond. apply Z.leb_le in Hcond.
  cbn beta iota. rewrite pos_flat by lia.
  pose proof (pos_bound xc c ltac:(lia) ltac:(lia)) as Hpb.
  access. rewrite step_down by lia.
  pose proof (lb_bounds c ltac:(lia)) as Hlb.
  eexists. split; [reflexivity|]. cbn [fst]. split; [|lia]. split; [lia|].
  rewrite Hsum, (Hs xc c) by lia. wrap64. apply eq_eqm.
  rewrite <- Z.add_assoc. f_equal. rewrite <- isum_add.
  apply isum_ext. intros i Hi.
  rewrite (isum_split (g i) (c - lb c + 1) c y) by lia. lia.
- cbn beta iota. split; [lia|]. f_equal.
  rewrite (isum_ext _ (fun _ => 0)), isum_const0; [lia|].
  intros i Hi. apply isum_empty. lia.
- unfold budget. cbn [fst]. lia.
- exists st. split; [exact Hw|]. destruct st as [c sum]. destruct Hinv as (Hc & Hsum).
  simpl in Hexit. apply Z.leb_gt in Hexit. cbn [snd].
  replace c with 0 in Hsum by lia. exact Hsum.
Qed.

Lemma prefix2_spec s g x y :
n s = N -> stores2 s g -> 0 <= x <= N -> 0 <= y <= N ->
prefix_sum s x y = Ok (Int64.wrap (isum (fun i => isum (g i) 1 y) 1 x)).
Proof.
intros Hn Hs Hx Hy. pose proof HN as HN'. unfold max_size2 in HN'.
unfold prefix_sum.
run_while (fun st : Z * Z =>
             let '(c, sum) := st in
             0 <= c <= x /\
             sum = Int64.wrap (isum (fun i => isum (g i) 1 y) (c + 1) x))
          (fun st : Z * Z => Z.to_nat (fst st)).
- intros [c sum] (Hc & Hsum) Hcond. simpl in Hcond. apply Z.leb_le in Hcond.
  cbn beta iota. rewrite Hsum.
  destruct (prefix_column s g c y (isum (fun i => isum (g i) 1 y) (c + 1) x) Hn Hs
              ltac:(lia) Hy) as ([yy sum1] & Hw & Hsum1).
  rewrite Hw. cbn [bind snd] in *. rewrite step_down by lia.
  pose proof (lb_bounds c ltac:(lia)) as Hlb.
  eexists. split; [reflexivity|]. cbn [fst]. split; [|lia]. split; [lia|].
  rewrite Hsum1. f_equal.
  rewrite (isum_split (fun i => isum (g i) 1 y) (c - lb c + 1) c x) by lia. lia.
- cbn beta iota. split; [lia|]. rewrite isum_empty by lia. reflexivity.
- unfold budget. cbn [fst]. lia.
- destruct st as [c sum]. destruct Hinv as (Hc & Hsum).
  simpl in Hexit. apply Z.leb_gt in Hexit. cbn [bind].
  replace c with 0 in Hsum by lia. rewrite Hsum. reflexivity.
Qed.

Lemma range_sum2_spec s g x1 y1 x2 y2 :
n s = N -> stores2 s g -> 1 <= x1 <= x2 -> x2 <= N -> 1 <= y1 <= y2 -> y2 <= N ->
range_sum s x1 y1 x2 y2 = Ok (Int64.wrap (isum (fun i => isum (g i) y1 y2) x1 x2)).
Proof.
intros Hn Hs Hx1 Hx2 Hy1 Hy2. pose proof HN as HN'. unfold max_size2 in HN'.
unfold range_sum.
assert (E : isum (fun i => isum (g i) y1 y2) x1 x2
            = isum (fun i => isum (g i) 1 y2) 1 x2
              - isum (fun i => isum (g i) 1 y2) 1 (x1 - 1)
              - isum (fun i => isum (g i) 1 (y1 - 1)) 1 x2
              + isum (fun i => isum (g i) 1 (y1 - 1)) 1 (x1 - 1)).
{ rewrite (isum_ext (fun i => isum (g i) y1 y2)
             (fun i => isum (g i) 1 y2 - isum (g i) 1 (y1 - 1))).
  2:{ intros i Hi. rewrite (isum_split (g i) 1 (y1 - 1) y2) by lia.
      replace (y1 - 1 + 1) with y1 by lia. lia. }
  rewrite isum_sub.
  rewrite (isum_split (fun i => isum (g i) 1 y2) 1 (x1 - 1) x2) by lia.
  rewrite (isum_split (fun i => isum (g i) 1 (y1 - 1)) 1 (x1 - 1) x2) by lia.
  replace (x1 - 1 + 1) with x1 by lia. lia. }
assert (Z1 : forall y, isum (fun i => isum (g i) 1 y) 1 (x1 - 1) = 0 \/ 1 < x1).
{ intros y. destruct (Z_lt_ge_dec 1 x1); [right; lia|left; apply isum_empty; lia]. }
assert (Z2 : forall x, isum (fun i => isum (g i) 1 (y1 - 1)) 1 x = 0 \/ 1 < y1).
{ intros x. destruct (Z_lt_ge_dec 1 y1); [right; lia|left].
  rewrite (isum_ext _ (fun _ => 0)), isum_const0; [reflexivity|].
  intros i Hi. apply isum_empty. lia. }
rewrite (prefix2_spec s g x2 y2 Hn Hs) by lia. cbn [bind].
destruct (Z.ltb_spec 1 x1) as [Hx|Hx]; destruct (Z.ltb_spec 1 y1) as [Hy|Hy]; cbn [andb].
- rewrite (Int_sub_id x1 1), (Int_sub_id y1 1) by lia.
  rewrite (prefix2_spec s g (x1 - 1) y2 Hn Hs) by lia. cbn [bind].
  rewrite (prefix2_spec s g x2 (y1 - 1) Hn Hs) by lia. cbn [bind].
  rewrite (prefix2_spec s g (x1 - 1) (y1 - 1) Hn Hs) by lia. cbn [bind].
  f_equal. wrap64. apply eq_eqm. lia.
- rewrite (Int_sub_id x1 1) by lia.
  rewrite (prefix2_spec s g (x1 - 1) y2 Hn Hs) by lia. cbn [bind].
  f_equal. wrap64. apply eq_eqm.
  destruct (Z2 x2) as [E2|?]; [|lia]. destruct (Z2 (x1 - 1)) as [E3|?]; [|lia]. lia.
- rewrite (Int_sub_id y1 1) by lia.
  rewrite (prefix2_spec s g x2 (y1 - 1) Hn Hs) by lia. cbn [bind].
  f_equal. wrap64. apply eq_eqm.
  destruct (Z1 y2) as [E2|?]; [|lia]. destruct (Z1 (y1 - 1)) as [E3|?]; [|lia]. lia.
- apply (f_equal Ok). apply (f_equal Int64.wrap).
  destruct (Z1 y2) as [E2|?]; [|lia]. destruct (Z1 (y1 - 1)) as [E3|?]; [|lia].
  destruct (Z2 x2) as [E4|?]; [|lia]. destruct (Z2 (x1 - 1)) as [E5|?]; [|lia]. lia.
Qed.
End GridFacts.

Lemma stores2_eqm s f g :
  (forall i j, eqm (f i j) (g i j)) -> stores2 s f -> stores2 s g.
Proof.
  intros Hfg [Hlen Hs]. split; [exact Hlen|].
  intros x y Hx Hy. rewrite (Hs x y Hx Hy). apply wrap_eqm, isum_eqm.
  intros i Hi. apply isum_eqm. intros j Hj. apply Hfg.
Qed.

Lemma pow2_bounds15 m : 0 <= m <= 15 -> 1 <= 2 ^ m <= 32768.
Proof.
  intros H. split.
  - change 1 with (2 ^ 0). apply Z.pow_le_mono_r; lia.
  - change 32768 with (2 ^ 15). apply Z.pow_le_mono_r; lia.
Qed.

Lemma allocate2_spec m :
  1 <= m <= 15 ->
  Fenwick2D.n (Fenwick2D.allocate m) = 2 ^ m - 1 /\
  stores2 (Fenwick2D.allocate m) (fun _ _ => 0).
Proof.
  intros Hm. pose proof (pow2_bounds15 m ltac:(lia)) as Hp.
  assert (Hn : Fenwick2D.n (Fenwick2D.allocate m) = 2 ^ m - 1).
  { unfold Fenwick2D.allocate. cbn [Fenwick2D.n].
    rewrite shl_1 by lia. apply Int_sub_id. lia. }
  assert (HN : 0 <= 2 ^ m - 1 <= max_size2) by (unfold max_size2; lia).
  assert (HT : Fenwick2D.T (Fenwick2D.allocate m)
               = filled ((2 ^ m - 1 + 1) * (2 ^ m - 1 + 1)) 0).
  { unfold Fenwick2D.allocate. cbn [Fenwick2D.T].
    rewrite shl_1 by lia. rewrite (Int_sub_id (2 ^ m) 1) by lia.
    rewrite (Int_add_id (2 ^ m - 1) 1) by lia.
    pose proof (mul_bound (2 ^ m - 1) HN (2 ^ m - 1) ltac:(lia)).
    pose proof (square_bound (2 ^ m - 1) HN).
    rewrite (Int_mul_id (2 ^ m - 1 + 1) (2 ^ m - 1 + 1)); [reflexivity|].
    replace ((2 ^ m - 1 + 1) * (2 ^ m - 1 + 1))
      with ((2 ^ m - 1 + 1) * (2 ^ m - 1) + (2 ^ m - 1 + 1)) by ring. lia. }
  split; [exact Hn|]. split.
  - rewrite HT, Hn. apply length_filled.
    apply Z.mul_nonneg_nonneg; lia.
  - intros x y Hx Hy. rewrite Hn in *. rewrite HT.
    rewrite get_filled by (apply (pos_bound (2 ^ m - 1) HN); lia).
    rewrite (isum_ext _ (fun _ => 0)), isum_const0; [reflexivity|].
    intros i Hi. apply isum_const0.
Qed.

Lemma grid_updates_spec N ups : forall s g,
  0 <= N <= max_size2 -> Fenwick2D.n s = N -> stores2 s g -> Forall (valid_cell N) ups ->
  exists s', grid_updates s ups = Ok s' /\ Fenwick2D.n s' = N /\
             stores2 s' (fold_left grid_add ups g).
Proof.
  induction ups as [|[[x y] delta] ups IH]; intros s g HN Hn Hs Hv.
  - exists s. split; [reflexivity|]. split; [exact Hn|exact Hs].
  - inversion Hv as [|u us Hu Hus]; subst u us. destruct Hu as [Hx Hy]. cbn [fst snd] in Hx, Hy.
    destruct (update2_spec N HN s g x y delta Hn Hs Hx Hy) as (s1 & Hu1 & Hn1 & Hs1).
    destruct (IH s1 (grid_add g (x, y, delta)) HN Hn1) as (s' & Hr & Hn' & Hs'); [|exact Hus|].
    + revert Hs1. apply stores2_eqm. intros i j. unfold grid_add. cbn [fst snd].
      destruct ((i =? x) && (j =? y)); [|reflexivity].
      unfold Int64.add. rewrite eqm_wrap. reflexivity.
    + exists s'. cbn [grid_updates fold_left]. rewrite Hu1. cbn [bind].
      split; [exact Hr|]. split; [exact Hn'|exact Hs'].
Qed.

Lemma rect64_wrap g x1 y1 x2 y2 :
  rect64 g x1 y1 x2 y2 = Int64.wrap (isum (fun i => isum (g i) y1 y2) x1 x2).
Proof.
  unfold rect64. rewrite sum64_wrap. apply wrap_eqm, isum_eqm.
  intros i Hi. rewrite sum64_wrap. apply eqm_wrap.
Qed.

(** C8. On a grid of order [m] created empty, after any sequence of point
    updates with [1 <= x, y <= n], [range_sum] over every rectangle of the
    grid is the brute-force double sum of the simulated grid. *)
Theorem grid_range_sum m ups :
  1 <= m <= 15 -> Forall (valid_cell (2 ^ m - 1)) ups ->
  exists s, grid_updates (Fenwick2D.allocate m) ups = Ok s /\
            forall x1 y1 x2 y2,
              1 <= x1 <= x2 -> x2 <= 2 ^ m - 1 -> 1 <= y1 <= y2 -> y2 <= 2 ^ m - 1 ->
              Fenwick2D.range_sum s x1 y1 x2 y2 = Ok (rect64 (grid_after ups) x1 y1 x2 y2).
Proof.
  intros Hm Hv. pose proof (pow2_bounds15 m ltac:(lia)) as Hp.
  assert (HN : 0 <= 2 ^ m - 1 <= max_size2) by (unfold max_size2; lia).
  destruct (allocate2_spec m Hm) as (Hn & Hs).
  destruct (grid_updates_spec (2 ^ m - 1) ups (Fenwick2D.allocate m) (fun _ _ => 0)
              HN Hn Hs Hv) as (s & Hr & Hn' & Hs').
  exists s. split; [exact Hr|]. intros x1 y1 x2 y2 Hx1 Hx2 Hy1 Hy2.
  rewrite (range_sum2_spec (2 ^ m - 1) HN s _ x1 y1 x2 y2 Hn' Hs' Hx1 Hx2 Hy1 Hy2).
  rewrite rect64_wrap. reflexivity.
Qed.

Lemma grid_range_sum_witness :
  exists s, grid_updates (Fenwick2D.allocate 2) [(2, 3, 5); (1, 1, 7); (2, 3, -1)] = Ok s /\
            forall x1 y1 x2 y2,
              1 <= x1 <= x2 -> x2 <= 2 ^ 2 - 1 -> 1 <= y1 <= y2 -> y2 <= 2 ^ 2 - 1 ->
              Fenwick2D.range_sum s x1 y1 x2 y2
              = Ok (rect64 (grid_after [(2, 3, 5); (1, 1, 7); (2, 3, -1)]) x1 y1 x2 y2).
Proof.
  apply (grid_range_sum 2); [lia|].
  repeat constructor; cbn; lia.
Defined.

(** * fenwick_rmq.h *)

Lemma minr_cons f lo hi :
  lo <= hi -> minr f lo hi = Z.min (f lo) (minr f (lo + 1) hi).
Proof.
  intros H. rewrite (minr_split f lo lo hi) by lia. rewrite minr_single.
  pose proof (minr_le_max f (lo + 1) hi). lia.
Qed.

Lemma minr_last f lo hi :
  lo <= hi -> minr f lo hi = Z.min (minr f lo (hi - 1)) (f hi).
Proof. apply minr_snoc. Qed.

(** A range seen from one of its points. *)
Lemma minr_at f lo idx hi :
  lo <= idx <= hi ->
  minr f lo hi = Z.min (minr f lo (idx - 1)) (Z.min (f idx) (minr f (idx + 1) hi)).
Proof.
  intros H. rewrite (minr_split f lo (idx - 1) hi) by lia.
  replace (idx - 1 + 1) with idx by lia. rewrite (minr_cons f idx hi) by lia. reflexivity.
Qed.

(** Two overlapping or adjacent scans cover their union. *)
Lemma minr_union f a b c d :
  a <= c -> c <= b + 1 -> b <= d ->
  Z.min (minr f a b) (minr f c d) = minr f a d.
Proof.
  intros H1 H2 H3.
  destruct (Z_lt_ge_dec b a) as [Hl|Hg].
  { rewrite (minr_empty f a b) by lia.
    assert (c = a) by lia. subst c. pose proof (minr_le_max f a d). lia. }
  rewrite (minr_split f a b d) by lia.
  rewrite (minr_split f c b d) by lia.
  pose proof (minr_mono f a b c b ltac:(lia) ltac:(lia)). lia.
Qed.

(** Repairing one node that covers [idx]: [cur] is its old aggregate,
    [ml] and [mr] the minima of the two sides of [idx]. *)
Lemma node_lowered old val ml mr :
  val <= Z.min ml (Z.min old mr) -> Z.min ml (Z.min val mr) = val.
Proof. lia. Qed.

Lemma node_kept old val ml mr :
  Z.min ml (Z.min old mr) < val -> Z.min ml (Z.min old mr) <> old ->
  Z.min ml (Z.min val mr) = Z.min ml (Z.min old mr).
Proof. lia. Qed.

Lemma node_rescanned val ml mr :
  Z.min ml (Z.min val mr) = Z.min val (Z.min ml mr).
Proof. lia. Qed.

Section SidesBasics.
Import FenwickRMQ.

Variable n : Z.
Variable f : Z -> Z.
Variable idx : Z.

Lemma sides_init_left l :
1 <= idx <= max_size -> l <= idx -> sides_left f idx l (SIDES_INIT idx).
Proof.
intros Hidx Hl. unfold max_size in *. unfold sides_left, SIDES_INIT. cbn [lr ll lmin].
rewrite (Int_sub_id idx 1) by lia.
split; [lia|]. split; [lia|]. split; [reflexivity|].
exists idx. split; [left; lia|]. rewrite minr_empty by lia. reflexivity.
Qed.

Lemma sides_init_right r :
1 <= idx <= n -> n <= max_size -> idx <= r -> sides_right f idx n r (SIDES_INIT idx).
Proof.
intros Hidx Hn Hr. unfold max_size in *. unfold sides_right, SIDES_INIT. cbn [rl rr rmin].
rewrite (Int_add_id idx 1) by lia.
split; [lia|]. split; [reflexivity|].
exists idx. split; [left; lia|]. rewrite minr_empty by lia. reflexivity.
Qed.

Lemma sides_left_mono l l' sd : l' <= l -> sides_left f idx l sd -> sides_left f idx l' sd.
Proof.
intros Hl (H1 & H2 & H3 & L & HL & Hm).
split; [exact H1|]. split; [lia|]. split; [exact H3|].
exists L. split; [|exact Hm]. destruct HL as [HL|[HL HL']]; [left; exact HL | right; lia].
Qed.

Lemma sides_right_mono r r' sd :
r <= r' -> sides_right f idx n r sd -> sides_right f idx n r' sd.
Proof.
intros Hr (H1 & H2 & R & HR & Hm).
split; [lia|]. split; [exact H2|].
exists R. split; [|exact Hm]. destruct HR as [HR|[HR HR']]; [left; exact HR | right; lia].
Qed.

Lemma minr_changed val lo hi :
lo <= idx <= hi ->
minr (fun j => if j =? idx then val else f j) lo hi
= Z.min (minr f lo (idx - 1)) (Z.min val (minr f (idx + 1) hi)).
Proof.
intros H. rewrite (minr_at _ lo idx hi H). rewrite Z.eqb_refl.
rewrite (minr_ext _ f lo (idx - 1)), (minr_ext _ f (idx + 1) hi); [reflexivity| |].
- intros j Hj. destruct (Z.eqb_spec j idx); [lia|reflexivity].
- intros j Hj. destruct (Z.eqb_spec j idx); [lia|reflexivity].
Qed.

Lemma minr_unchanged val lo hi :
idx < lo \/ hi < idx ->
minr (fun j => if j =? idx then val else f j) lo hi = minr f lo hi.
Proof.
intros H. apply minr_ext. intros j Hj. destruct (Z.eqb_spec j idx); [lia|reflexivity].
Qed.
End SidesBasics.

Section Sides.
Import FenwickRMQ.

Variable n : Z.
Variable f : Z -> Z.
Variables av lbitv rbitv : list Z.
Variable idx : Z.
Hypothesis Hn : 0 <= n <= max_size.
Hypothesis Hidx : 1 <= idx <= n.
Hypothesis Hf : forall j, get av j = f j.
Hypothesis Hla : Z.of_nat (length av) = n + 1.
Hypothesis Hll : Z.of_nat (length lbitv) = n + 1.
Hypothesis Hlr : Z.of_nat (length rbitv) = n + 1.
Hypothesis HLb : forall k, 1 <= k <= idx - 1 -> get lbitv k = minr f (k - lb k + 1) k.
Hypothesis HRb : forall k, idx + 1 <= k <= n -> get rbitv k = minr f k (Z.min n (k + lb k - 1)).

(** [SIDES_UPDATE] for the node [[l, r]] around [idx] completes the two
  scans: [lmin] over [l .. idx - 1] and [rmin] over [idx + 1 .. min n r]. *)
Lemma sides_update_spec l r sd :
1 <= l <= idx -> idx <= r ->
(forall x, l < x <= idx - 1 -> l - 1 <= x - lb x) ->
(forall x, idx + 1 <= x < r -> x + lb x - 1 <= r) ->
sides_left f idx l sd -> sides_right f idx n r sd ->
exists sd', SIDES_UPDATE n av lbitv rbitv l r sd = Ok sd' /\
            sides_left f idx l sd' /\ sides_right f idx n r sd' /\
            lmin sd' = minr f l (idx - 1) /\
            rmin sd' = minr f (idx + 1) (Z.min n r).
Proof.
intros Hl Hr Hleft Hright (HL1 & HL2 & HL3 & L0 & HL0 & HLm) (HR1 & HR2 & R0 & HR0 & HRm).
unfold max_size in *. unfold SIDES_UPDATE.
(* the left climb *)
run_while (fun st : Z * Z * Z =>
             let '(lrc, llc, lminc) := st in
             0 <= lrc <= idx - 1 /\ l - 1 <= lrc /\
             llc = Int.sub lrc (lowbit lrc) /\
             exists L, (L = lrc + 1 \/ (L = lrc /\ l <= lrc)) /\
                       lminc = minr f L (idx - 1))
          (fun st : Z * Z * Z => Z.to_nat (fst (fst st))).
- intros [[lrc llc] lminc] (H1 & H2 & H3 & L & HLc & Hm) Hcond.
  simpl in Hcond. apply andb_true_iff in Hcond. destruct Hcond as [Hc1 Hc2].
  apply Z.leb_le in Hc1, Hc2. subst llc.
  rewrite (step_down lrc) in Hc2 by lia.
  pose proof (lb_bounds lrc ltac:(lia)) as Hlb.
  rewrite (Int_add_id (lrc - lb lrc) 1) in Hc2 by lia.
  cbn beta iota. rewrite (rd_ok lbitv lrc) by lia. cbn [bind].
  rewrite (step_down lrc) by lia.
  eexists. split; [reflexivity|]. cbn [fst]. split; [|lia].
  split; [lia|]. split; [lia|]. split; [reflexivity|].
  exists (lrc - lb lrc + 1). split; [left; reflexivity|].
  rewrite Hm, (HLb lrc) by lia.
  rewrite Z.min_comm. apply minr_union; lia.
- cbn beta iota. split; [exact HL1|]. split; [exact HL2|]. split; [exact HL3|].
  exists L0. split; [exact HL0 | exact HLm].
- unfold budget. cbn [fst]. lia.
- destruct st as [[lrc llc] lminc]. destruct Hinv as (H1 & H2 & H3 & L & HLc & Hm).
  simpl in Hexit. cbn [bind].
  assert (Hle : lrc <= l).
  { destruct (Z_le_gt_dec lrc l) as [?|Hgt]; [assumption|exfalso].
    apply andb_false_iff in Hexit. subst llc.
    rewrite (step_down lrc) in Hexit by lia.
    pose proof (lb_bounds lrc ltac:(lia)) as Hlb.
    rewrite (Int_add_id (lrc - lb lrc) 1) in Hexit by lia.
    specialize (Hleft lrc ltac:(lia)).
    destruct Hexit as [E|E]; apply Z.leb_gt in E; lia. }
  assert (Hlm : exists lmin1,
             (if l <=? lrc then v <- rd av lrc ;; Ok (Z.min lminc v) else Ok lminc)
             = Ok lmin1 /\ lmin1 = minr f l (idx - 1)).
  { destruct (Z.leb_spec l lrc) as [Hge|Hlt].
    - assert (lrc = l) by lia. subst lrc.
      rewrite rd_ok by lia. cbn [bind]. eexists. split; [reflexivity|].
      rewrite Hf, Hm. destruct HLc as [HLc|[HLc _]]; subst L.
      + rewrite (minr_cons f l (idx - 1)) by lia. lia.
      + rewrite (minr_cons f l (idx - 1)) by lia. lia.
    - assert (lrc = l - 1) by lia. subst lrc.
      eexists. split; [reflexivity|]. rewrite Hm.
      destruct HLc as [HLc|[HLc HLc']]; [subst L; f_equal; lia | lia]. }
  destruct Hlm as (lmin1 & Elm & Hlmin1). rewrite Elm. cbn [bind]. clear Elm.
  (* the right climb *)
  run_while (fun st : Z * Z * Z =>
               let '(rlc, rrc, rminc) := st in
               idx + 1 <= rlc <= r + 1 /\
               rrc = Int.add rlc (lowbit rlc) /\
               exists R, (R = Z.min n (rlc - 1) \/ (R = rlc /\ rlc <= Z.min n r)) /\
                         rminc = minr f (idx + 1) R)
            (fun st : Z * Z * Z => Z.to_nat (n + 1 - fst (fst st))).
  + intros [[rlc rrc] rminc] (G1 & G2 & R & HRc & Hrm) Hcond.
    simpl in Hcond. apply andb_true_iff in Hcond. destruct Hcond as [Hc1 Hc2].
    apply Z.leb_le in Hc1, Hc2. subst rrc.
    rewrite (step_up rlc) in Hc2 by (unfold max_size; lia).
    pose proof (lb_bounds rlc ltac:(lia)) as Hlb.
    rewrite (Int_sub_id (rlc + lb rlc) 1) in Hc2 by lia.
    cbn beta iota. rewrite (rd_ok rbitv rlc) by lia. cbn [bind].
    rewrite (step_up rlc) by (unfold max_size; lia).
    eexists. split; [reflexivity|]. cbn [fst]. split; [|lia].
    split; [lia|]. split; [reflexivity|].
    exists (Z.min n (rlc + lb rlc - 1)). split; [left; reflexivity|].
    rewrite Hrm, (HRb rlc) by lia.
    apply minr_union; lia.
  + cbn beta iota. split; [exact HR1|]. split; [exact HR2|].
    exists R0. split; [exact HR0 | exact HRm].
  + unfold budget. cbn [fst]. lia.
  + destruct st as [[rlc rrc] rminc]. destruct Hinv as (G1 & G2 & R & HRc & Hrm).
    simpl in Hexit0. cbn [bind].
    assert (Hge : n < rlc \/ (rlc <= n /\ r <= rlc)).
    { destruct (Z_lt_ge_dec n rlc) as [?|Hrn]; [left; assumption|right].
      split; [lia|]. destruct (Z_le_gt_dec r rlc) as [?|Hgt]; [assumption|exfalso].
      apply andb_false_iff in Hexit0. subst rrc.
      rewrite (step_up rlc) in Hexit0 by (unfold max_size; lia).
      pose proof (lb_bounds rlc ltac:(lia)) as Hlb.
      rewrite (Int_sub_id (rlc + lb rlc) 1) in Hexit0 by lia.
      specialize (Hright rlc ltac:(lia)).
      destruct Hexit0 as [E|E]; apply Z.leb_gt in E; lia. }
    assert (Hrmn : exists rmin1,
               (if rlc <=? Z.min n r then v <- rd av rlc ;; Ok (Z.min rminc v) else Ok rminc)
               = Ok rmin1 /\ rmin1 = minr f (idx + 1) (Z.min n r) /\
               exists R', (R' = Z.min n (rlc - 1) \/ (R' = rlc /\ rlc <= Z.min n r)) /\
                          rmin1 = minr f (idx + 1) R').
    { destruct (Z.leb_spec rlc (Z.min n r)) as [Hin|Hout].
      - assert (rlc = r) by lia. subst rlc.
        rewrite rd_ok by lia. cbn [bind]. eexists. split; [reflexivity|].
        assert (E : Z.min rminc (get av r) = minr f (idx + 1) r).
        { rewrite Hf, Hrm. rewrite (minr_last f (idx + 1) r) by lia.
          destruct HRc as [HRc|[HRc _]]; subst R.
          - replace (Z.min n (r - 1)) with (r - 1) by lia. reflexivity.
          - rewrite (minr_last f (idx + 1) r) by lia. lia. }
        split; [rewrite E; f_equal; lia|].
        exists r. split; [right; lia | exact E].
      - eexists. split; [reflexivity|].
        assert (E : R = Z.min n r) by (destruct HRc as [HRc|[HRc HRc']]; lia).
        split; [rewrite Hrm, E; reflexivity|].
        exists R. split; [exact HRc | exact Hrm]. }
    destruct Hrmn as (rmin1 & Erm & Hrmin1 & R' & HR' & Hrm').
    rewrite Erm. cbn [bind]. clear Erm.
    eexists. split; [reflexivity|].
    unfold sides_left, sides_right. cbn [lr ll lmin rl rr rmin].
    split.
    { split; [exact H1|]. split; [exact H2|]. split; [exact H3|].
      exists l. split; [|exact Hlmin1].
      destruct (Z.eq_dec lrc l); [right; lia | left; lia]. }
    split.
    { split; [exact G1|]. split; [exact G2|]. exists R'. split; [exact HR' | exact Hrm']. }
    split; [exact Hlmin1 | exact Hrmin1].
Qed.

(** One iteration of either repair loop of [update], on the node stored at
  [arr[p]] that covers [[l, min n r]]: afterwards the node holds the
  minimum of the changed array. *)
Lemma repair_node val arr p l r sd :
1 <= l <= idx -> idx <= r ->
(forall x, l < x <= idx - 1 -> l - 1 <= x - lb x) ->
(forall x, idx + 1 <= x < r -> x + lb x - 1 <= r) ->
sides_left f idx l sd -> sides_right f idx n r sd ->
0 <= p < Z.of_nat (length arr) ->
get arr p = minr f l (Z.min n r) ->
exists arr1 sd1,
  (if val <=? get arr p then arr' <- wr arr p val ;; Ok (arr', sd)
   else if get arr p =? f idx then
     sd' <- SIDES_UPDATE n av lbitv rbitv l r sd ;;
     arr' <- wr arr p (Z.min val (Z.min (lmin sd') (rmin sd'))) ;;
     Ok (arr', sd')
   else Ok (arr, sd)) = Ok (arr1, sd1) /\
  length arr1 = length arr /\
  (forall k, 0 <= k ->
             get arr1 k = if k =? p
                          then minr (fun j => if j =? idx then val else f j) l (Z.min n r)
                          else get arr k) /\
  sides_left f idx l sd1 /\ sides_right f idx n r sd1.
Proof.
intros Hl Hr Hleft Hright HSL HSR Hp Hcur.
rewrite (minr_changed f idx val l (Z.min n r)) by lia.
rewrite (minr_at f l idx (Z.min n r)) in Hcur by lia.
destruct (Z.leb_spec val (get arr p)) as [Hle|Hgt].
- rewrite wr_ok by lia. cbn [bind].
  exists (set arr p val), sd. split; [reflexivity|].
  split; [apply length_set|]. split; [|split; assumption].
  intros k Hk. rewrite get_set by lia.
  destruct (Z.eqb_spec k p); [|reflexivity].
  symmetry. apply (node_lowered (f idx)). lia.
- destruct (Z.eqb_spec (get arr p) (f idx)) as [Heq|Hneq].
  + destruct (sides_update_spec l r sd Hl Hr Hleft Hright HSL HSR)
      as (sd' & Hsu & HSL' & HSR' & Hlm & Hrm).
    rewrite Hsu. cbn [bind]. rewrite wr_ok by lia. cbn [bind].
    eexists _, sd'. split; [reflexivity|].
    split; [apply length_set|]. split; [|split; assumption].
    intros k Hk. rewrite get_set by lia.
    destruct (Z.eqb_spec k p); [|reflexivity].
    rewrite Hlm, Hrm. symmetry. apply node_rescanned.
  + exists arr, sd. split; [reflexivity|].
    split; [reflexivity|]. split; [|split; assumption].
    intros k Hk. destruct (Z.eqb_spec k p) as [->|]; [|reflexivity].
    rewrite Hcur. symmetry. apply node_kept; lia.
Qed.
End Sides.

Section RmqUpdate.
Import FenwickRMQ.

(** [update] stores [val] at [idx] and repairs both trees. *)
Lemma rmq_update_spec s idx val :
rmq_inv s -> 0 <= n s <= max_size -> 1 <= idx <= n s ->
exists s', update s idx val = Ok s' /\ n s' = n s /\
           (forall j, 0 <= j -> get (a s') j = if j =? idx then val else get (a s) j) /\
           rmq_inv s'.
Proof.
intros Hinv Hn Hidx. pose proof Hinv as (Hla & Hll & Hlr & HT).
pose proof Hn as Hn'. unfold max_size in Hn'.
unfold update. rewrite rd_ok by lia. cbn [bind].
destruct (Z.eqb_spec (get (a s) idx) val) as [Heq|Hneq].
{ exists s. split; [reflexivity|]. split; [reflexivity|]. split; [|exact Hinv].
  intros j Hj. destruct (Z.eqb_spec j idx) as [->|]; [exact Heq | reflexivity]. }
cbv zeta.
set (f := get (a s)) in *.
set (f' := fun j => if j =? idx then val else f j).
pose proof (lb_bounds idx ltac:(lia)) as Hlbi.
(* Update lbit. *)
run_while (fun st : list Z * Z * Z * sides =>
             let '(lbc, r, l, sd) := st in
             Z.of_nat (length lbc) = n s + 1 /\ 0 < r <= 2 * max_size /\
             in_block r idx = true /\ l = r - lb r + 1 /\
             (forall k, 1 <= k <= n s ->
                        get lbc k = if in_block k idx && (k <? r)
                                    then minr f' (k - lb k + 1) k
                                    else get (lbit s) k) /\
             sides_left f idx l sd /\ sides_right f idx (n s) r sd)
          (fun st : list Z * Z * Z * sides =>
             let '(_, r, _, _) := st in Z.to_nat (n s + 1 - r)).
- intros [[[lbc r] l] sd] (Hlc & Hr & Hblk & Hl & Hk & HSL & HSR) Hcond.
  simpl in Hcond. apply Z.leb_le in Hcond. apply in_block_iff in Hblk.
  pose proof (lb_bounds r ltac:(lia)) as Hlb. pose proof (lb_up r ltac:(lia)) as Hup.
  cbn beta iota. rewrite (rd_ok lbc r) by lia. cbn [bind].
  assert (HLb : forall k, 1 <= k <= idx - 1 -> get lbc k = minr f (k - lb k + 1) k).
  { intros k Hk'. rewrite (Hk k) by lia.
    replace (in_block k idx) with false
      by (symmetry; apply not_true_iff_false; rewrite in_block_iff; lia).
    apply (HT k). lia. }
  assert (HRb : forall k, idx + 1 <= k <= n s ->
                          get (rbit s) k = minr f k (Z.min (n s) (k + lb k - 1))).
  { intros k Hk'. apply (HT k). lia. }
  destruct (repair_node (n s) f (a s) lbc (rbit s) idx Hn Hidx (fun j => eq_refl)
              Hla Hlc Hlr HLb HRb val lbc r l r sd) as (lb1 & sd1 & E & Hl1 & Hg1 & HSL1 & HSR1);
    try assumption; try lia.
  + intros x Hx. subst l. pose proof (lb_nested x r ltac:(lia) ltac:(lia)). lia.
  + intros x Hx. destruct (lb_apart x r ltac:(lia)); lia.
  + rewrite (Hk r) by lia. rewrite Z.ltb_irrefl, andb_false_r.
    replace (Z.min (n s) r) with r by lia. subst l. apply (HT r). lia.
  + rewrite E. cbn beta iota delta [bind].
    rewrite (step_up r) by (unfold max_size; lia).
    rewrite (step_down (r + lb r)) by lia.
    pose proof (lb_bounds (r + lb r) ltac:(lia)) as Hlb'.
    rewrite (Int_add_id (r + lb r - lb (r + lb r)) 1) by lia.
    eexists. split; [reflexivity|]. cbn beta iota. split; [|lia].
    split; [lia|]. split; [unfold max_size; lia|].
    split; [apply in_block_iff; lia|]. split; [reflexivity|].
    split; [|split].
    * intros k Hk'. rewrite (Hg1 k) by lia.
      destruct (Z.eqb_spec k r) as [->|Hnr].
      -- replace (in_block r idx) with true by (symmetry; apply in_block_iff; lia).
         replace (r <? r + lb r) with true by (symmetry; apply Z.ltb_lt; lia).
         cbn [andb]. replace (Z.min (n s) r) with r by lia. subst l. reflexivity.
      -- rewrite (Hk k Hk').
         destruct (in_block k idx) eqn:Hb; cbn [andb]; [|reflexivity].
         apply in_block_iff in Hb.
         destruct (Z.ltb_spec k r), (Z.ltb_spec k (r + lb r)); try reflexivity; try lia.
         destruct (lb_apart r k ltac:(lia)); lia.
    * apply (sides_left_mono f idx l); [lia | exact HSL1].
    * apply (sides_right_mono (n s) f idx r); [lia | exact HSR1].
- cbn beta iota. rewrite (step_down idx) by lia.
  rewrite (Int_add_id (idx - lb idx) 1) by lia.
  split; [exact Hll|]. split; [unfold max_size; lia|].
  split; [apply in_block_self; lia|]. split; [reflexivity|].
  split; [|split].
  + intros k Hk. destruct (in_block k idx) eqn:Hb; cbn [andb]; [|reflexivity].
    apply in_block_iff in Hb. destruct (Z.ltb_spec k idx); [lia|reflexivity].
  + apply sides_init_left; unfold max_size; lia.
  + apply sides_init_right; unfold max_size; lia.
- unfold budget. cbn beta iota. lia.
- destruct st as [[[lb1 r1] l1] sd1].
  destruct Hinv0 as (Hl1 & Hr1 & _ & _ & Hk1 & _ & _).
  simpl in Hexit. apply Z.leb_gt in Hexit. cbn [bind].
  assert (HL1 : forall k, 1 <= k <= n s ->
                          get lb1 k = if in_block k idx then minr f' (k - lb k + 1) k
                                      else get (lbit s) k).
  { intros k Hk. rewrite (Hk1 k Hk).
    replace (k <? r1) with true by (symmetry; apply Z.ltb_lt; lia).
    rewrite andb_true_r. reflexivity. }
  clear Hk1.
  (* Update rbit. *)
  run_while (fun st : list Z * Z * Z * sides =>
               let '(rbc, l, r, sd) := st in
               Z.of_nat (length rbc) = n s + 1 /\ 0 <= l <= idx /\
               r = Int.sub (Int.add l (lowbit l)) 1 /\
               (1 <= l -> idx <= l + lb l - 1 /\ sides_left f idx l sd /\
                          sides_right f idx (n s) (l + lb l - 1) sd) /\
               (forall k, 1 <= k <= n s ->
                          get rbc k = if (l <? k) && (k <=? idx) && (idx <=? k + lb k - 1)
                                      then minr f' k (Z.min (n s) (k + lb k - 1))
                                      else get (rbit s) k))
            (fun st : list Z * Z * Z * sides =>
               let '(_, l, _, _) := st in Z.to_nat l).
  + intros [[[rbc l] r] sd] (Hlc & Hl & Hr & Hpos & Hk) Hcond.
    simpl in Hcond. apply Z.leb_le in Hcond.
    destruct (Hpos Hcond) as (Hin & HSL & HSR). clear Hpos.
    pose proof (lb_bounds l ltac:(lia)) as Hlb.
    rewrite (step_up l) in Hr by (unfold max_size; lia).
    rewrite (Int_sub_id (l + lb l) 1) in Hr by lia. subst r.
    cbn beta iota. rewrite (rd_ok rbc l) by lia. cbn [bind].
    assert (HLb : forall k, 1 <= k <= idx - 1 -> get lb1 k = minr f (k - lb k + 1) k).
    { intros k Hk'. rewrite (HL1 k) by lia.
      replace (in_block k idx) with false
        by (symmetry; apply not_true_iff_false; rewrite in_block_iff; lia).
      apply (HT k). lia. }
    assert (HRb : forall k, idx + 1 <= k <= n s ->
                            get rbc k = minr f k (Z.min (n s) (k + lb k - 1))).
    { intros k Hk'. rewrite (Hk k) by lia.
      replace (k <=? idx) with false by (symmetry; apply Z.leb_gt; lia).
      rewrite andb_false_r. cbn [andb]. apply (HT k). lia. }
    destruct (repair_node (n s) f (a s) lb1 rbc idx Hn Hidx (fun j => eq_refl)
                Hla Hl1 Hlc HLb HRb val rbc l l (l + lb l - 1) sd)
      as (rb1 & sd1' & E & Hl1' & Hg1 & HSL1 & HSR1);
      try assumption; try lia.
    * intros x Hx. destruct (lb_apart l x ltac:(lia)); lia.
    * intros x Hx. pose proof (lb_up l ltac:(lia)) as Hup.
      pose proof (lb_bounds x ltac:(lia)).
      destruct (lb_apart x (l + lb l) ltac:(lia)); lia.
    * rewrite (Hk l) by lia. rewrite Z.ltb_irrefl. cbn [andb]. apply (HT l). lia.
    * rewrite E. cbn beta iota delta [bind].
      rewrite (step_down l) by lia.
      eexists. split; [reflexivity|]. cbn beta iota. split; [|lia].
      split; [lia|]. split; [lia|]. split; [reflexivity|]. split.
      -- intros Hl'. pose proof (lb_down l ltac:(lia) ltac:(lia)) as Hdn.
         split; [lia|]. split.
         ++ apply (sides_left_mono f idx l); [lia | exact HSL1].
         ++ apply (sides_right_mono (n s) f idx (l + lb l - 1)); [lia | exact HSR1].
      -- intros k Hk'. rewrite (Hg1 k) by lia.
         destruct (Z.eqb_spec k l) as [->|Hnl].
         ++ replace (l - lb l <? l) with true by (symmetry; apply Z.ltb_lt; lia).
            replace (l <=? idx) with true by (symmetry; apply Z.leb_le; lia).
            replace (idx <=? l + lb l - 1) with true by (symmetry; apply Z.leb_le; lia).
            reflexivity.
         ++ rewrite (Hk k Hk').
            destruct (Z.leb_spec k idx); [|rewrite !andb_false_r; reflexivity].
            destruct (Z.leb_spec idx (k + lb k - 1)); [|rewrite !andb_false_r; reflexivity].
            rewrite !andb_true_r.
            destruct (Z.ltb_spec l k), (Z.ltb_spec (l - lb l) k); try reflexivity; try lia.
            destruct (lb_apart k l ltac:(lia)); lia.
  + cbn beta iota. split; [exact Hlr|]. split; [lia|]. split; [reflexivity|]. split.
    * intros _. split; [lia|]. split.
      -- apply sides_init_left; unfold max_size; lia.
      -- apply sides_init_right; unfold max_size; lia.
    * intros k Hk. destruct (Z.ltb_spec idx k); [|reflexivity].
      replace (k <=? idx) with false by (symmetry; apply Z.leb_gt; lia). reflexivity.
  + unfold budget. cbn beta iota. lia.
  + destruct st as [[[rb2 l2] r2] sd2].
    destruct Hinv0 as (Hl2 & Hl2' & _ & _ & Hk2).
    simpl in Hexit0. apply Z.leb_gt in Hexit0. cbn [bind].
    rewrite wr_ok by lia. cbn [bind].
    eexists. split; [reflexivity|]. unfold rmq_inv. cbn [n a lbit rbit].
    split; [reflexivity|]. split.
    { intros j Hj. apply get_set; lia. }
    split; [rewrite length_set; exact Hla|]. split; [exact Hl1|]. split; [exact Hl2|].
    intros i Hi. pose proof (lb_bounds i ltac:(lia)) as Hlb.
    assert (Hext : forall lo hi, 1 <= lo ->
                                 minr (get (set (a s) idx val)) lo hi = minr f' lo hi).
    { intros lo hi Hlo. apply minr_ext. intros j Hj. unfold f', f. apply get_set; lia. }
    rewrite !Hext by lia. split.
    * rewrite (HL1 i Hi). destruct (in_block i idx) eqn:Hb; [reflexivity|].
      apply not_true_iff_false in Hb. rewrite in_block_iff in Hb.
      destruct (HT i Hi) as [-> _]. symmetry. apply minr_unchanged. lia.
    * rewrite (Hk2 i Hi).
      replace (l2 <? i) with true by (symmetry; apply Z.ltb_lt; lia). cbn [andb].
      destruct (Z.leb_spec i idx); cbn [andb].
      -- destruct (Z.leb_spec idx (i + lb i - 1)); [reflexivity|].
         destruct (HT i Hi) as [_ ->]. symmetry. apply minr_unchanged. lia.
      -- destruct (HT i Hi) as [_ ->]. symmetry. apply minr_unchanged. lia.
Qed.
End RmqUpdate.

Section RmqQuery.
Import FenwickRMQ.

(** On a consistent structure, [query] returns the minimum over the range. *)
Lemma rmq_query_spec s from to :
rmq_inv s -> 0 <= n s <= max_size -> 1 <= from <= to -> to <= n s ->
query s from to = Ok (minr (get (a s)) from to).
Proof.
intros (Hla & Hll & Hlr & HT) Hn Hft Hto. unfold max_size in Hn.
unfold query.
destruct (Z.ltb_spec from 1); [lia|].
destruct (Z.ltb_spec (n s) to); [lia|].
destruct (Z.ltb_spec to from); [lia|].
cbv zeta. set (f := get (a s)) in *.
(* Climb rbit. *)
run_while (fun st : Z * Z * Z =>
             let '(res, i, ii) := st in
             from <= i <= to + 1 /\ ii = Int.add i (lowbit i) /\
             res = minr f from (i - 1))
          (fun st : Z * Z * Z => let '(_, i, _) := st in Z.to_nat (n s + 1 - i)).
- intros [[res i] ii] (Hi & Hii & Hres) Hcond.
  simpl in Hcond. apply andb_true_iff in Hcond. destruct Hcond as [Hc1 Hc2].
  apply Z.leb_le in Hc1, Hc2. subst ii.
  rewrite (step_up i) in Hc2 by (unfold max_size; lia).
  pose proof (lb_bounds i ltac:(lia)) as Hlb.
  rewrite (Int_sub_id (i + lb i) 1) in Hc2 by lia.
  cbn beta iota. rewrite (rd_ok (rbit s) i) by lia. cbn [bind].
  rewrite (step_up i) by (unfold max_size; lia).
  eexists. split; [reflexivity|]. cbn beta iota. split; [|lia].
  split; [lia|]. split; [reflexivity|].
  destruct (HT i ltac:(lia)) as [_ ->]. rewrite Hres.
  replace (Z.min (n s) (i + lb i - 1)) with (i + lb i - 1) by lia.
  apply minr_union; lia.
- cbn beta iota. split; [lia|]. split; [reflexivity|].
  rewrite minr_empty by lia. reflexivity.
- unfold budget. cbn beta iota. lia.
- destruct st as [[res1 i1] ii1]. destruct Hinv as (Hi1 & Hii1 & Hres1).
  simpl in Hexit. cbn [bind].
  assert (Hstop : i1 <= to -> to < i1 + lb i1 - 1).
  { intros Hle. apply andb_false_iff in Hexit. subst ii1.
    rewrite (step_up i1) in Hexit by (unfold max_size; lia).
    pose proof (lb_bounds i1 ltac:(lia)) as Hlb.
    rewrite (Int_sub_id (i1 + lb i1) 1) in Hexit by lia.
    destruct Hexit as [E|E]; apply Z.leb_gt in E; lia. }
  assert (Hr1 : exists res2,
             (if i1 <=? to then v <- rd (a s) i1 ;; Ok (Z.min res1 v) else Ok res1)
             = Ok res2 /\ res2 = minr f from (Z.min i1 to)).
  { destruct (Z.leb_spec i1 to) as [Hle|Hgt].
    - rewrite rd_ok by lia. cbn [bind]. eexists. split; [reflexivity|].
      replace (Z.min i1 to) with i1 by lia.
      rewrite (minr_last f from i1) by lia. rewrite Hres1. reflexivity.
    - eexists. split; [reflexivity|]. rewrite Hres1. f_equal. lia. }
  destruct Hr1 as (res2 & E2 & Hres2). rewrite E2. cbn [bind]. clear E2.
  (* Climb lbit. *)
  run_while (fun st : Z * Z * Z =>
               let '(res, j, jj) := st in
               0 <= j <= to /\ from - 1 <= j /\ jj = Int.sub j (lowbit j) /\
               res = Z.min res2 (minr f (j + 1) to))
            (fun st : Z * Z * Z => let '(_, j, _) := st in Z.to_nat j).
  + intros [[res j] jj] (Hj & Hj' & Hjj & Hres) Hcond.
    simpl in Hcond. apply andb_true_iff in Hcond. destruct Hcond as [Hc1 Hc2].
    apply Z.leb_le in Hc1, Hc2. subst jj.
    rewrite (step_down j) in Hc2 by lia.
    pose proof (lb_bounds j ltac:(lia)) as Hlb.
    rewrite (Int_add_id (j - lb j) 1) in Hc2 by lia.
    cbn beta iota. rewrite (rd_ok (lbit s) j) by lia. cbn [bind].
    rewrite (step_down j) by lia.
    eexists. split; [reflexivity|]. cbn beta iota. split; [|lia].
    split; [lia|]. split; [lia|]. split; [reflexivity|].
    destruct (HT j ltac:(lia)) as [-> _]. rewrite Hres.
    rewrite (minr_split f (j - lb j + 1) j to) by lia. lia.
  + cbn beta iota. split; [lia|]. split; [lia|]. split; [reflexivity|].
    rewrite (minr_empty f (to + 1) to) by lia.
    pose proof (minr_le_max f from (Z.min i1 to)). lia.
  + unfold budget. cbn beta iota. lia.
  + destruct st as [[res3 j3] jj3]. destruct Hinv as (Hj3 & Hj3' & Hjj3 & Hres3).
    simpl in Hexit0. cbn [bind].
    assert (Hstop3 : from <= j3 -> j3 - lb j3 + 1 < from).
    { intros Hle. apply andb_false_iff in Hexit0. subst jj3.
      rewrite (step_down j3) in Hexit0 by lia.
      pose proof (lb_bounds j3 ltac:(lia)) as Hlb.
      rewrite (Int_add_id (j3 - lb j3) 1) in Hexit0 by lia.
      destruct Hexit0 as [E|E]; apply Z.leb_gt in E; lia. }
    assert (Hr3 : exists res4,
               (if from <=? j3 then v <- rd (a s) j3 ;; Ok (Z.min res3 v) else Ok res3)
               = Ok res4 /\
               res4 = Z.min res2 (minr f (Z.max j3 from) to)).
    { destruct (Z.leb_spec from j3) as [Hle|Hgt].
      - rewrite rd_ok by lia. cbn [bind]. eexists. split; [reflexivity|].
        replace (Z.max j3 from) with j3 by lia.
        rewrite (minr_cons f j3 to) by lia. rewrite Hres3. fold f. lia.
      - eexists. split; [reflexivity|]. rewrite Hres3.
        replace (Z.max j3 from) with (j3 + 1) by lia. reflexivity. }
    destruct Hr3 as (res4 & E4 & Hres4). rewrite E4. cbn [bind]. clear E4.
    f_equal. rewrite Hres4, Hres2.
    apply minr_union; try lia.
    destruct (Z_le_gt_dec i1 to) as [Hle|Hgt]; [|lia].
    destruct (Z_le_gt_dec from j3) as [Hle'|Hgt']; [|lia].
    specialize (Hstop Hle). specialize (Hstop3 Hle').
    destruct (Z_le_gt_dec j3 i1) as [?|Hlt]; [lia|].
    destruct (lb_apart i1 j3 ltac:(lia)); lia.
Qed.

Lemma make_spec size :
0 <= size <= max_size ->
n (make size) = size /\ rmq_inv (make size) /\
forall j, 0 <= j <= size -> get (a (make size)) j = INT_MAX.
Proof.
intros Hs. unfold max_size in Hs. unfold make, rmq_inv. cbn [n a lbit rbit].
rewrite (Int_add_id size 1) by lia.
split; [reflexivity|]. split.
- rewrite !length_filled by lia.
  split; [reflexivity|]. split; [reflexivity|]. split; [reflexivity|].
  intros i Hi. pose proof (lb_bounds i ltac:(lia)) as Hlb.
  rewrite !get_filled by lia.
  assert (G : forall lo hi, 0 <= lo -> hi <= size ->
                            minr (get (filled (size + 1) INT_MAX)) lo hi = INT_MAX).
  { intros lo hi Hlo Hhi.
    destruct (Z_lt_ge_dec hi lo) as [Hlt|Hge]; [apply minr_empty; lia|].
    assert (Hh : lo - 1 <= hi) by lia. clear Hge. revert Hhi.
    pattern hi. apply range_ind with (lo := lo); [| |lia].
    - intros _. apply minr_empty. lia.
    - intros h Hh' IH Hhs. rewrite minr_snoc by lia. rewrite IH by lia.
      rewrite get_filled by lia. apply Z.min_id. }
  rewrite !G by lia. split; reflexivity.
- intros j Hj. apply get_filled. lia.
Qed.
End RmqQuery.

Lemma scan_min_minr a from to :
  from <= to -> get a from <= INT_MAX -> minr (get a) from to = scan_min a from to.
Proof.
  intros H Hle. unfold minr, scan_min. rewrite (range_cons from to H).
  cbn [fold_left]. f_equal. lia.
Qed.

Lemma outputs_shadow N cs : forall s sh,
  0 <= N <= max_size -> FenwickRMQ.n s = N -> rmq_inv s ->
  Z.of_nat (length sh) = N + 1 ->
  (forall j, 0 <= j -> get (FenwickRMQ.a s) j = get sh j) ->
  (forall j, 1 <= j <= N -> get sh j <= INT_MAX) ->
  Forall (valid_call N) cs ->
  outputs s cs = Ok (shadow_outputs sh cs).
Proof.
  induction cs as [|c cs IH]; intros s sh HN Hn Hinv Hlen Hsh Hmax Hv; [reflexivity|].
  inversion Hv as [|c' cs' Hc Hcs]; subst c' cs'.
  destruct c as [idx val|from to]; cbn [valid_call] in Hc;
    cbn [outputs shadow_outputs FenwickRMQ.step].
  - destruct Hc as [Hidx Hval].
    destruct (rmq_update_spec s idx val Hinv ltac:(lia) ltac:(lia))
      as (s' & Hu & Hn' & Ha' & Hinv').
    rewrite Hu. cbn [bind fst snd].
    rewrite (IH s' (set sh idx val)); try assumption; try lia.
    + reflexivity.
    + rewrite length_set. exact Hlen.
    + intros j Hj. rewrite (Ha' j Hj). rewrite (get_set sh idx j val) by lia.
      destruct (j =? idx); [reflexivity | apply Hsh, Hj].
    + intros j Hj. rewrite (get_set sh idx j val) by lia.
      destruct (j =? idx); [|apply Hmax, Hj].
      exact (proj2 Hval).
  - destruct Hc as [Hft Hto].
    rewrite (rmq_query_spec s from to Hinv) by lia. cbn [bind fst snd].
    rewrite (IH s sh) by assumption. cbn [bind].
    do 2 f_equal. rewrite (minr_ext _ (get sh)) by (intros j Hj; apply Hsh; lia).
    apply scan_min_minr; [lia | apply Hmax; lia].
Qed.

(** C2. On a structure of size [n], every query of any interleaved sequence
    of [update(idx, val)] calls with [1 <= idx <= n] and [query(from, to)]
    calls with [1 <= from <= to <= n] returns the minimum that a linear scan
    finds in a shadow array maintained alongside, whose unset slots hold
    [INT_MAX]. *)
Theorem queries_match_shadow n cs :
  0 <= n <= max_size -> Forall (valid_call n) cs ->
  outputs (FenwickRMQ.make n) cs = Ok (shadow_outputs (filled (n + 1) INT_MAX) cs).
Proof.
  intros Hn Hv. destruct (make_spec n Hn) as (Hsize & Hinv & Hget).
  pose proof Hn as Hn'. unfold max_size in Hn'.
  apply (outputs_shadow n); try assumption.
  - apply length_filled. lia.
  - intros j Hj. unfold FenwickRMQ.make. cbn [FenwickRMQ.a].
    rewrite (Int_add_id n 1) by lia. reflexivity.
  - intros j Hj. rewrite get_filled by lia. lia.
Qed.

Lemma queries_match_shadow_witness :
  outputs (FenwickRMQ.make 5)
    [FenwickRMQ.Update 1 5; FenwickRMQ.Update 2 3; FenwickRMQ.Update 3 1;
     FenwickRMQ.Update 4 4; FenwickRMQ.Update 5 2; FenwickRMQ.Query 2 4;
     FenwickRMQ.Update 3 10; FenwickRMQ.Query 2 4; FenwickRMQ.Query 1 5]
  = Ok (shadow_outputs (filled (5 + 1) INT_MAX)
          [FenwickRMQ.Update 1 5; FenwickRMQ.Update 2 3; FenwickRMQ.Update 3 1;
           FenwickRMQ.Update 4 4; FenwickRMQ.Update 5 2; FenwickRMQ.Query 2 4;
           FenwickRMQ.Update 3 10; FenwickRMQ.Query 2 4; FenwickRMQ.Query 1 5]).
Proof.
  apply (queries_match_shadow 5); [unfold max_size; lia|].
  repeat constructor; cbn; try lia; apply Int_in_range_iff; lia.
Defined.

(** * Further properties of the Fenwick tree *)

Lemma odd_factor i : 0 < i -> exists k q, 0 <= k /\ 0 <= q /\ i = 2 ^ k * (2 * q + 1).
Proof.
  revert i. apply binary_ind.
  - intros x Hx (k & q & Hk & Hq & E). exists (k + 1), q.
    split; [lia|]. split; [lia|]. rewrite pow2_succ by lia. lia.
  - intros x Hx _. exists 0, x. split; [lia|]. split; [lia|].
    rewrite Z.pow_0_r. lia.
Qed.

Lemma implied_int64s N cs : forall a,
  int64s a -> Forall typed_mutation cs -> int64s (fold_left (implied N) cs a).
Proof.
  induction cs as [|c cs IH]; intros a Ha Ht; cbn [fold_left]; [exact Ha|].
  inversion Ht as [|c' cs' Hc Hcs]; subst c' cs'. apply IH; [|exact Hcs].
  destruct c as [idx delta|b|b|]; cbn [implied typed_mutation] in *.
  - apply int64s_set_nth; [exact Ha | apply add64_in_range].
  - exact Hc.
  - exact Hc.
  - apply int64s_filled.
Qed.

Lemma first_reaching_ext P Q n val k :
  (forall j, 1 <= j <= n -> P j = Q j) ->
  first_reaching P n val k -> first_reaching Q n val k.
Proof.
  intros E (Hb & Hlo & Hup). split; [exact Hb|]. split.
  - intros j Hj. rewrite <- E by lia. apply Hlo, Hj.
  - intros Hk. rewrite <- E by lia. apply Hup, Hk.
Qed.

(** X1. [i & -i] is the lowest set bit of a positive [int] [i]: writing
    [i = 2^k * (2 q + 1)], it is [2^k]. *)
Theorem lowbit_lowest_set_bit i :
  0 < i <= INT_MAX ->
  exists k q, 0 <= k /\ 0 <= q /\ i = 2 ^ k * (2 * q + 1) /\ lowbit i = 2 ^ k.
Proof.
  intros [Hi Hmax]. destruct (odd_factor i Hi) as (k & q & Hk & Hq & E).
  exists k, q. split; [exact Hk|]. split; [exact Hq|]. split; [exact E|].
  change INT_MAX with 2147483647 in Hmax.
  rewrite lowbit_lb by lia. rewrite E at 1. apply lb_pow2_odd, Hk.
Qed.

Lemma lowbit_lowest_set_bit_witness :
  exists k q, 0 <= k /\ 0 <= q /\ 40 = 2 ^ k * (2 * q + 1) /\ lowbit 40 = 2 ^ k.
Proof.
  apply (lowbit_lowest_set_bit 40). change INT_MAX with 2147483647. lia.
Defined.

(** X2. [allocate m] gives a tree over [n = 2^m - 1] slots whose [nmask]
    is the highest set bit of [n] and whose [n + 1] accumulators are all
    zero. *)
Theorem allocate_shape m :
  1 <= m <= 30 ->
  Fenwick.n (Fenwick.allocate m) = 2 ^ m - 1 /\
  Fenwick.nmask (Fenwick.allocate m) = 2 ^ (m - 1) /\
  Fenwick.nmask (Fenwick.allocate m) <= Fenwick.n (Fenwick.allocate m)
    < 2 * Fenwick.nmask (Fenwick.allocate m) /\
  Z.of_nat (length (Fenwick.T (Fenwick.allocate m))) = Fenwick.n (Fenwick.allocate m) + 1 /\
  forall i, 0 <= i <= Fenwick.n (Fenwick.allocate m) ->
            get (Fenwick.T (Fenwick.allocate m)) i = 0.
Proof.
  intros Hm. destruct (allocate_fields m Hm) as (Hn & Hk & HT).
  rewrite Hn, Hk, HT.
  pose proof (pow2_pos (m - 1) ltac:(lia)) as Hp.
  pose proof (pow2_succ (m - 1) ltac:(lia)) as Hs.
  replace (m - 1 + 1) with m in Hs by lia.
  split; [reflexivity|]. split; [reflexivity|]. split; [lia|]. split.
  - rewrite length_filled by lia. lia.
  - intros i Hi. apply get_filled. lia.
Qed.

Lemma allocate_shape_witness :
  Fenwick.n (Fenwick.allocate 4) = 2 ^ 4 - 1 /\
  Fenwick.nmask (Fenwick.allocate 4) = 2 ^ (4 - 1) /\
  Fenwick.nmask (Fenwick.allocate 4) <= Fenwick.n (Fenwick.allocate 4)
    < 2 * Fenwick.nmask (Fenwick.allocate 4) /\
  Z.of_nat (length (Fenwick.T (Fenwick.allocate 4))) = Fenwick.n (Fenwick.allocate 4) + 1 /\
  forall i, 0 <= i <= Fenwick.n (Fenwick.allocate 4) ->
            get (Fenwick.T (Fenwick.allocate 4)) i = 0.
Proof.
  apply (allocate_shape 4). lia.
Defined.

(** X3. [update idx delta] adds [delta] to exactly the nodes [k] whose
    block [(k - lowbit k, k]] holds [idx]; every other node, the size and
    the mask are left as they were. *)
Theorem update_touches_covering_nodes s idx delta :
  Z.of_nat (length (Fenwick.T s)) = Fenwick.n s + 1 -> Fenwick.n s <= max_size ->
  1 <= idx <= Fenwick.n s ->
  exists s', Fenwick.update s idx delta = Ok s' /\
             Fenwick.n s' = Fenwick.n s /\ Fenwick.nmask s' = Fenwick.nmask s /\
             Z.of_nat (length (Fenwick.T s')) = Fenwick.n s + 1 /\
             forall k, 1 <= k <= Fenwick.n s ->
                       get (Fenwick.T s') k
                       = if (k - lowbit k <? idx) && (idx <=? k)
                         then Int64.add (get (Fenwick.T s) k) delta
                         else get (Fenwick.T s) k.
Proof.
  intros Hlen Hn Hidx.
  destruct (update_nodes s idx delta Hlen Hn Hidx) as (T' & Hu & Hl' & HT).
  exists (Fenwick.with_T s T'). split; [exact Hu|].
  split; [reflexivity|]. split; [reflexivity|]. split; [exact Hl'|].
  intros k Hk. change (Fenwick.T (Fenwick.with_T s T')) with T'.
  rewrite (HT k Hk). unfold in_block, max_size in *.
  rewrite (lowbit_lb k) by lia. reflexivity.
Qed.

Lemma update_touches_covering_nodes_witness :
  exists s', Fenwick.update (Fenwick.allocate 3) 3 5 = Ok s' /\
             Fenwick.n s' = Fenwick.n (Fenwick.allocate 3) /\
             Fenwick.nmask s' = Fenwick.nmask (Fenwick.allocate 3) /\
             Z.of_nat (length (Fenwick.T s')) = Fenwick.n (Fenwick.allocate 3) + 1 /\
             forall k, 1 <= k <= Fenwick.n (Fenwick.allocate 3) ->
                       get (Fenwick.T s') k
                       = if (k - lowbit k <? 3) && (3 <=? k)
                         then Int64.add (get (Fenwick.T (Fenwick.allocate 3)) k) 5
                         else get (Fenwick.T (Fenwick.allocate 3)) k.
Proof.
  apply (update_touches_covering_nodes (Fenwick.allocate 3) 3 5).
  - reflexivity.
  - vm_compute. discriminate.
  - vm_compute. split; discriminate.
Defined.

(** X4. After any sequence of [update], [construct], [fast_construct] and
    [clear] calls on a tree of order [m], [prefix_sum idx] returns the
    [int64_t] sum of the first [idx] slots of the implied array, and [0]
    for [idx = 0]. *)
Theorem prefix_sum_implied m cs :
  1 <= m <= 30 -> Forall (valid_mutation (2 ^ m - 1)) cs ->
  exists s, mutate_all (Fenwick.allocate m) cs = Ok s /\
            Fenwick.n s = 2 ^ m - 1 /\
            Fenwick.prefix_sum s 0 = Ok 0 /\
            forall idx, 0 <= idx <= Fenwick.n s ->
                        Fenwick.prefix_sum s idx
                        = Ok (sum64 (get (implied_array (Fenwick.n s) cs)) 1 idx).
Proof.
  intros Hm Hv. destruct (allocated_run m cs Hm Hv) as (s & Hr & Ho & Hs).
  pose proof (order_size s m Ho) as Hsz.
  exists s. split; [exact Hr|]. split; [apply Ho|].
  assert (G : forall idx, 0 <= idx <= Fenwick.n s ->
                          Fenwick.prefix_sum s idx
                          = Ok (sum64 (get (implied_array (Fenwick.n s) cs)) 1 idx)).
  { intros idx Hidx. rewrite sum64_wrap. apply prefix_sum_spec; [exact Hs| lia | lia]. }
  split; [|exact G].
  rewrite (G 0) by lia. rewrite sum64_wrap, isum_empty by lia. rewrite wrap_0. reflexivity.
Qed.

Lemma prefix_sum_implied_witness :
  exists s, mutate_all (Fenwick.allocate 2)
              [Update 1 5; Construct [0; 4; 7; 9]; Update 3 (-2); Clear; Update 2 6] = Ok s /\
            Fenwick.n s = 2 ^ 2 - 1 /\
            Fenwick.prefix_sum s 0 = Ok 0 /\
            forall idx, 0 <= idx <= Fenwick.n s ->
                        Fenwick.prefix_sum s idx
                        = Ok (sum64 (get (implied_array (Fenwick.n s)
                                            [Update 1 5; Construct [0; 4; 7; 9];
                                             Update 3 (-2); Clear; Update 2 6])) 1 idx).
Proof.
  apply (prefix_sum_implied 2); [lia|].
  repeat constructor; cbn; lia.
Defined.

(** X5. The point and range reads agree with their fast variants after any
    sequence of [update], [construct], [fast_construct] and [clear] calls:
    [access] and [fast_access] both return the slot of the implied array,
    [range_sum] and [fast_range_sum] both return its [int64_t] sum over
    [l .. r]. *)
Theorem reads_agree_after_mutations m cs :
  1 <= m <= 30 -> Forall (valid_mutation (2 ^ m - 1)) cs -> Forall typed_mutation cs ->
  exists s, mutate_all (Fenwick.allocate m) cs = Ok s /\
            Fenwick.n s = 2 ^ m - 1 /\
            (forall idx, 1 <= idx <= Fenwick.n s ->
                         Fenwick.access s idx = Ok (get (implied_array (Fenwick.n s) cs) idx) /\
                         Fenwick.fast_access s idx
                         = Ok (get (implied_array (Fenwick.n s) cs) idx)) /\
            forall l r, 1 <= l <= r -> r <= Fenwick.n s ->
                        Fenwick.range_sum s l r
                        = Ok (sum64 (get (implied_array (Fenwick.n s) cs)) l r) /\
                        Fenwick.fast_range_sum s l r
                        = Ok (sum64 (get (implied_array (Fenwick.n s) cs)) l r).
Proof.
  intros Hm Hv Ht. destruct (allocated_run m cs Hm Hv) as (s & Hr & Ho & Hs).
  pose proof (order_size s m Ho) as Hsz.
  assert (Hint : int64s (implied_array (Fenwick.n s) cs)).
  { unfold implied_array. apply implied_int64s; [apply int64s_filled | exact Ht]. }
  exists s. split; [exact Hr|]. split; [apply Ho|]. split.
  - intros idx Hidx.
    rewrite (access_spec s _ idx Hs) by lia.
    rewrite (fast_access_spec s _ idx Hs) by lia.
    rewrite Int64_wrap_small by (apply int64s_get, Hint).
    split; reflexivity.
  - intros l r Hl Hr'. rewrite sum64_wrap.
    rewrite (range_sum_spec s _ l r Hs) by lia.
    rewrite (fast_range_sum_spec s _ l r Hs) by lia.
    split; reflexivity.
Qed.

Lemma reads_agree_after_mutations_witness :
  exists s, mutate_all (Fenwick.allocate 2)
              [Update 1 5; FastConstruct [0; 4; 7; 9]; Update 3 (-2)] = Ok s /\
            Fenwick.n s = 2 ^ 2 - 1 /\
            (forall idx, 1 <= idx <= Fenwick.n s ->
                         Fenwick.access s idx
                         = Ok (get (implied_array (Fenwick.n s)
                                      [Update 1 5; FastConstruct [0; 4; 7; 9]; Update 3 (-2)])
                                   idx) /\
                         Fenwick.fast_access s idx
                         = Ok (get (implied_array (Fenwick.n s)
                                      [Update 1 5; FastConstruct [0; 4; 7; 9]; Update 3 (-2)])
                                   idx)) /\
            forall l r, 1 <= l <= r -> r <= Fenwick.n s ->
                        Fenwick.range_sum s l r
                        = Ok (sum64 (get (implied_array (Fenwick.n s)
                                            [Update 1 5; FastConstruct [0; 4; 7; 9];
                                             Update 3 (-2)])) l r) /\
                        Fenwick.fast_range_sum s l r
                        = Ok (sum64 (get (implied_array (Fenwick.n s)
                                            [Update 1 5; FastConstruct [0; 4; 7; 9];
                                             Update 3 (-2)])) l r).
Proof.
  apply (reads_agree_after_mutations 2); [lia| |].
  - repeat constructor; cbn; lia.
  - repeat constructor; apply Int64_in_range_iff; lia.
Defined.

(** X6. [construct arr] overwrites whatever the tree held: afterwards every
    [access i] returns [arr[i]] and every [prefix_sum idx] the [int64_t]
    sum of [arr[1 .. idx]], for a tree of any size up to [2^30 - 1]. *)
Theorem construct_then_read s arr :
  0 <= Fenwick.n s <= max_size ->
  Z.of_nat (length (Fenwick.T s)) = Fenwick.n s + 1 ->
  Z.of_nat (length arr) = Fenwick.n s + 1 -> int64s arr ->
  exists s', Fenwick.construct s arr = Ok s' /\
             Fenwick.n s' = Fenwick.n s /\ Fenwick.nmask s' = Fenwick.nmask s /\
             (forall i, 1 <= i <= Fenwick.n s -> Fenwick.access s' i = Ok (get arr i)) /\
             forall idx, 0 <= idx <= Fenwick.n s ->
                         Fenwick.prefix_sum s' idx = Ok (sum64 (get arr) 1 idx).
Proof.
  intros Hn Hlen Harr Hint.
  destruct (construct_spec s arr Hlen Harr Hn) as (s' & Hc & Hn' & Hm' & Hs').
  exists s'. split; [exact Hc|]. split; [exact Hn'|]. split; [exact Hm'|]. split.
  - intros i Hi. rewrite (access_spec s' _ i Hs') by lia.
    rewrite Int64_wrap_small by (apply int64s_get, Hint). reflexivity.
  - intros idx Hidx. rewrite sum64_wrap. apply prefix_sum_spec; [exact Hs'|lia|lia].
Qed.

Lemma construct_then_read_witness :
  exists s', Fenwick.construct (Fenwick.allocate 2) [0; 4; -7; 9] = Ok s' /\
             Fenwick.n s' = Fenwick.n (Fenwick.allocate 2) /\
             Fenwick.nmask s' = Fenwick.nmask (Fenwick.allocate 2) /\
             (forall i, 1 <= i <= Fenwick.n (Fenwick.allocate 2) ->
                        Fenwick.access s' i = Ok (get [0; 4; -7; 9] i)) /\
             forall idx, 0 <= idx <= Fenwick.n (Fenwick.allocate 2) ->
                         Fenwick.prefix_sum s' idx = Ok (sum64 (get [0; 4; -7; 9]) 1 idx).
Proof.
  apply (construct_then_read (Fenwick.allocate 2) [0; 4; -7; 9]).
  - vm_compute. split; discriminate.
  - reflexivity.
  - reflexivity.
  - repeat constructor; apply Int64_in_range_iff; lia.
Defined.

(** X7. After any sequence of mutating calls, [search val] returns the
    first index whose [int64_t] prefix sum reaches [val], and [n + 1] when
    no prefix sum does. *)
Theorem search_first_reaching m cs val :
  1 <= m <= 30 -> Forall (valid_mutation (2 ^ m - 1)) cs ->
  exists s k, mutate_all (Fenwick.allocate m) cs = Ok s /\
              Fenwick.n s = 2 ^ m - 1 /\
              Fenwick.search s val = Ok k /\
              first_reaching (sum64 (get (implied_array (Fenwick.n s) cs)) 1)
                             (Fenwick.n s) val k.
Proof.
  intros Hm Hv. destruct (allocated_run m cs Hm Hv) as (s & Hr & Ho & Hs).
  pose proof (order_size s m Ho) as Hsz.
  destruct (search_spec s _ val Hs ltac:(lia)) as (k & Hk & Hfr).
  exists s, k. split; [exact Hr|]. split; [apply Ho|]. split; [exact Hk|].
  revert Hfr. apply first_reaching_ext. intros j Hj. rewrite sum64_wrap. reflexivity.
Qed.

Lemma search_first_reaching_witness :
  exists s k, mutate_all (Fenwick.allocate 2) [Construct [0; 4; -7; 9]; Update 2 1] = Ok s /\
              Fenwick.n s = 2 ^ 2 - 1 /\
              Fenwick.search s 5 = Ok k /\
              first_reaching
                (sum64 (get (implied_array (Fenwick.n s) [Construct [0; 4; -7; 9]; Update 2 1]))
                       1)
                (Fenwick.n s) 5 k.
Proof.
  apply (search_first_reaching 2); [lia|].
  repeat constructor; cbn; lia.
Defined.

(** X8. On a tree built by any sequence of mutating calls whose implied
    array is non-negative with a total that fits [int64_t], [fast_search]
    returns what [search] returns for every [val] above [INT64_MIN]: the
    first index whose prefix sum reaches [val], or [n + 1]. *)
Theorem fast_search_first_reaching m cs val :
  1 <= m <= 30 -> Forall (valid_mutation (2 ^ m - 1)) cs ->
  (forall j, 1 <= j <= 2 ^ m - 1 -> 0 <= get (implied_array (2 ^ m - 1) cs) j) ->
  isum (get (implied_array (2 ^ m - 1) cs)) 1 (2 ^ m - 1) <= Int64.max_signed ->
  Int64.min_signed < val <= Int64.max_signed ->
  exists s k, mutate_all (Fenwick.allocate m) cs = Ok s /\
              Fenwick.fast_search s val = Ok k /\ Fenwick.search s val = Ok k /\
              first_reaching (isum (get (implied_array (2 ^ m - 1) cs)) 1) (2 ^ m - 1) val k.
Proof.
  intros Hm Hv Hpos Htot Hval.
  destruct (allocated_run m cs Hm Hv) as (s & Hr & Ho & Hs).
  assert (Hn : Fenwick.n s = 2 ^ m - 1) by apply Ho.
  rewrite Hn in Hs.
  destruct (fast_search_search s m _ val Ho Hs) as (k & Hf & Hsr & Hfr).
  - rewrite Hn. exact Hpos.
  - rewrite Hn. exact Htot.
  - exact Hval.
  - exists s, k. split; [exact Hr|]. split; [exact Hf|]. split; [exact Hsr|].
    rewrite Hn in Hfr. exact Hfr.
Qed.

Lemma fast_search_first_reaching_witness :
  exists s k, mutate_all (Fenwick.allocate 2) [Construct [0; 4; 7; 9]; Update 2 1] = Ok s /\
              Fenwick.fast_search s 12 = Ok k /\ Fenwick.search s 12 = Ok k /\
              first_reaching
                (isum (get (implied_array (2 ^ 2 - 1) [Construct [0; 4; 7; 9]; Update 2 1])) 1)
                (2 ^ 2 - 1) 12 k.
Proof.
  apply (fast_search_first_reaching 2); [lia| | | |].
  - repeat constructor; cbn; lia.
  - intros j Hj.
    assert (E : j = 1 \/ j = 2 \/ j = 3) by lia.
    destruct E as [E|[E|E]]; rewrite E; vm_compute; discriminate.
  - vm_compute. discriminate.
  - vm_compute. split; [reflexivity | discriminate].
Defined.

(** * Further properties of the grid *)

Lemma clear2_spec s :
  0 <= Fenwick2D.n s <= max_size2 ->
  Fenwick2D.n (Fenwick2D.clear s) = Fenwick2D.n s /\
  stores2 (Fenwick2D.clear s) (fun _ _ => 0).
Proof.
  intros HN. split; [reflexivity|].
  assert (HT : Fenwick2D.T (Fenwick2D.clear s)
               = filled ((Fenwick2D.n s + 1) * (Fenwick2D.n s + 1)) 0).
  { unfold Fenwick2D.clear. cbn [Fenwick2D.T].
    pose proof (mul_bound (Fenwick2D.n s) HN (Fenwick2D.n s) ltac:(lia)).
    pose proof (square_bound (Fenwick2D.n s) HN).
    unfold max_size2 in HN.
    rewrite (Int_add_id (Fenwick2D.n s) 1) by lia.
    rewrite (Int_mul_id (Fenwick2D.n s + 1) (Fenwick2D.n s + 1)); [reflexivity|].
    replace ((Fenwick2D.n s + 1) * (Fenwick2D.n s + 1))
      with ((Fenwick2D.n s + 1) * Fenwick2D.n s + (Fenwick2D.n s + 1)) by ring. lia. }
  split.
  - rewrite HT. change (Fenwick2D.n (Fenwick2D.clear s)) with (Fenwick2D.n s).
    apply length_filled. apply Z.mul_nonneg_nonneg; lia.
  - change (Fenwick2D.n (Fenwick2D.clear s)) with (Fenwick2D.n s).
    intros x y Hx Hy. rewrite HT.
    rewrite get_filled by (apply (pos_bound (Fenwick2D.n s) HN); lia).
    rewrite (isum_ext _ (fun _ => 0)), isum_const0; [reflexivity|].
    intros i Hi. apply isum_const0.
Qed.

(** X9. After any sequence of point updates on a grid of order [m],
    [prefix_sum x y] returns the [int64_t] sum of the brute-force grid over
    [1 .. x] x [1 .. y]; the sum is empty when [x] or [y] is [0]. *)
Theorem grid_prefix_sum m ups :
  1 <= m <= 15 -> Forall (valid_cell (2 ^ m - 1)) ups ->
  exists s, grid_updates (Fenwick2D.allocate m) ups = Ok s /\
            forall x y, 0 <= x <= 2 ^ m - 1 -> 0 <= y <= 2 ^ m - 1 ->
                        Fenwick2D.prefix_sum s x y = Ok (rect64 (grid_after ups) 1 1 x y).
Proof.
  intros Hm Hv. pose proof (pow2_bounds15 m ltac:(lia)) as Hp.
  assert (HN : 0 <= 2 ^ m - 1 <= max_size2) by (unfold max_size2; lia).
  destruct (allocate2_spec m Hm) as (Hn & Hs).
  destruct (grid_updates_spec (2 ^ m - 1) ups (Fenwick2D.allocate m) (fun _ _ => 0)
              HN Hn Hs Hv) as (s & Hr & Hn' & Hs').
  exists s. split; [exact Hr|]. intros x y Hx Hy.
  rewrite (prefix2_spec (2 ^ m - 1) HN s _ x y Hn' Hs' Hx Hy).
  rewrite rect64_wrap. reflexivity.
Qed.

Lemma grid_prefix_sum_witness :
  exists s, grid_updates (Fenwick2D.allocate 2) [(2, 3, 5); (1, 1, 7); (2, 3, -1)] = Ok s /\
            forall x y, 0 <= x <= 2 ^ 2 - 1 -> 0 <= y <= 2 ^ 2 - 1 ->
                        Fenwick2D.prefix_sum s x y
                        = Ok (rect64 (grid_after [(2, 3, 5); (1, 1, 7); (2, 3, -1)]) 1 1 x y).
Proof.
  apply (grid_prefix_sum 2); [lia|].
  repeat constructor; cbn; lia.
Defined.

(** X10. The two-dimensional [update x y delta] adds [delta] to exactly the
    cells [(x', y')] whose column block [(x' - lowbit x', x']] holds [x] and
    whose row block [(y' - lowbit y', y']] holds [y]; the other cells and
    the size are left as they were. *)
Theorem grid_update_touches_covering_cells s x y delta :
  0 <= Fenwick2D.n s <= max_size2 ->
  Z.of_nat (length (Fenwick2D.T s)) = (Fenwick2D.n s + 1) * (Fenwick2D.n s + 1) ->
  1 <= x <= Fenwick2D.n s -> 1 <= y <= Fenwick2D.n s ->
  exists s', Fenwick2D.update s x y delta = Ok s' /\
             Fenwick2D.n s' = Fenwick2D.n s /\
             Z.of_nat (length (Fenwick2D.T s')) = (Fenwick2D.n s + 1) * (Fenwick2D.n s + 1) /\
             forall x' y', 1 <= x' <= Fenwick2D.n s -> 1 <= y' <= Fenwick2D.n s ->
                           get (Fenwick2D.T s') ((Fenwick2D.n s + 1) * y' + x')
                           = if ((x' - lowbit x' <? x) && (x <=? x'))
                                && ((y' - lowbit y' <? y) && (y <=? y'))
                             then Int64.add
                                    (get (Fenwick2D.T s) ((Fenwick2D.n s + 1) * y' + x')) delta
                             else get (Fenwick2D.T s) ((Fenwick2D.n s + 1) * y' + x').
Proof.
  intros HN Hlen Hx Hy.
  destruct (update_cells (Fenwick2D.n s) HN s x y delta eq_refl Hlen Hx Hy)
    as (T' & Hu & Hl' & HT).
  exists {| Fenwick2D.n := Fenwick2D.n s; Fenwick2D.T := T' |}.
  split; [exact Hu|]. split; [reflexivity|]. split; [exact Hl'|].
  intros x' y' Hx' Hy'. cbn [Fenwick2D.T].
  rewrite (HT x' y' Hx' Hy'). unfold in_block, max_size2 in *.
  rewrite (lowbit_lb x') by lia. rewrite (lowbit_lb y') by lia. reflexivity.
Qed.

Lemma grid_update_touches_covering_cells_witness :
  exists s', Fenwick2D.update (Fenwick2D.allocate 2) 1 2 5 = Ok s' /\
             Fenwick2D.n s' = Fenwick2D.n (Fenwick2D.allocate 2) /\
             Z.of_nat (length (Fenwick2D.T s'))
             = (Fenwick2D.n (Fenwick2D.allocate 2) + 1)
               * (Fenwick2D.n (Fenwick2D.allocate 2) + 1) /\
             forall x' y', 1 <= x' <= Fenwick2D.n (Fenwick2D.allocate 2) ->
                           1 <= y' <= Fenwick2D.n (Fenwick2D.allocate 2) ->
                           get (Fenwick2D.T s')
                               ((Fenwick2D.n (Fenwick2D.allocate 2) + 1) * y' + x')
                           = if ((x' - lowbit x' <? 1) && (1 <=? x'))
                                && ((y' - lowbit y' <? 2) && (2 <=? y'))
                             then Int64.add
                                    (get (Fenwick2D.T (Fenwick2D.allocate 2))
                                         ((Fenwick2D.n (Fenwick2D.allocate 2) + 1) * y' + x'))
                                    5
                             else get (Fenwick2D.T (Fenwick2D.allocate 2))
                                      ((Fenwick2D.n (Fenwick2D.allocate 2) + 1) * y' + x').
Proof.
  apply (grid_update_touches_covering_cells (Fenwick2D.allocate 2) 1 2 5).
  - vm_compute. split; discriminate.
  - reflexivity.
  - vm_compute. split; discriminate.
  - vm_compute. split; discriminate.
Defined.

(** X11. [clear] empties a grid whatever it held: afterwards every
    [prefix_sum] and every [range_sum] is [0], and the size is kept. *)
Theorem grid_clear_reads_zero s :
  0 <= Fenwick2D.n s <= max_size2 ->
  Fenwick2D.n (Fenwick2D.clear s) = Fenwick2D.n s /\
  (forall x y, 0 <= x <= Fenwick2D.n s -> 0 <= y <= Fenwick2D.n s ->
               Fenwick2D.prefix_sum (Fenwick2D.clear s) x y = Ok 0) /\
  forall x1 y1 x2 y2,
    1 <= x1 <= x2 -> x2 <= Fenwick2D.n s -> 1 <= y1 <= y2 -> y2 <= Fenwick2D.n s ->
    Fenwick2D.range_sum (Fenwick2D.clear s) x1 y1 x2 y2 = Ok 0.
Proof.
  intros HN. destruct (clear2_spec s HN) as (Hn & Hs).
  assert (Z0 : forall x1 y1 x2 y2,
             Int64.wrap (isum (fun i => isum ((fun _ _ : Z => 0) i) y1 y2) x1 x2) = 0).
  { intros x1 y1 x2 y2. rewrite (isum_ext _ (fun _ => 0)), isum_const0; [reflexivity|].
    intros i Hi. apply isum_const0. }
  split; [exact Hn|]. split.
  - intros x y Hx Hy.
    rewrite (prefix2_spec (Fenwick2D.n s) HN (Fenwick2D.clear s) _ x y Hn Hs Hx Hy).
    rewrite Z0. reflexivity.
  - intros x1 y1 x2 y2 Hx1 Hx2 Hy1 Hy2.
    rewrite (range_sum2_spec (Fenwick2D.n s) HN (Fenwick2D.clear s) _ x1 y1 x2 y2
               Hn Hs Hx1 Hx2 Hy1 Hy2).
    rewrite Z0. reflexivity.
Qed.

Lemma grid_clear_reads_zero_witness :
  Fenwick2D.n (Fenwick2D.clear {| Fenwick2D.n := 2; Fenwick2D.T := [0; 0; 0; 0; 4; 4; 0; 4; 9] |})
  = 2 /\
  (forall x y, 0 <= x <= 2 -> 0 <= y <= 2 ->
               Fenwick2D.prefix_sum
                 (Fenwick2D.clear
                    {| Fenwick2D.n := 2; Fenwick2D.T := [0; 0; 0; 0; 4; 4; 0; 4; 9] |}) x y
               = Ok 0) /\
  forall x1 y1 x2 y2,
    1 <= x1 <= x2 -> x2 <= 2 -> 1 <= y1 <= y2 -> y2 <= 2 ->
    Fenwick2D.range_sum
      (Fenwick2D.clear {| Fenwick2D.n := 2; Fenwick2D.T := [0; 0; 0; 0; 4; 4; 0; 4; 9] |})
      x1 y1 x2 y2
    = Ok 0.
Proof.
  apply (grid_clear_reads_zero
           {| Fenwick2D.n := 2; Fenwick2D.T := [0; 0; 0; 0; 4; 4; 0; 4; 9] |}).
  vm_compute. split; discriminate.
Defined.

(** * Further properties of the range-minimum structure *)

Lemma run_calls_spec N cs : forall s sh,
  0 <= N <= max_size -> FenwickRMQ.n s = N -> rmq_inv s ->
  Z.of_nat (length sh) = N + 1 ->
  (forall j, 0 <= j -> get (FenwickRMQ.a s) j = get sh j) ->
  Forall (valid_call N) cs ->
  exists s', run_calls s cs = Ok s' /\ FenwickRMQ.n s' = N /\ rmq_inv s' /\
             forall j, 0 <= j -> get (FenwickRMQ.a s') j = get (shadow_array sh cs) j.
Proof.
  induction cs as [|c cs IH]; intros s sh HN Hn Hinv Hlen Hsh Hv.
  { exists s. split; [reflexivity|]. split; [exact Hn|]. split; [exact Hinv|]. exact Hsh. }
  inversion Hv as [|c' cs' Hc Hcs]; subst c' cs'.
  destruct c as [idx val|from to]; cbn [valid_call] in Hc;
    cbn [run_calls shadow_array FenwickRMQ.step].
  - destruct Hc as [Hidx Hval].
    destruct (rmq_update_spec s idx val Hinv ltac:(lia) ltac:(lia))
      as (s1 & Hu & Hn1 & Ha1 & Hinv1).
    rewrite Hu. cbn [bind fst snd].
    apply (IH s1 (set sh idx val)); try assumption; try lia.
    + rewrite length_set. exact Hlen.
    + intros j Hj. rewrite (Ha1 j Hj). rewrite (get_set sh idx j val) by lia.
      destruct (j =? idx); [reflexivity | apply Hsh, Hj].
  - destruct Hc as [Hft Hto].
    rewrite (rmq_query_spec s from to Hinv) by lia. cbn [bind fst snd].
    apply (IH s sh); assumption.
Qed.

(** X12. After any sequence of valid [update] and [query] calls on a
    structure of size [n], the stored array is the shadow array, and both
    trees agree with it: [lbit[i]] is the minimum of
    [a[i - lowbit i + 1 .. i]] and [rbit[i]] the minimum of
    [a[i .. i + lowbit i - 1]] cut at [n]. *)
Theorem rmq_trees_track_array n cs :
  0 <= n <= max_size -> Forall (valid_call n) cs ->
  exists s, run_calls (FenwickRMQ.make n) cs = Ok s /\
            FenwickRMQ.n s = n /\
            (forall j, 0 <= j <= n ->
                       get (FenwickRMQ.a s) j
                       = get (shadow_array (filled (n + 1) INT_MAX) cs) j) /\
            forall i, 1 <= i <= n ->
                      get (FenwickRMQ.lbit s) i
                      = minr (get (FenwickRMQ.a s)) (i - lowbit i + 1) i /\
                      get (FenwickRMQ.rbit s) i
                      = minr (get (FenwickRMQ.a s)) i (Z.min n (i + lowbit i - 1)).
Proof.
  intros Hn Hv. destruct (make_spec n Hn) as (Hsz & Hinv & Ha).
  destruct (run_calls_spec n cs (FenwickRMQ.make n) (filled (n + 1) INT_MAX)
              Hn Hsz Hinv) as (s & Hr & Hn' & Hinv' & Ha'); [| |exact Hv|].
  - apply length_filled. lia.
  - intros j Hj. unfold FenwickRMQ.make. cbn [FenwickRMQ.a].
    unfold max_size in Hn. rewrite (Int_add_id n 1) by lia. reflexivity.
  - exists s. split; [exact Hr|]. split; [exact Hn'|]. split.
    + intros j Hj. apply Ha'. lia.
    + intros i Hi. destruct Hinv' as (_ & _ & _ & Hnodes).
      unfold max_size in Hn. rewrite (lowbit_lb i) by lia.
      rewrite <- Hn'. apply Hnodes. lia.
Qed.

Lemma rmq_trees_track_array_witness :
  exists s, run_calls (FenwickRMQ.make 5)
              [FenwickRMQ.Update 1 5; FenwickRMQ.Update 3 1; FenwickRMQ.Query 2 4;
               FenwickRMQ.Update 3 10; FenwickRMQ.Update 5 2] = Ok s /\
            FenwickRMQ.n s = 5 /\
            (forall j, 0 <= j <= 5 ->
                       get (FenwickRMQ.a s) j
                       = get (shadow_array (filled (5 + 1) INT_MAX)
                                [FenwickRMQ.Update 1 5; FenwickRMQ.Update 3 1;
                                 FenwickRMQ.Query 2 4; FenwickRMQ.Update 3 10;
                                 FenwickRMQ.Update 5 2]) j) /\
            forall i, 1 <= i <= 5 ->
                      get (FenwickRMQ.lbit s) i
                      = minr (get (FenwickRMQ.a s)) (i - lowbit i + 1) i /\
                      get (FenwickRMQ.rbit s) i
                      = minr (get (FenwickRMQ.a s)) i (Z.min 5 (i + lowbit i - 1)).
Proof.
  apply (rmq_trees_track_array 5); [unfold max_size; lia|].
  repeat constructor; cbn; try lia; apply Int_in_range_iff; lia.
Defined.

(** * What the range-update, range-query structure computes *)

Lemma rurq_value_cons u ups idx :
  rurq_value (u :: ups) idx = rurq_term u idx + rurq_value ups idx.
Proof. reflexivity. Qed.

Lemma rurq_update_spec s D1 D2 l r delta :
  stores (FenwickRURQ.T1 s) D1 -> stores (FenwickRURQ.T2 s) D2 ->
  Fenwick.n (FenwickRURQ.T1 s) = FenwickRURQ.n s ->
  Fenwick.n (FenwickRURQ.T2 s) = FenwickRURQ.n s ->
  FenwickRURQ.n s <= max_size -> 1 <= l <= r -> r <= FenwickRURQ.n s ->
  exists s' E1 E2,
    FenwickRURQ.update s l r delta = Ok s' /\
    FenwickRURQ.n s' = FenwickRURQ.n s /\
    Fenwick.n (FenwickRURQ.T1 s') = FenwickRURQ.n s /\
    Fenwick.n (FenwickRURQ.T2 s') = FenwickRURQ.n s /\
    stores (FenwickRURQ.T1 s') E1 /\ stores (FenwickRURQ.T2 s') E2 /\
    forall idx, 0 <= idx <= FenwickRURQ.n s ->
                eqm (isum E1 1 idx * idx - isum E2 1 idx)
                    (isum D1 1 idx * idx - isum D2 1 idx + rurq_term (l, r, delta) idx).
Proof.
  intros Hs1 Hs2 Hn1 Hn2 Hn Hl Hr. unfold FenwickRURQ.update, max_size in *.
  destruct (update_spec (FenwickRURQ.T1 s) D1 l delta Hs1)
    as (t1 & Hu1 & Hm1 & _ & Ht1); unfold max_size; try lia.
  rewrite Hu1. cbn [bind].
  rewrite (Int_sub_id l 1) by lia.
  destruct (update_spec (FenwickRURQ.T2 s) D2 l (Int64.mul delta (l - 1)) Hs2)
    as (t2 & Hu2 & Hm2 & _ & Ht2); unfold max_size; try lia.
  rewrite Hu2. cbn [bind].
  destruct (Z.ltb_spec r (FenwickRURQ.n s)) as [Hlt|Hge].
  - rewrite (Int_add_id r 1) by lia.
    destruct (update_spec t1 _ (r + 1) (Int64.neg delta) Ht1)
      as (t1' & Hu1' & Hm1' & _ & Ht1'); unfold max_size; try lia.
    rewrite Hu1'. cbn [bind].
    destruct (update_spec t2 _ (r + 1) (Int64.mul delta r) Ht2)
      as (t2' & Hu2' & Hm2' & _ & Ht2'); unfold max_size; try lia.
    rewrite Hu2'. cbn [bind].
    eexists. exists (fun j => if j =? r + 1
                              then (if j =? l then D1 j + delta else D1 j) + Int64.neg delta
                              else if j =? l then D1 j + delta else D1 j).
    exists (fun j => if j =? r + 1
                     then (if j =? l then D2 j + Int64.mul delta (l - 1) else D2 j)
                          + Int64.mul delta r
                     else if j =? l then D2 j + Int64.mul delta (l - 1) else D2 j).
    split; [reflexivity|]. cbn [FenwickRURQ.n FenwickRURQ.T1 FenwickRURQ.T2].
    split; [reflexivity|]. split; [lia|]. split; [lia|].
    split; [exact Ht1'|]. split; [exact Ht2'|].
    intros idx Hidx.
    rewrite (isum_upd (fun j => if j =? l then D1 j + delta else D1 j) (r + 1)).
    rewrite (isum_upd D1 l).
    rewrite (isum_upd (fun j => if j =? l then D2 j + Int64.mul delta (l - 1) else D2 j)
               (r + 1)).
    rewrite (isum_upd D2 l).
    unfold rurq_term. cbn [fst snd].
    unfold Int64.mul, Int64.neg.
    destruct (Z.leb_spec 1 l); [|lia]. destruct (Z.leb_spec 1 (r + 1)); [|lia].
    destruct (Z.leb_spec l idx), (Z.leb_spec (r + 1) idx), (Z.ltb_spec idx l),
      (Z.leb_spec idx r); cbn [andb]; try lia;
      rewrite ?eqm_wrap; apply eq_eqm; ring.
  - eexists. exists (fun j => if j =? l then D1 j + delta else D1 j).
    exists (fun j => if j =? l then D2 j + Int64.mul delta (l - 1) else D2 j).
    split; [reflexivity|]. cbn [FenwickRURQ.n FenwickRURQ.T1 FenwickRURQ.T2].
    split; [reflexivity|]. split; [lia|]. split; [lia|].
    split; [exact Ht1|]. split; [exact Ht2|].
    intros idx Hidx.
    rewrite (isum_upd D1 l). rewrite (isum_upd D2 l).
    unfold rurq_term. cbn [fst snd].
    unfold Int64.mul.
    destruct (Z.leb_spec 1 l); [|lia].
    destruct (Z.leb_spec l idx), (Z.ltb_spec idx l), (Z.leb_spec idx r);
      cbn [andb]; try lia;
      rewrite ?eqm_wrap; apply eq_eqm; ring.
Qed.

Lemma rurq_prefix_sum_spec s D1 D2 idx :
  stores (FenwickRURQ.T1 s) D1 -> stores (FenwickRURQ.T2 s) D2 ->
  Fenwick.n (FenwickRURQ.T1 s) = FenwickRURQ.n s ->
  Fenwick.n (FenwickRURQ.T2 s) = FenwickRURQ.n s ->
  FenwickRURQ.n s <= max_size -> 0 <= idx <= FenwickRURQ.n s ->
  FenwickRURQ.prefix_sum s idx
  = Ok (Int64.wrap (isum D1 1 idx * idx - isum D2 1 idx)).
Proof.
  intros Hs1 Hs2 Hn1 Hn2 Hn Hidx. unfold FenwickRURQ.prefix_sum.
  rewrite (prefix_sum_spec (FenwickRURQ.T1 s) D1 idx Hs1) by lia. cbn [bind].
  rewrite (prefix_sum_spec (FenwickRURQ.T2 s) D2 idx Hs2) by lia. cbn [bind].
  apply (f_equal Ok). unfold Int64.sub, Int64.mul. apply wrap_eqm.
  rewrite !eqm_wrap. reflexivity.
Qed.

Lemma rurq_updates_spec N ups : forall s D1 D2 acc,
  0 <= N <= max_size -> FenwickRURQ.n s = N ->
  Fenwick.n (FenwickRURQ.T1 s) = N -> Fenwick.n (FenwickRURQ.T2 s) = N ->
  stores (FenwickRURQ.T1 s) D1 -> stores (FenwickRURQ.T2 s) D2 ->
  (forall idx, 0 <= idx <= N -> eqm (isum D1 1 idx * idx - isum D2 1 idx) (acc idx)) ->
  Forall (valid_range N) ups ->
  exists s', rurq_updates s ups = Ok s' /\ FenwickRURQ.n s' = N /\
             forall idx, 0 <= idx <= N ->
                         FenwickRURQ.prefix_sum s' idx
                         = Ok (Int64.wrap (acc idx + rurq_value ups idx)).
Proof.
  induction ups as [|[[l r] delta] ups IH]; intros s D1 D2 acc HN Hn Hn1 Hn2 Hs1 Hs2 Hacc Hv.
  - exists s. split; [reflexivity|]. split; [exact Hn|].
    intros idx Hidx.
    rewrite (rurq_prefix_sum_spec s D1 D2 idx Hs1 Hs2) by lia.
    apply (f_equal Ok). apply wrap_eqm. rewrite (Hacc idx Hidx).
    apply eq_eqm. unfold rurq_value, zsum. cbn [map fold_right]. lia.
  - inversion Hv as [|u us Hu Hus]; subst u us.
    destruct Hu as [Hl Hr]. cbn [fst snd] in Hl, Hr.
    destruct (rurq_update_spec s D1 D2 l r delta Hs1 Hs2)
      as (s1 & E1 & E2 & Hu1 & Hm & Hm1 & Hm2 & Ht1 & Ht2 & HE); try lia.
    destruct (IH s1 E1 E2 (fun idx => acc idx + rurq_term (l, r, delta) idx) HN)
      as (s' & Hr' & Hn' & Hq); try assumption; try lia.
    + intros idx Hidx. rewrite (HE idx) by lia. rewrite (Hacc idx Hidx). reflexivity.
    + exists s'. cbn [rurq_updates]. rewrite Hu1. cbn [bind].
      split; [exact Hr'|]. split; [exact Hn'|].
      intros idx Hidx. rewrite (Hq idx Hidx). apply (f_equal Ok).
      apply (f_equal Int64.wrap). rewrite rurq_value_cons. lia.
Qed.

Lemma make_spec_rurq m :
  1 <= m <= 30 ->
  FenwickRURQ.n (FenwickRURQ.make m) = 2 ^ m - 1 /\
  Fenwick.n (FenwickRURQ.T1 (FenwickRURQ.make m)) = 2 ^ m - 1 /\
  Fenwick.n (FenwickRURQ.T2 (FenwickRURQ.make m)) = 2 ^ m - 1 /\
  stores (FenwickRURQ.T1 (FenwickRURQ.make m)) (fun _ => 0) /\
  stores (FenwickRURQ.T2 (FenwickRURQ.make m)) (fun _ => 0).
Proof.
  intros Hm. destruct (allocate_spec m Hm) as (Ho & Hs).
  destruct Ho as (_ & Hn & _).
  unfold FenwickRURQ.make. cbn [FenwickRURQ.n FenwickRURQ.T1 FenwickRURQ.T2].
  split; [exact Hn|]. split; [exact Hn|]. split; [exact Hn|]. split; exact Hs.
Qed.

Lemma rurq_run m ups :
  1 <= m <= 30 -> Forall (valid_range (2 ^ m - 1)) ups ->
  exists s, rurq_updates (FenwickRURQ.make m) ups = Ok s /\
            FenwickRURQ.n s = 2 ^ m - 1 /\
            forall idx, 0 <= idx <= 2 ^ m - 1 ->
                        FenwickRURQ.prefix_sum s idx = Ok (Int64.wrap (rurq_value ups idx)).
Proof.
  intros Hm Hv. destruct (make_spec_rurq m Hm) as (Hn & Hn1 & Hn2 & Hs1 & Hs2).
  pose proof (pow2_bounds m ltac:(lia)) as Hp.
  destruct (rurq_updates_spec (2 ^ m - 1) ups (FenwickRURQ.make m)
              (fun _ => 0) (fun _ => 0) (fun _ => 0))
    as (s & Hr & Hn' & Hq); try assumption.
  - unfold max_size. lia.
  - intros idx Hidx. rewrite !isum_const0. apply eq_eqm. lia.
  - exists s. split; [exact Hr|]. split; [exact Hn'|]. exact Hq.
Qed.

(** ** The brute-force simulation *)

Lemma range_add_get d l : forall r a,
  0 <= l -> l - 1 <= r -> r < Z.of_nat (length a) ->
  Z.of_nat (length (range_add a l r d)) = Z.of_nat (length a) /\
  forall j, 0 <= j ->
            get (range_add a l r d) j
            = if (l <=? j) && (j <=? r) then Int64.add (get a j) d else get a j.
Proof.
  intros r a Hl Hlr. revert a. pattern r. apply range_ind with (lo := l); [| |exact Hlr].
  - intros a Hr. unfold range_add. rewrite fold_range_empty by lia.
    split; [reflexivity|]. intros j Hj.
    destruct (Z.leb_spec l j), (Z.leb_spec j (l - 1)); cbn [andb]; try reflexivity; lia.
  - intros h Hh IH a Hr. unfold range_add in *.
    rewrite fold_range_snoc by lia.
    destruct (IH a ltac:(lia)) as (Hlen & Hget).
    split; [rewrite length_set; exact Hlen|].
    intros j Hj. rewrite get_set by lia. rewrite !Hget by lia.
    destruct (Z.eqb_spec j h) as [->|Hne].
    + destruct (Z.leb_spec l h), (Z.leb_spec h (h - 1)), (Z.leb_spec h h);
        cbn [andb]; try reflexivity; lia.
    + destruct (Z.leb_spec l j), (Z.leb_spec j (h - 1)), (Z.leb_spec j h);
        cbn [andb]; try reflexivity; lia.
Qed.

Lemma range_adds_get N ups : forall a acc,
  Z.of_nat (length a) = N + 1 ->
  (forall j, 1 <= j <= N -> eqm (get a j) (acc j)) ->
  Forall (valid_range N) ups ->
  forall j, 1 <= j <= N -> eqm (get (range_adds a ups) j) (acc j + zsum (covering ups j)).
Proof.
  induction ups as [|[[l r] delta] ups IH]; intros a acc Hlen Hacc Hv j Hj.
  - unfold range_adds, covering, zsum. cbn [fold_left filter map fold_right].
    rewrite (Hacc j Hj). apply eq_eqm. lia.
  - inversion Hv as [|u us Hu Hus]; subst u us.
    destruct Hu as [Hl Hr]. cbn [fst snd] in Hl, Hr.
    destruct (range_add_get delta l r a ltac:(lia) ltac:(lia) ltac:(lia)) as (Hlen' & Hget).
    unfold range_adds in *. cbn [fold_left fst snd].
    rewrite (IH (range_add a l r delta)
                (fun j => acc j + (if (l <=? j) && (j <=? r) then delta else 0)));
      [| lia | | exact Hus | exact Hj].
    + rewrite covering_cons. apply eq_eqm. lia.
    + intros i Hi. rewrite (Hget i) by lia.
      destruct ((l <=? i) && (i <=? r)).
      * unfold Int64.add. rewrite eqm_wrap. rewrite (Hacc i Hi). reflexivity.
      * rewrite (Hacc i Hi). apply eq_eqm. lia.
Qed.

(** The sum of a constant over the part of [l .. r] below [idx]. *)
Lemma isum_indicator l r d idx :
  1 <= l <= r -> 0 <= idx -> idx <= r ->
  isum (fun j => if (l <=? j) && (j <=? r) then d else 0) 1 idx
  = rurq_term (l, r, d) idx.
Proof.
  intros Hl Hidx. assert (H0 : 1 - 1 <= idx) by lia.
  pattern idx. apply range_ind with (lo := 1); [| |exact H0].
  - intros _. rewrite isum_empty by lia. unfold rurq_term. cbn [fst snd].
    destruct (Z.ltb_spec (1 - 1) l); [reflexivity | lia].
  - intros h Hh IH Hr. rewrite isum_snoc by lia. rewrite IH by lia.
    unfold rurq_term. cbn [fst snd].
    destruct (Z.ltb_spec (h - 1) l), (Z.ltb_spec h l), (Z.leb_spec (h - 1) r),
      (Z.leb_spec h r), (Z.leb_spec l h); cbn [andb]; try lia;
      replace h with l by lia; lia.
Qed.

Lemma covering_prefix N ups idx :
  Forall (valid_range N) ups -> Forall (fun u => idx <= snd (fst u)) ups -> 0 <= idx ->
  isum (fun j => zsum (covering ups j)) 1 idx = rurq_value ups idx.
Proof.
  intros Hv Hr Hidx. induction ups as [|[[l r] delta] ups IH].
  - unfold covering, zsum, rurq_value. cbn [filter map fold_right]. apply isum_const0.
  - inversion Hv as [|u us Hu Hus]; subst u us.
    inversion Hr as [|u us Hru Hrus]; subst u us.
    destruct Hu as [Hl Hr']. cbn [fst snd] in Hl, Hr', Hru.
    rewrite rurq_value_cons, <- (IH Hus Hrus).
    rewrite <- (isum_indicator l r delta idx Hl Hidx Hru).
    rewrite <- isum_add. apply isum_ext. intros j Hj. apply covering_cons.
Qed.

(** X13. After any sequence of valid range updates on a structure of order
    [m], [prefix_sum idx] returns, modulo 2^64, the sum over the updates
    [(l, r, delta)] of: nothing when [idx < l], [delta * (idx - l + 1)]
    when [l <= idx <= r], and [- delta * (l - 1 + r)] when [r < idx]. *)
Theorem rurq_prefix_sum_value m ups :
  1 <= m <= 30 -> Forall (valid_range (2 ^ m - 1)) ups ->
  exists s, rurq_updates (FenwickRURQ.make m) ups = Ok s /\
            forall idx, 0 <= idx <= 2 ^ m - 1 ->
                        FenwickRURQ.prefix_sum s idx = Ok (Int64.wrap (rurq_value ups idx)).
Proof.
  intros Hm Hv. destruct (rurq_run m ups Hm Hv) as (s & Hr & _ & Hq).
  exists s. split; [exact Hr | exact Hq].
Qed.

Lemma rurq_prefix_sum_value_witness :
  exists s, rurq_updates (FenwickRURQ.make 3) [(2, 5, 10); (4, 7, 1); (1, 1, -3)] = Ok s /\
            forall idx, 0 <= idx <= 2 ^ 3 - 1 ->
                        FenwickRURQ.prefix_sum s idx
                        = Ok (Int64.wrap (rurq_value [(2, 5, 10); (4, 7, 1); (1, 1, -3)] idx)).
Proof.
  apply (rurq_prefix_sum_value 3); [lia|].
  repeat constructor; cbn; lia.
Defined.

(** X14. A [range_sum l r] that no update ended before ([r] is at most the
    right end of every update made so far) returns the [int64_t] sum of the
    brute-force array over [l .. r]. *)
Theorem rurq_range_sum_inside_updates m ups l r :
  1 <= m <= 30 -> Forall (valid_range (2 ^ m - 1)) ups ->
  1 <= l <= r -> r <= 2 ^ m - 1 -> Forall (fun u => r <= snd (fst u)) ups ->
  exists s, rurq_updates (FenwickRURQ.make m) ups = Ok s /\
            FenwickRURQ.range_sum s l r
            = Ok (sum64 (get (range_adds (filled (2 ^ m) 0) ups)) l r).
Proof.
  intros Hm Hv Hl Hr Hin. destruct (rurq_run m ups Hm Hv) as (s & Hrun & Hn & Hq).
  pose proof (pow2_bounds m ltac:(lia)) as Hp.
  exists s. split; [exact Hrun|].
  assert (Hin' : Forall (fun u => l - 1 <= snd (fst u)) ups).
  { revert Hin. apply Forall_impl. intros u Hu. lia. }
  assert (Hsum : eqm (isum (get (range_adds (filled (2 ^ m) 0) ups)) l r)
                     (rurq_value ups r - rurq_value ups (l - 1))).
  { rewrite (isum_eqm _ (fun j => zsum (covering ups j)) l r).
    - apply eq_eqm.
      rewrite <- (covering_prefix (2 ^ m - 1) ups r Hv Hin) by lia.
      rewrite <- (covering_prefix (2 ^ m - 1) ups (l - 1) Hv Hin') by lia.
      rewrite (isum_split (fun j => zsum (covering ups j)) 1 (l - 1) r) by lia.
      replace (l - 1 + 1) with l by lia. lia.
    - intros j Hj.
      rewrite (range_adds_get (2 ^ m - 1) ups (filled (2 ^ m) 0) (fun _ => 0));
        [apply eq_eqm; lia | | | exact Hv | lia].
      + rewrite length_filled by lia. lia.
      + intros i Hi. rewrite get_filled by lia. reflexivity. }
  rewrite sum64_wrap. unfold FenwickRURQ.range_sum.
  rewrite (Hq r) by lia. cbn [bind].
  destruct (Z.ltb_spec 1 l) as [Hgt|Hle].
  - rewrite (Int_sub_id l 1) by lia. rewrite (Hq (l - 1)) by lia. cbn [bind].
    apply (f_equal Ok). rewrite sub64_wrap. apply wrap_eqm. symmetry. exact Hsum.
  - apply (f_equal Ok). apply wrap_eqm. rewrite Hsum.
    replace (l - 1) with 0 by lia.
    rewrite <- (covering_prefix (2 ^ m - 1) ups 0 Hv); [|  | lia].
    + rewrite isum_empty by lia. apply eq_eqm. lia.
    + revert Hin'. apply Forall_impl. intros u Hu. lia.
Qed.

Lemma rurq_range_sum_inside_updates_witness :
  exists s, rurq_updates (FenwickRURQ.make 3) [(2, 5, 10); (4, 7, 1); (1, 6, -3)] = Ok s /\
            FenwickRURQ.range_sum s 3 5
            = Ok (sum64 (get (range_adds (filled (2 ^ 3) 0) [(2, 5, 10); (4, 7, 1); (1, 6, -3)]))
                        3 5).
Proof.
  apply (rurq_range_sum_inside_updates 3); [lia| |lia|lia|].
  - repeat constructor; cbn; lia.
  - repeat constructor; cbn; lia.
Defined.
